(** * QueryCache: a two-tier (exact + semantic) query result cache

    Shallow embedding of [src/utils/query_cache.py] (class [QueryCache]) and
    the properties of its operations.

    Conventions of the embedding:
    - Python [int] is [Z]; a timestamp or a similarity is the rational the
      float denotes ([Q]); the hit rate, which the code computes by float
      division and multiplication, is computed in IEEE 754 binary64,
      rounding included;
    - an [OrderedDict] is an association list in iteration order
      (oldest first, most recently promoted last);
    - response payloads are Python dicts living in a shared object store
      ([Heap]); the cache holds references to them;
    - every call of [time.time()] is one reading of a clock [nat -> Q];
    - exceptions are values of [exn]; an operation that raises keeps the
      mutations it made before raising. *)

From Stdlib Require Import ZArith QArith Qround Qabs Qpower Lia Lqa String Ascii
  DecimalString DecimalPos DecimalZ.
From Stdlib Require SpecFloat.
From stdpp Require Import base gmap strings list relations.

Local Open Scope Z_scope.

(** ** Python values and the object store *)

Abbreviation loc := nat.

Inductive pyval :=
| PNone
| PBool (b : bool)
| PInt (n : Z)
| PFloat (x : Q)
| PStr (s : string)
| PRef (a : loc).

Inductive pyobj :=
| ODict (d : gmap string pyval)
| OList (l : list pyval).

Abbreviation Heap := (list pyobj).

Inductive exn :=
| KeyError
| ValueError
| TypeError
| AttributeError
| ZeroDivisionError
| OverflowError.

Inductive outcome (A : Type) :=
| Return (a : A)
| Raise (e : exn).
Arguments Return {A} a.
Arguments Raise {A} e.

(** ** OrderedDict *)

Section OrderedDict.
Context {V : Type}.

Definition odict := list (string * V).

(** [d[k]] / [k in d] *)
Fixpoint od_get (k : string) (d : odict) : option V :=
  match d with
  | [] => None
  | (k', v) :: d' => if String.eqb k k' then Some v else od_get k d'
  end.

(** [del d[k]] (keys are unique in a dict built by the operations below) *)
Fixpoint od_del (k : string) (d : odict) : odict :=
  match d with
  | [] => []
  | (k', v) :: d' => if String.eqb k k' then od_del k d' else (k', v) :: od_del k d'
  end.

(** [d[k] = v]: an existing key keeps its position, a new key goes last *)
Fixpoint od_setitem (k : string) (v : V) (d : odict) : odict :=
  match d with
  | [] => [(k, v)]
  | (k', v') :: d' =>
      if String.eqb k k' then (k', v) :: d' else (k', v') :: od_setitem k v d'
  end.

(** [d.move_to_end(k)]: raises [KeyError] when [k] is not a key *)
Definition od_move_to_end (k : string) (d : odict) : outcome odict :=
  match od_get k d with
  | None => Raise KeyError
  | Some v => Return (od_del k d ++ [(k, v)])
  end.

(** [d.popitem(last=False)] on a non-empty dict: drops the oldest item *)
Definition od_popitem_first (d : odict) : odict := tail d.

(** [len(d)] *)
Definition len (d : odict) : Z := Z.of_nat (length d).
End OrderedDict.
Arguments odict V : clear implicits.

(** ** The cache object *)

(** exact_cache values: [{'data': ..., 'timestamp': ..., 'query': ...}] *)
Record ExactEntry := {
  data : loc;
  timestamp : Q;
  query : string
}.

(** semantic_cache values:
    [(query_embedding, response_data, timestamp, query)] *)
Record SemanticEntry := {
  cached_embedding : list Q;
  cached_data : loc;
  cached_timestamp : Q;
  original_query : string
}.

Record Stats := {
  exact_hits : Z;
  semantic_hits : Z;
  misses : Z;
  total_queries : Z;
  evictions : Z;
  ttl_expirations : Z
}.

Record QueryCache := {
  max_size : Z;
  similarity_threshold : Q;
  ttl_seconds : option Z;
  enable_semantic_cache : bool;
  exact_cache : odict ExactEntry;
  semantic_cache : odict SemanticEntry;
  stats : Stats
}.

Definition zero_stats : Stats :=
  {| exact_hits := 0; semantic_hits := 0; misses := 0;
     total_queries := 0; evictions := 0; ttl_expirations := 0 |}.

Definition with_exact (c : QueryCache) (d : odict ExactEntry) : QueryCache :=
  {| max_size := max_size c; similarity_threshold := similarity_threshold c;
     ttl_seconds := ttl_seconds c; enable_semantic_cache := enable_semantic_cache c;
     exact_cache := d; semantic_cache := semantic_cache c; stats := stats c |}.

Definition with_semantic (c : QueryCache) (d : odict SemanticEntry) : QueryCache :=
  {| max_size := max_size c; similarity_threshold := similarity_threshold c;
     ttl_seconds := ttl_seconds c; enable_semantic_cache := enable_semantic_cache c;
     exact_cache := exact_cache c; semantic_cache := d; stats := stats c |}.

Definition with_stats (c : QueryCache) (s : Stats) : QueryCache :=
  {| max_size := max_size c; similarity_threshold := similarity_threshold c;
     ttl_seconds := ttl_seconds c; enable_semantic_cache := enable_semantic_cache c;
     exact_cache := exact_cache c; semantic_cache := semantic_cache c; stats := s |}.

(** [self.stats[...] += 1] *)
Definition incr_exact_hits (s : Stats) : Stats :=
  {| exact_hits := exact_hits s + 1; semantic_hits := semantic_hits s;
     misses := misses s; total_queries := total_queries s;
     evictions := evictions s; ttl_expirations := ttl_expirations s |}.
Definition incr_semantic_hits (s : Stats) : Stats :=
  {| exact_hits := exact_hits s; semantic_hits := semantic_hits s + 1;
     misses := misses s; total_queries := total_queries s;
     evictions := evictions s; ttl_expirations := ttl_expirations s |}.
Definition incr_misses (s : Stats) : Stats :=
  {| exact_hits := exact_hits s; semantic_hits := semantic_hits s;
     misses := misses s + 1; total_queries := total_queries s;
     evictions := evictions s; ttl_expirations := ttl_expirations s |}.
Definition incr_total_queries (s : Stats) : Stats :=
  {| exact_hits := exact_hits s; semantic_hits := semantic_hits s;
     misses := misses s; total_queries := total_queries s + 1;
     evictions := evictions s; ttl_expirations := ttl_expirations s |}.
Definition incr_evictions (s : Stats) : Stats :=
  {| exact_hits := exact_hits s; semantic_hits := semantic_hits s;
     misses := misses s; total_queries := total_queries s;
     evictions := evictions s + 1; ttl_expirations := ttl_expirations s |}.
Definition incr_ttl_expirations (s : Stats) : Stats :=
  {| exact_hits := exact_hits s; semantic_hits := semantic_hits s;
     misses := misses s; total_queries := total_queries s;
     evictions := evictions s; ttl_expirations := ttl_expirations s + 1 |}.

(** ** The world an operation runs in, and the monad of operations *)

Record World := {
  heap : Heap;          (* Python objects reachable from caller and cache *)
  self : QueryCache;    (* the cache instance *)
  ticks : nat           (* how many times time.time() has been read *)
}.

Definition M (A : Type) : Type := World -> outcome A * World.

Definition ret {A} (a : A) : M A := λ w, (Return a, w).
Definition raise {A} (e : exn) : M A := λ w, (Raise e, w).
Definition bind {A B} (m : M A) (f : A -> M B) : M B := λ w,
  match m w with
  | (Return a, w') => f a w'
  | (Raise e, w') => (Raise e, w')
  end.

Declare Scope py_scope.
Delimit Scope py_scope with py.
Notation "x ← y ; z" := (bind y (λ x, z))
  (at level 20, y at level 100, z at level 200, only parsing) : py_scope.
Notation "x ;; z" := (bind x (λ _, z))
  (at level 100, z at level 200, only parsing, right associativity) : py_scope.
Local Open Scope py_scope.

Definition get_self : M QueryCache := λ w, (Return (self w), w).
Definition put_self (c : QueryCache) : M unit :=
  λ w, (Return tt, {| heap := heap w; self := c; ticks := ticks w |}).
Definition get_heap : M Heap := λ w, (Return (heap w), w).
Definition put_heap (h : Heap) : M unit :=
  λ w, (Return tt, {| heap := h; self := self w; ticks := ticks w |}).
Definition modify_stats (f : Stats -> Stats) : M unit :=
  c ← get_self; put_self (with_stats c (f (stats c))).

(** Lift a dict operation that may raise. *)
Definition lift_outcome {A} (o : outcome A) : M A :=
  match o with
  | Return a => ret a
  | Raise e => raise e
  end.

(** ** Python dict objects in the store *)

(** [obj.copy()] for a dict or a list: a new object with the same items,
    which are shared with the original (shallow copy). *)
Definition obj_copy (a : loc) : M loc :=
  h ← get_heap;
  match h !! a with
  | Some o => put_heap (h ++ [o]);; ret (length h)
  | None => raise TypeError
  end.

(** [obj[key] = v] with a string key. *)
Definition dict_setitem (a : loc) (key : string) (v : pyval) : M unit :=
  h ← get_heap;
  match h !! a with
  | Some (ODict d) => put_heap (<[a := ODict (<[key := v]> d)]> h)
  | _ => raise TypeError
  end.

(** [obj.append(v)] on a list object. *)
Definition list_append (a : loc) (v : pyval) : M unit :=
  h ← get_heap;
  match h !! a with
  | Some (OList l) => put_heap (<[a := OList (l ++ [v])]> h)
  | _ => raise AttributeError
  end.

(** [del obj[key]] with a string key. *)
Definition dict_delitem (a : loc) (key : string) : M unit :=
  h ← get_heap;
  match h !! a with
  | Some (ODict d) =>
      match d !! key with
      | Some _ => put_heap (<[a := ODict (delete key d)]> h)
      | None => raise KeyError
      end
  | _ => raise TypeError
  end.

(** Comparisons of floats. *)
Definition Qgtb (x y : Q) : bool := negb (Qle_bool x y).
Definition Qgeb (x y : Q) : bool := Qle_bool y x.

(** ** Strings *)

(** [f"{k}"] for an int: its decimal digits, with a minus sign when
    negative. *)
Definition str_of_int (k : Z) : string := NilZero.string_of_int (Z.to_int k).

(** ** Numbers: [int / int], [float * float] and [round]

    A float is an IEEE 754 binary64 value.  A finite one is represented by
    the rational it is equal to (the two zeros are one value, as they are
    for [==]); every operation rounds its exact result to the nearest
    representable value, an exact half going to the even neighbour. *)

Inductive float64 :=
| Finite (x : Q)
| Infinity (negative : bool)
| NaN.

(** A Python number: an [int] or a [float]. *)
Inductive number :=
| Int (n : Z)
| Float (x : float64).

(** The nearest integer, an exact half going to the even neighbour. *)
Definition round_half_even (x : Q) : Z :=
  let f := Qfloor x in
  let r := (x - inject_Z f)%Q in
  match (r ?= 1 # 2)%Q with
  | Lt => f
  | Gt => f + 1
  | Eq => if Z.even f then f else f + 1
  end.

(** [floor (log2 x)] for [x > 0]. *)
Definition Qlog2 (x : Q) : Z :=
  let e := Z.log2 (Qnum x) - Z.log2 (Zpos (Qden x)) in
  if Qle_bool (2 ^ e) x then e else e - 1.

(** The distance between neighbouring binary64 values around [x]: 53
    significant bits, and [2^-1074] throughout the subnormal range. *)
Definition ulp (x : Q) : Q := (2 ^ (Z.max (Qlog2 (Qabs x)) (-1022) - 52))%Q.

(** [x] rounded to the nearest multiple of [ulp x], ties to even: the
    binary64 value of [x] when there is no overflow. *)
Definition nearest_binary64 (x : Q) : Q :=
  if Qeq_bool x 0 then 0%Q
  else Qred (inject_Z (round_half_even (x / ulp x)) * ulp x).

(** The float an exact result [x] becomes: an infinity when the rounded
    value does not fit ([2^1024] or more in magnitude). *)
Definition to_float64 (x : Q) : float64 :=
  let r := nearest_binary64 x in
  if Qle_bool (2 ^ 1024) (Qabs r) then Infinity (negb (Qle_bool 0 x)) else Finite r.

(** [a / b] on two ints: the exact quotient, correctly rounded;
    [ZeroDivisionError] when [b] is 0, [OverflowError] when the result is
    too large for a float. *)
Definition int_truediv (a b : Z) : outcome float64 :=
  if b =? 0 then Raise ZeroDivisionError
  else
    match to_float64 (inject_Z a / inject_Z b) with
    | Finite q => Return (Finite q)
    | _ => Raise OverflowError
    end.

(** [x * y] on two floats; an overflow gives an infinity, no exception. *)
Definition float_mul (x y : float64) : float64 :=
  match x, y with
  | Finite a, Finite b => to_float64 (a * b)
  | NaN, _ | _, NaN => NaN
  | Infinity s, Infinity s' => Infinity (xorb s s')
  | Infinity s, Finite b | Finite b, Infinity s =>
      if Qeq_bool b 0 then NaN else Infinity (xorb s (negb (Qle_bool 0 b)))
  end.

(** The same two operations in the Standard Library's specification of
    IEEE 754 arithmetic ([SpecFloat], binary64 being 53 bits of precision
    and exponents below 1024), for comparison: the value of a finite
    result, [None] for an infinity or a NaN. *)
Definition spec_float_of_int (n : Z) : SpecFloat.spec_float :=
  match n with
  | 0 => SpecFloat.S754_zero false
  | Zpos p => SpecFloat.S754_finite false p 0
  | Zneg p => SpecFloat.S754_finite true p 0
  end.

Definition spec_float_value (f : SpecFloat.spec_float) : option Q :=
  match f with
  | SpecFloat.S754_zero _ => Some 0%Q
  | SpecFloat.S754_finite s m e =>
      Some (Qred ((if s then -1 else 1) * inject_Z (Zpos m) * 2 ^ e))
  | _ => None
  end.

Definition spec_float_rate (hits total : Z) : option Q * option Q :=
  let ratio :=
    SpecFloat.SFdiv 53 1024 (spec_float_of_int hits) (spec_float_of_int total) in
  let rate :=
    SpecFloat.SFmul 53 1024 ratio (SpecFloat.binary_normalize 53 1024 100 0 false) in
  (spec_float_value ratio, spec_float_value rate).

(** The quotient and the product of [get_stats], [None] for an infinity. *)
Definition binary64_rate (hits total : Z) : option Q * option Q :=
  match to_float64 (inject_Z hits / inject_Z total) with
  | Finite ratio =>
      (Some ratio,
       match float_mul (Finite ratio) (Finite 100) with
       | Finite rate => Some rate
       | _ => None
       end)
  | _ => (None, None)
  end.

(** [round(x, ndigits)] with [ndigits >= 0].  An int is returned as it is.
    A finite float is rounded, from the exact value it has, to the nearest
    decimal with [ndigits] digits after the point, ties to even, and the
    float nearest to that decimal is returned; an infinity or a NaN is
    returned as it is. *)
Definition py_round (x : number) (ndigits : nat) : number :=
  match x with
  | Int n => Int n
  | Float (Finite a) =>
      let scale := inject_Z (10 ^ Z.of_nat ndigits) in
      Float (Finite (nearest_binary64 (inject_Z (round_half_even (a * scale)) / scale)))
  | Float f => Float f
  end.

(** ** QueryCache operations *)

Inductive store := ExactStore | SemanticStore.

(** The scan's three locals: [best_match], [best_similarity], [best_hash]. *)
Record Best := {
  best_match : option loc;
  best_similarity : Q;
  best_hash : option string
}.

(** What [get_stats] returns. *)
Record StatsSnapshot := {
  snap_stats : Stats;
  total_hits : Z;
  hit_rate_percent : number;
  exact_cache_size : Z;
  semantic_cache_size : Z;
  total_cache_size : Z
}.

Section QueryCacheOps.
(** [s.lower()] and [s.strip()]: Python's lower-casing and whitespace
    stripping of a [str], which follow the Unicode character tables. *)
Variable lower : string -> string.
Variable strip : string -> string.
(** [hashlib.sha256(s.encode()).hexdigest()] *)
Variable sha256_hexdigest : string -> string.
(** The value of sklearn's cosine similarity (normalized dot product) on
    two rows of the same length. *)
Variable cosine : list Q -> list Q -> Q.
(** The successive readings of [time.time()]. *)
Variable clock : nat -> Q.

Definition time_time : M Q :=
  λ w, (Return (clock (ticks w)),
        {| heap := heap w; self := self w; ticks := S (ticks w) |}).

(** Modelled from the spec: [sklearn.metrics.pairwise.cosine_similarity]
    is third-party code outside the repository.  The call
    [cosine_similarity(x.reshape(1, -1), y.reshape(1, -1))[0][0]] gives the
    normalized dot product of two equal-length vectors and fails with a
    dimension-mismatch error (sklearn's [ValueError], the spec's
    InvalidEmbedding condition) when the lengths differ. *)
Definition cosine_similarity (x y : list Q) : outcome Q :=
  if (length x =? length y)%nat then Return (cosine x y) else Raise ValueError.

Definition __init__ (max_size : Z) (similarity_threshold : Q)
    (ttl_seconds : option Z) (enable_semantic_cache : bool) : outcome QueryCache :=
  Return {| max_size := max_size;
            similarity_threshold := similarity_threshold;
            ttl_seconds := ttl_seconds;
            enable_semantic_cache := enable_semantic_cache;
            exact_cache := [];
            semantic_cache := [];
            stats := zero_stats |}.

(** The string [_generate_query_hash] hashes: [f"{normalized}|k={k}"]. *)
Definition cache_key (query : string) (k : Z) : string :=
  let normalized := strip (lower query) in
  (normalized ++ "|k=" ++ str_of_int k)%string.

Definition _generate_query_hash (query : string) (k : Z) : string :=
  sha256_hexdigest (cache_key query k).

Definition _is_expired (timestamp : Q) : M bool :=
  c ← get_self;
  match ttl_seconds c with
  | None => ret false
  | Some ttl => now ← time_time; ret (Qgtb (now - timestamp) (inject_Z ttl))
  end.

Definition _evict_oldest (cache : store) : M unit :=
  c ← get_self;
  match cache with
  | ExactStore =>
      match exact_cache c with
      | [] => ret tt
      | _ :: _ =>
          put_self (with_exact c (od_popitem_first (exact_cache c)));;
          modify_stats incr_evictions
      end
  | SemanticStore =>
      match semantic_cache c with
      | [] => ret tt
      | _ :: _ =>
          put_self (with_semantic c (od_popitem_first (semantic_cache c)));;
          modify_stats incr_evictions
      end
  end.

(** The [while total_entries > self.max_size] loop.  The body changes
    neither side of the test except through [total_entries -= 1], so the
    loop makes at most [total_entries - max_size] rounds; [rounds] is that
    bound.  The value returned is [total_entries] when the loop is left. *)
Fixpoint ensure_loop (rounds : nat) (total_entries : Z) : M Z :=
  c ← get_self;
  if total_entries >? max_size c then
    match rounds with
    | S rounds' =>
        (if len (exact_cache c) >=? len (semantic_cache c)
         then _evict_oldest ExactStore
         else _evict_oldest SemanticStore);;
        ensure_loop rounds' (total_entries - 1)
    | O => ret total_entries
    end
  else ret total_entries.

Definition _ensure_cache_size : M Z :=
  c ← get_self;
  let total_entries := len (exact_cache c) + len (semantic_cache c) in
  ensure_loop (Z.to_nat (total_entries - max_size c)) total_entries.

Definition _create_cache_response (data : option loc) (cache_type : string)
    (similarity : option Q) : M loc :=
  match data with
  | None => raise AttributeError
  | Some d =>
      response ← obj_copy d;
      dict_setitem response "_cache_hit" (PBool true);;
      dict_setitem response "_cache_type" (PStr cache_type);;
      match similarity with
      | Some s => dict_setitem response "_cache_similarity" (PFloat s)
      | None => ret tt
      end;;
      ret response
  end.

(** [self.exact_cache.move_to_end(k)] *)
Definition exact_move_to_end (k : string) : M unit :=
  c ← get_self;
  d ← lift_outcome (od_move_to_end k (exact_cache c));
  put_self (with_exact c d).

(** [self.semantic_cache.move_to_end(k)]; [k] may be [None], which is
    never a key. *)
Definition semantic_move_to_end (k : option string) : M unit :=
  c ← get_self;
  match k with
  | None => raise KeyError
  | Some k =>
      d ← lift_outcome (od_move_to_end k (semantic_cache c));
      put_self (with_semantic c d)
  end.

(** The [for ... in self.semantic_cache.items()] loop of [get]. *)
Fixpoint scan (query_embedding : list Q)
    (items : list (string * SemanticEntry)) (best : Best) : M Best :=
  match items with
  | [] => ret best
  | (cached_hash, e) :: items' =>
      expired ← _is_expired (cached_timestamp e);
      if expired then scan query_embedding items' best
      else
        similarity ← lift_outcome (cosine_similarity query_embedding (cached_embedding e));
        if Qgtb similarity (best_similarity best)
        then scan query_embedding items'
               {| best_match := Some (cached_data e);
                  best_similarity := similarity;
                  best_hash := Some cached_hash |}
        else scan query_embedding items' best
  end.

(** Lines 131-164 of [get]: the semantic lookup and the final miss. *)
Definition get_semantic (query_embedding : option (list Q)) : M (option loc) :=
  c ← get_self;
  match enable_semantic_cache c, query_embedding with
  | true, Some qe =>
      best ← scan qe (semantic_cache c)
               {| best_match := None; best_similarity := 0; best_hash := None |};
      if Qgeb (best_similarity best) (similarity_threshold c) then
        semantic_move_to_end (best_hash best);;
        modify_stats incr_semantic_hits;;
        response ← _create_cache_response (best_match best) "semantic"
                     (Some (best_similarity best));
        ret (Some response)
      else
        modify_stats incr_misses;; ret None
  | _, _ => modify_stats incr_misses;; ret None
  end.

Definition get (query : string) (k : Z) (query_embedding : option (list Q))
    : M (option loc) :=
  modify_stats incr_total_queries;;
  let query_hash := _generate_query_hash query k in
  c ← get_self;
  match od_get query_hash (exact_cache c) with
  | Some entry =>
      expired ← _is_expired (timestamp entry);
      if expired then
        c ← get_self;
        put_self (with_exact c (od_del query_hash (exact_cache c)));;
        modify_stats incr_ttl_expirations;;
        get_semantic query_embedding
      else
        exact_move_to_end query_hash;;
        modify_stats incr_exact_hits;;
        response ← _create_cache_response (Some (data entry)) "exact" None;
        ret (Some response)
  | None => get_semantic query_embedding
  end.

(** Lines 182-203 of [set]: the writes to the two stores. *)
Definition set_store (query : string) (response_data : loc) (k : Z)
    (query_embedding : option (list Q)) : M unit :=
  let query_hash := _generate_query_hash query k in
  timestamp ← time_time;
  c ← get_self;
  put_self (with_exact c
    (od_setitem query_hash
       {| data := response_data; timestamp := timestamp; query := query |}
       (exact_cache c)));;
  exact_move_to_end query_hash;;
  c ← get_self;
  match enable_semantic_cache c, query_embedding with
  | true, Some qe =>
      put_self (with_semantic c
        (od_setitem query_hash
           {| cached_embedding := qe; cached_data := response_data;
              cached_timestamp := timestamp; original_query := query |}
           (semantic_cache c)));;
      semantic_move_to_end (Some query_hash)
  | _, _ => ret tt
  end.

Definition set (query : string) (response_data : loc) (k : Z)
    (query_embedding : option (list Q)) : M unit :=
  set_store query response_data k query_embedding;;
  _ensure_cache_size;;
  ret tt.

Definition get_stats : M StatsSnapshot :=
  c ← get_self;
  let total_hits := exact_hits (stats c) + semantic_hits (stats c) in
  hit_rate ←
    (if total_queries (stats c) >? 0
     then
       (* [100] is the float 100.0 in the product *)
       ratio ← lift_outcome (int_truediv total_hits (total_queries (stats c)));
       ret (Float (float_mul ratio (Finite 100)))
     else ret (Int 0));
  ret {| snap_stats := stats c;
         total_hits := total_hits;
         hit_rate_percent := py_round hit_rate 2;
         exact_cache_size := len (exact_cache c);
         semantic_cache_size := len (semantic_cache c);
         total_cache_size := len (exact_cache c) + len (semantic_cache c) |}.

(** *** Vocabulary for the statements *)

(** Whether [_is_expired(timestamp)] answers [True] when its clock reading
    is reading number [t]. *)
Definition expired_at (c : QueryCache) (t : nat) (timestamp : Q) : bool :=
  match ttl_seconds c with
  | None => false
  | Some ttl => Qgtb (clock t - timestamp) (inject_Z ttl)
  end.

(** The number of the next reading after one [_is_expired] call. *)
Definition tick_after (c : QueryCache) (t : nat) : nat :=
  match ttl_seconds c with
  | None => t
  | Some _ => S t
  end.

(** The items the scan does not skip, in iteration order, when the scan
    starts at reading number [t]. *)
Fixpoint live (c : QueryCache) (t : nat) (items : list (string * SemanticEntry))
    : list (string * SemanticEntry) :=
  match items with
  | [] => []
  | (h, e) :: items' =>
      if expired_at c t (cached_timestamp e)
      then live c (tick_after c t) items'
      else (h, e) :: live c (tick_after c t) items'
  end.

(** One round of the scan on an item that is not skipped and whose
    embedding has the query's length. *)
Definition pick (query_embedding : list Q) (best : Best)
    (item : string * SemanticEntry) : Best :=
  let similarity := cosine query_embedding (cached_embedding item.2) in
  if Qgtb similarity (best_similarity best)
  then {| best_match := Some (cached_data item.2);
          best_similarity := similarity;
          best_hash := Some item.1 |}
  else best.

(** The exact stage of [get] does not return: the fingerprint is absent
    from the exact store, or its entry is expired. *)
Definition exact_falls_through (query : string) (k : Z) (w : World) : bool :=
  match od_get (_generate_query_hash query k) (exact_cache (self w)) with
  | None => true
  | Some entry => expired_at (self w) (ticks w) (timestamp entry)
  end.

(** The world in which [get] reaches its semantic stage (line 131) when
    the exact stage falls through. *)
Definition at_semantic_stage (query : string) (k : Z) (w : World) : World :=
  let c := with_stats (self w) (incr_total_queries (stats (self w))) in
  let query_hash := _generate_query_hash query k in
  match od_get query_hash (exact_cache c) with
  | None => {| heap := heap w; self := c; ticks := ticks w |}
  | Some _ =>
      {| heap := heap w;
         self := with_stats (with_exact c (od_del query_hash (exact_cache c)))
                   (incr_ttl_expirations (stats c));
         ticks := tick_after c (ticks w) |}
  end.

End QueryCacheOps.

(** The items of the dict [_create_cache_response] returns, from the items
    [m] of the payload it copies. *)
Definition annotated (m : gmap string pyval) (cache_type : string)
    (similarity : option Q) : gmap string pyval :=
  let m' := <["_cache_type" := PStr cache_type]> (<["_cache_hit" := PBool true]> m) in
  match similarity with
  | Some s => <["_cache_similarity" := PFloat s]> m'
  | None => m'
  end.

(** The scan's locals before the first round. *)
Definition no_best : Best :=
  {| best_match := None; best_similarity := 0; best_hash := None |}.

(** The stored embedding of [item] has as many components as [qe]. *)
Definition same_length (qe : list Q) (item : string * SemanticEntry) : Prop :=
  length (cached_embedding item.2) = length qe.

(** Keys of a dict are pairwise distinct. *)
Fixpoint unique_keys {V} (d : odict V) : bool :=
  match d with
  | [] => true
  | (k, _) :: d' =>
      match od_get k d' with
      | None => unique_keys d'
      | Some _ => false
      end
  end.

(** Both stores are dicts: no key occurs twice. *)
Definition keys_unique (c : QueryCache) : Prop :=
  unique_keys (exact_cache c) = true ∧ unique_keys (semantic_cache c) = true.

(** The eviction step in the words of the design (section 4.4): while the
    two stores together exceed [max_size], the oldest entry of the store
    with the greater count goes, the exact store on a tie, and the eviction
    counter counts it. *)
Inductive spec_evict_step : QueryCache -> QueryCache -> Prop :=
| spec_evict_exact c oldest rest :
    len (exact_cache c) + len (semantic_cache c) > max_size c ->
    len (exact_cache c) >= len (semantic_cache c) ->
    exact_cache c = oldest :: rest ->
    spec_evict_step c
      (with_stats (with_exact c rest) (incr_evictions (stats c)))
| spec_evict_semantic c oldest rest :
    len (exact_cache c) + len (semantic_cache c) > max_size c ->
    len (exact_cache c) < len (semantic_cache c) ->
    semantic_cache c = oldest :: rest ->
    spec_evict_step c
      (with_stats (with_semantic c rest) (incr_evictions (stats c))).

(** ** What a caller can see of a payload *)

(** The content of a value, followed through references [fuel] levels deep. *)
#[warnings="-register-all"]
Inductive pytree :=
| TAtom (v : pyval)
| TDict (items : list (string * pytree))
| TList (items : list pytree)
| TCut.

Fixpoint deep (fuel : nat) (h : Heap) (v : pyval) : pytree :=
  match v with
  | PRef a =>
      match fuel with
      | O => TCut
      | S fuel' =>
          match h !! a with
          | Some (ODict d) =>
              TDict (map (λ kv, (kv.1, deep fuel' h kv.2)) (map_to_list d))
          | Some (OList l) => TList (map (deep fuel' h) l)
          | None => TCut
          end
      end
  | _ => TAtom v
  end.

(** References stored in an object. *)
Definition refs_below (n : nat) (o : pyobj) : Prop :=
  match o with
  | ODict d => ∀ key a, d !! key = Some (PRef a) → (a < n)%nat
  | OList l => ∀ a, PRef a ∈ l → (a < n)%nat
  end.

(** Every reference held by an object of the store points into the store. *)
Definition closed (h : Heap) : Prop :=
  ∀ a o, h !! a = Some o → refs_below (length h) o.

(** What a caller may do to the top level of a dict it was handed. *)
Inductive top_mutation :=
| SetItem (key : string) (v : pyval)
| DelItem (key : string).

Definition mutate (r : loc) (m : top_mutation) : M unit :=
  match m with
  | SetItem key v => dict_setitem r key v
  | DelItem key => dict_delitem r key
  end.

(** A caller working on the top level of the dict at [r], one statement
    after the other. *)
Fixpoint mutate_all (r : loc) (ms : list top_mutation) : M unit :=
  match ms with
  | [] => ret tt
  | m :: ms' => mutate r m;; mutate_all r ms'
  end.

(** ** Concrete instances for the examples *)

(** [str.lower()] and [str.strip()] on ASCII text, where lower-casing
    only maps [A-Z] to [a-z] and the whitespace characters are the bytes
    9-13 and 28-32.  The examples use ASCII strings only. *)
Definition lower_ascii (c : ascii) : ascii :=
  let n := nat_of_ascii c in
  if ((65 <=? n) && (n <=? 90))%nat then ascii_of_nat (n + 32) else c.

Definition ascii_lower (s : string) : string :=
  string_of_list_ascii (map lower_ascii (list_ascii_of_string s)).

Definition is_space (c : ascii) : bool :=
  let n := nat_of_ascii c in
  (((9 <=? n) && (n <=? 13)) || ((28 <=? n) && (n <=? 32)))%nat.

Fixpoint lstrip_list (l : list ascii) : list ascii :=
  match l with
  | c :: l' => if is_space c then lstrip_list l' else l
  | [] => []
  end.

Definition ascii_strip (s : string) : string :=
  string_of_list_ascii
    (rev (lstrip_list (rev (lstrip_list (list_ascii_of_string s))))).

(** A string of ASCII characters (code points below 128). *)
Definition is_ascii (s : string) : bool :=
  forallb (λ c, (nat_of_ascii c <? 128)%nat) (list_ascii_of_string s).

(** A stand-in digest: the string itself. *)
Definition id_digest (s : string) : string := s.

Fixpoint dot (x y : list Q) : Q :=
  match x, y with
  | a :: x', b :: y' => (a * b + dot x' y')%Q
  | _, _ => 0%Q
  end.

(** The dot product, which is the cosine similarity of unit-norm vectors. *)
Definition unit_cosine (x y : list Q) : Q := Qred (dot x y).

(** A clock that advances one second per reading. *)
Definition second_clock (n : nat) : Q := inject_Z (Z.of_nat n).

Definition new_cache (max_size : Z) (similarity_threshold : Q)
    (ttl_seconds : option Z) (enable_semantic_cache : bool) : QueryCache :=
  {| max_size := max_size;
     similarity_threshold := similarity_threshold;
     ttl_seconds := ttl_seconds;
     enable_semantic_cache := enable_semantic_cache;
     exact_cache := [];
     semantic_cache := [];
     stats := zero_stats |}.

Definition start (c : QueryCache) (h : Heap) : World :=
  {| heap := h; self := c; ticks := 0 |}.

(** A clock whose first reading is 0 and whose later readings come more
    than 5000 seconds after it. *)
Definition late_clock (n : nat) : Q :=
  match n with
  | O => 0%Q
  | S _ => inject_Z (5000 + Z.of_nat n)
  end.

(** One empty payload dict, at location 0. *)
Definition one_payload : Heap := [ODict ∅].

(** A payload [{'results': ['chunk']}] at location 0, its list at 1. *)
Definition nested_payload : Heap :=
  [ODict {["results" := PRef 1]}; OList [PStr "chunk"]].

(** [QueryCache()] with the default arguments, then
    [set("a", p, 5, [1, 0])] and [set("b", p, 5, [1, 0])]: two semantic
    entries at the same similarity to any query. *)
Definition tied_world : World :=
  ((set ascii_lower ascii_strip id_digest second_clock "a" 0%nat 5 (Some [1%Q; 0%Q]);;
   set ascii_lower ascii_strip id_digest second_clock "b" 0%nat 5 (Some [1%Q; 0%Q]))
    (start (new_cache 1000 (92 # 100) (Some 3600) true) one_payload)).2.

(** [QueryCache(similarity_threshold=0.0)], then
    [set("a", p, 5, [1, 0])] and [set("b", p, 5, [1, 0])]. *)
Definition tied_at_zero_world : World :=
  ((set ascii_lower ascii_strip id_digest second_clock "a" 0%nat 5 (Some [1%Q; 0%Q]);;
   set ascii_lower ascii_strip id_digest second_clock "b" 0%nat 5 (Some [1%Q; 0%Q]))
    (start (new_cache 1000 0 (Some 3600) true) one_payload)).2.

(** [QueryCache(similarity_threshold=0.0)], then [set("a", p, 5, [1, 0])]. *)
Definition zero_threshold_world : World :=
  (set ascii_lower ascii_strip id_digest second_clock "a" 0%nat 5 (Some [1%Q; 0%Q])
     (start (new_cache 1000 0 (Some 3600) true) one_payload)).2.

(** [QueryCache()], [set("q", p)] at time 0, then much later
    [set("r", p, 5, [1, 0])]. *)
Definition stale_world : World :=
  ((set ascii_lower ascii_strip id_digest late_clock "q" 0%nat 5 None;;
   set ascii_lower ascii_strip id_digest late_clock "r" 0%nat 5 (Some [1%Q; 0%Q]))
    (start (new_cache 1000 (92 # 100) (Some 3600) true) one_payload)).2.

(** ** QueryCache: maintenance operations *)

(** [del self.exact_cache[key]] / [del self.semantic_cache[key]]: raises
    [KeyError] when [key] is not a key. *)
Definition del_item (cache : store) (key : string) : M unit :=
  c ← get_self;
  match cache with
  | ExactStore =>
      match od_get key (exact_cache c) with
      | Some _ => put_self (with_exact c (od_del key (exact_cache c)))
      | None => raise KeyError
      end
  | SemanticStore =>
      match od_get key (semantic_cache c) with
      | Some _ => put_self (with_semantic c (od_del key (semantic_cache c)))
      | None => raise KeyError
      end
  end.

(** [for key in keys: del cache[key]; self.stats['ttl_expirations'] += 1] *)
Fixpoint del_expired (cache : store) (keys : list string) : M unit :=
  match keys with
  | [] => ret tt
  | key :: keys' =>
      del_item cache key;;
      modify_stats incr_ttl_expirations;;
      del_expired cache keys'
  end.

(** [n] times [self.stats['ttl_expirations'] += 1] *)
Definition add_expirations (n : nat) (s : Stats) : Stats :=
  {| exact_hits := exact_hits s; semantic_hits := semantic_hits s;
     misses := misses s; total_queries := total_queries s;
     evictions := evictions s;
     ttl_expirations := ttl_expirations s + Z.of_nat n |}.

Section QueryCacheMaintenance.
Variable clock : nat -> Q.

Definition clear : M unit :=
  c ← get_self;
  put_self (with_exact c []);;
  c ← get_self;
  put_self (with_semantic c []).

Definition remove_expired : M unit :=
  c ← get_self;
  match ttl_seconds c with
  | None => ret tt
  | Some ttl =>
      current_time ← time_time clock;
      c ← get_self;
      let expired_exact :=
        map fst
          (List.filter
             (λ kv, Qgtb (current_time - timestamp kv.2) (inject_Z ttl))
             (exact_cache c)) in
      del_expired ExactStore expired_exact;;
      c ← get_self;
      let expired_semantic :=
        map fst
          (List.filter
             (λ kv, Qgtb (current_time - cached_timestamp kv.2) (inject_Z ttl))
             (semantic_cache c)) in
      del_expired SemanticStore expired_semantic
  end.

Definition reset_stats : M unit :=
  c ← get_self;
  put_self (with_stats c zero_stats).

End QueryCacheMaintenance.

(** ** ChunkCache *)

Module Chunk.

Record ChunkStats := {
  hits : Z;
  misses : Z;
  evictions : Z;
  expirations : Z
}.

(** cache values: [(chunks, timestamp)]; [chunks] is a reference to the
    caller's list. *)
Record ChunkCache := {
  max_size : Z;
  ttl_seconds : option Z;
  cache : odict (loc * Q);
  stats : ChunkStats
}.

Record State := {
  self : ChunkCache;   (* the cache instance *)
  ticks : nat;         (* how many times time.time() has been read *)
  arrays : nat         (* how many arrays numpy has built for the cache *)
}.

Definition with_cache (c : ChunkCache) (d : odict (loc * Q)) : ChunkCache :=
  {| max_size := max_size c; ttl_seconds := ttl_seconds c;
     cache := d; stats := stats c |}.

Definition with_stats (c : ChunkCache) (s : ChunkStats) : ChunkCache :=
  {| max_size := max_size c; ttl_seconds := ttl_seconds c;
     cache := cache c; stats := s |}.

Definition incr_hits (s : ChunkStats) : ChunkStats :=
  {| hits := hits s + 1; misses := misses s;
     evictions := evictions s; expirations := expirations s |}.
Definition incr_misses (s : ChunkStats) : ChunkStats :=
  {| hits := hits s; misses := misses s + 1;
     evictions := evictions s; expirations := expirations s |}.
Definition incr_evictions (s : ChunkStats) : ChunkStats :=
  {| hits := hits s; misses := misses s;
     evictions := evictions s + 1; expirations := expirations s |}.
Definition incr_expirations (s : ChunkStats) : ChunkStats :=
  {| hits := hits s; misses := misses s;
     evictions := evictions s; expirations := expirations s + 1 |}.

(** Operations on a [ChunkCache]: state passing with exceptions. *)
Definition C (A : Type) : Type := State -> outcome A * State.

Definition ret {A} (a : A) : C A := λ w, (Return a, w).
Definition raise {A} (e : exn) : C A := λ w, (Raise e, w).
Definition bind {A B} (m : C A) (f : A -> C B) : C B := λ w,
  match m w with
  | (Return a, w') => f a w'
  | (Raise e, w') => (Raise e, w')
  end.

Declare Scope chunk_scope.
Delimit Scope chunk_scope with chunk.
Notation "x ← y ; z" := (bind y (λ x, z))
  (at level 20, y at level 100, z at level 200, only parsing) : chunk_scope.
Notation "x ;; z" := (bind x (λ _, z))
  (at level 100, z at level 200, only parsing, right associativity) : chunk_scope.
Local Open Scope chunk_scope.

Definition get_self : C ChunkCache := λ w, (Return (self w), w).
Definition put_self (c : ChunkCache) : C unit :=
  λ w, (Return tt, {| self := c; ticks := ticks w; arrays := arrays w |}).
Definition modify_stats (f : ChunkStats -> ChunkStats) : C unit :=
  c ← get_self; put_self (with_stats c (f (stats c))).
Definition lift_outcome {A} (o : outcome A) : C A :=
  match o with
  | Return a => ret a
  | Raise e => raise e
  end.

(** What [get_stats] returns. *)
Record Snapshot := {
  snap_stats : ChunkStats;
  hit_rate_percent : number;
  cache_size : Z
}.

Section ChunkCacheOps.
(** The components of an embedding: numpy scalars, bit for bit (so the two
    zeros of a float type are two scalars). *)
Variable scalar : Type.
(** The bytes of [np.concatenate([xs, [k]])], the array of the components
    [xs] followed by [k] converted to the array's type, in the [n]-th array
    numpy builds.  When [k] fits none of numpy's integer types the array
    holds Python objects and its bytes are their addresses, which change
    from one array to the next: hence the [n]. *)
Variable array_bytes : nat -> list scalar -> Z -> string.
(** [hashlib.sha256(b).hexdigest()] *)
Variable sha256_hexdigest : string -> string.
(** The successive readings of [time.time()]. *)
Variable clock : nat -> Q.

Definition time_time : C Q :=
  λ w, (Return (clock (ticks w)),
        {| self := self w; ticks := S (ticks w); arrays := arrays w |}).

(** [np.concatenate([xs, [k]]).tobytes()] *)
Definition concatenate_tobytes (xs : list scalar) (k : Z) : C string :=
  λ w, (Return (array_bytes (arrays w) xs k),
        {| self := self w; ticks := ticks w; arrays := S (arrays w) |}).

Definition __init__ (max_size : Z) (ttl_seconds : option Z) : ChunkCache :=
  {| max_size := max_size;
     ttl_seconds := ttl_seconds;
     cache := [];
     stats := {| hits := 0; misses := 0; evictions := 0; expirations := 0 |} |}.

Definition _generate_embedding_hash (embedding : list scalar) (k : Z) : C string :=
  hash_input ← concatenate_tobytes (take 100 embedding) k;
  ret (sha256_hexdigest hash_input).

(** The key [_generate_embedding_hash] returns when [n] arrays were built
    before the call. *)
Definition key_at (n : nat) (embedding : list scalar) (k : Z) : string :=
  sha256_hexdigest (array_bytes n (take 100 embedding) k).

(** [self.ttl_seconds and (time.time() - timestamp) > self.ttl_seconds]:
    [None] and [0] are false, and then the clock is not read. *)
Definition ttl_elapsed (timestamp : Q) : C bool :=
  c ← get_self;
  match ttl_seconds c with
  | None => ret false
  | Some ttl =>
      if ttl =? 0 then ret false
      else now ← time_time; ret (Qgtb (now - timestamp) (inject_Z ttl))
  end.

Definition get (embedding : list scalar) (k : Z) : C (option loc) :=
  cache_key ← _generate_embedding_hash embedding k;
  c ← get_self;
  match od_get cache_key (cache c) with
  | Some (chunks, timestamp) =>
      expired ← ttl_elapsed timestamp;
      if expired then
        c ← get_self;
        put_self (with_cache c (od_del cache_key (cache c)));;
        modify_stats incr_expirations;;
        modify_stats incr_misses;;
        ret None
      else
        c ← get_self;
        d ← lift_outcome (od_move_to_end cache_key (cache c));
        put_self (with_cache c d);;
        modify_stats incr_hits;;
        ret (Some chunks)
  | None =>
      modify_stats incr_misses;;
      ret None
  end.

Definition set (embedding : list scalar) (k : Z) (chunks : loc) : C unit :=
  cache_key ← _generate_embedding_hash embedding k;
  now ← time_time;
  c ← get_self;
  put_self (with_cache c (od_setitem cache_key (chunks, now) (cache c)));;
  c ← get_self;
  d ← lift_outcome (od_move_to_end cache_key (cache c));
  put_self (with_cache c d);;
  c ← get_self;
  if len (cache c) >? max_size c then
    put_self (with_cache c (od_popitem_first (cache c)));;
    modify_stats incr_evictions
  else ret tt.

Definition get_stats : C Snapshot :=
  c ← get_self;
  let total_requests := hits (stats c) + misses (stats c) in
  hit_rate ←
    (if total_requests >? 0
     then
       ratio ← lift_outcome (int_truediv (hits (stats c)) total_requests);
       ret (Float (float_mul ratio (Finite 100)))
     else ret (Int 0));
  ret {| snap_stats := stats c;
         hit_rate_percent := py_round hit_rate 2;
         cache_size := len (cache c) |}.

End ChunkCacheOps.

End Chunk.

(** The world [w] with the cache's counters replaced by [s]. *)
Definition recount (s : Stats) (w : World) : World :=
  {| heap := heap w; self := with_stats (self w) s; ticks := ticks w |}.

(** Stand-in bytes of an array, the same in every array built: the
    components (rationals here) and [k] written out. *)
Definition plain_bytes (n : nat) (xs : list Q) (k : Z) : string :=
  (String.concat ","
     (map (λ x, (str_of_int (Qnum x) ++ "/" ++ str_of_int (Zpos (Qden x)))%string) xs)
   ++ ";" ++ str_of_int k)%string.

(** [ChunkCache(max_size, ttl_seconds)] before any clock reading. *)
Definition chunk_start (max_size : Z) (ttl_seconds : option Z) : Chunk.State :=
  {| Chunk.self := Chunk.__init__ max_size ttl_seconds;
     Chunk.ticks := 0; Chunk.arrays := 0 |}.

(** * Properties *)

(** ** OrderedDict facts *)

Section OrderedDictFacts.
Context {V : Type}.
Implicit Types (d : odict V) (k : string) (v : V).

Lemma od_get_app_None k d1 d2 :
  od_get k d1 = None → od_get k (d1 ++ d2) = od_get k d2.
Proof.
  induction d1 as [|[k' v'] d1 IH]; simpl; [done|].
  destruct (String.eqb k k'); [done | exact IH].
Qed.

Lemma od_get_app_Some k v d1 d2 :
  od_get k d1 = Some v → od_get k (d1 ++ d2) = Some v.
Proof.
  induction d1 as [|[k' v'] d1 IH]; simpl; [done|].
  destruct (String.eqb k k'); [done | exact IH].
Qed.

Lemma od_get_del_eq k d : od_get k (od_del k d) = None.
Proof.
  induction d as [|[k' v'] d IH]; simpl; [done|].
  destruct (String.eqb k k') eqn:E; simpl; [exact IH|].
  rewrite E. exact IH.
Qed.

Lemma od_get_del_ne k k' d : k ≠ k' → od_get k (od_del k' d) = od_get k d.
Proof.
  intros Hne. induction d as [|[k0 v0] d IH]; simpl; [done|].
  destruct (String.eqb k' k0) eqn:E.
  - apply String.eqb_eq in E. subst k0.
    destruct (String.eqb k k') eqn:E'; [apply String.eqb_eq in E'; done | exact IH].
  - simpl. destruct (String.eqb k k0); [done | exact IH].
Qed.

Lemma od_get_setitem_eq k v d : od_get k (od_setitem k v d) = Some v.
Proof.
  induction d as [|[k' v'] d IH]; simpl.
  - by rewrite String.eqb_refl.
  - destruct (String.eqb k k') eqn:E; simpl; rewrite E; [done | exact IH].
Qed.

Lemma od_get_tail_None k d : od_get k d = None → od_get k (tail d) = None.
Proof.
  destruct d as [|[k' v'] d]; simpl; [done|].
  destruct (String.eqb k k'); done.
Qed.

Lemma od_del_absent k d : od_get k d = None → od_del k d = d.
Proof.
  induction d as [|[k' v'] d IH]; simpl; [done|].
  destruct (String.eqb k k'); [done|]. intros H. by rewrite IH.
Qed.

Lemma od_get_Some_In k v d : od_get k d = Some v → In (k, v) d.
Proof.
  induction d as [|[k' v'] d IH]; simpl; [done|].
  destruct (String.eqb k k') eqn:E.
  - apply String.eqb_eq in E. intros [= ->]. left. by subst.
  - intros H. right. by apply IH.
Qed.

Lemma od_get_In_unique k v d :
  unique_keys d = true → In (k, v) d → od_get k d = Some v.
Proof.
  induction d as [|[k' v'] d IH]; simpl; [done|].
  destruct (od_get k' d) eqn:Hk'; [done|]. intros Hu [Hin|Hin].
  - injection Hin as -> ->. by rewrite String.eqb_refl.
  - destruct (String.eqb k k') eqn:E.
    + apply String.eqb_eq in E. subst k'. rewrite (IH Hu Hin) in Hk'. done.
    + by apply IH.
Qed.

Lemma od_move_to_end_present k v d :
  od_get k d = Some v → od_move_to_end k d = Return (od_del k d ++ [(k, v)]).
Proof. intros H. unfold od_move_to_end. by rewrite H. Qed.

Lemma unique_keys_del k d : unique_keys d = true → unique_keys (od_del k d) = true.
Proof.
  induction d as [|[k' v'] d IH]; simpl; [done|].
  destruct (od_get k' d) eqn:Hk'; [done|]. intros Hu.
  destruct (String.eqb k k') eqn:E; [by apply IH|].
  simpl. rewrite od_get_del_ne, Hk'; [by apply IH|].
  intros ->. by rewrite String.eqb_refl in E.
Qed.

Lemma unique_keys_snoc k v d :
  unique_keys d = true → od_get k d = None → unique_keys (d ++ [(k, v)]) = true.
Proof.
  induction d as [|[k' v'] d IH]; simpl; [done|].
  destruct (od_get k' d) eqn:Hk'; [done|]. intros Hu.
  destruct (String.eqb k k') eqn:E; [done|]. intros Hk.
  rewrite od_get_app_None by done. simpl.
  destruct (String.eqb k' k) eqn:E'.
  - apply String.eqb_eq in E'. subst. by rewrite String.eqb_refl in E.
  - by apply IH.
Qed.

Lemma unique_keys_tail d : unique_keys d = true → unique_keys (tail d) = true.
Proof.
  destruct d as [|[k' v'] d]; simpl; [done|]. by destruct (od_get k' d).
Qed.
End OrderedDictFacts.

(** ** binary64 rounding *)

Lemma round_half_even_near y :
  (Qabs (inject_Z (round_half_even y) - y) <= 1 # 2)%Q.
Proof.
  unfold round_half_even.
  pose proof (Qfloor_le y) as Hlo. pose proof (Qlt_floor y) as Hhi.
  rewrite inject_Z_plus in Hhi. change (inject_Z 1) with 1%Q in Hhi.
  apply Qabs_Qle_condition.
  destruct (Qcompare_spec (y - inject_Z (Qfloor y)) (1 # 2)) as [E|E|E].
  - destruct (Z.even (Qfloor y)).
    + split; lra.
    + rewrite inject_Z_plus. change (inject_Z 1) with 1%Q. split; lra.
  - split; lra.
  - rewrite inject_Z_plus. change (inject_Z 1) with 1%Q. split; lra.
Qed.

Lemma pow2_pos e : (0 < 2 ^ e)%Q.
Proof. by apply Qpower_0_lt. Qed.

Lemma Qlog2_le x : (0 < x)%Q → (2 ^ Qlog2 x <= x)%Q.
Proof.
  intros Hx. unfold Qlog2.
  set (a := Qnum x). set (b := Qden x).
  destruct (Qle_bool _ x) eqn:E; [by apply Qle_bool_iff|]. clear E.
  assert (Ha : 0 < a). { destruct x as [n d]. unfold Qlt in Hx. simpl in *. subst a. simpl. lia. }
  pose proof (Z.log2_spec a Ha) as [Hla _].
  pose proof (Z.log2_spec (Zpos b) (Pos2Z.is_pos b)) as [_ Hlb].
  pose proof (Z.log2_nonneg a) as Hna. pose proof (Z.log2_nonneg (Zpos b)) as Hnb.
  replace (Z.log2 a - Z.log2 (Z.pos b) - 1) with (Z.log2 a - Z.succ (Z.log2 (Z.pos b))) by lia.
  rewrite Qpower_minus by done.
  rewrite <- !(Zpower_Qpower 2) by lia.
  set (A := 2 ^ Z.log2 a) in *. set (B := 2 ^ Z.succ (Z.log2 (Z.pos b))) in *.
  assert (HA : 0 < A) by (apply Z.pow_pos_nonneg; lia).
  assert (HB : 0 < B) by (apply Z.pow_pos_nonneg; lia).
  assert (Hx' : x == inject_Z a / inject_Z (Zpos b)).
  { destruct x as [n d]. subst a b. simpl. by rewrite <- Qmake_Qdiv. }
  rewrite Hx'.
  apply Qle_shift_div_l. { change 0%Q with (inject_Z 0). rewrite <- Zlt_Qlt. lia. }
  unfold Qdiv. rewrite <- Qmult_assoc, (Qmult_comm (/ _)), Qmult_assoc.
  apply Qle_shift_div_r. { change 0%Q with (inject_Z 0). rewrite <- Zlt_Qlt. lia. }
  rewrite <- !inject_Z_mult. rewrite <- Zle_Qle. nia.
Qed.

Lemma ulp_pos x : (0 < ulp x)%Q.
Proof. apply pow2_pos. Qed.

Lemma ulp_le x : ¬ (x == 0)%Q → (ulp x <= Qabs x * 2 ^ (-52) + 2 ^ (-1074))%Q.
Proof.
  intros Hx0. unfold ulp. pose proof (Qabs_nonneg x) as Hnn.
  assert (Hpos : (0 < Qabs x)%Q).
  { destruct (Qlt_le_dec 0 (Qabs x)) as [?|Hle]; [done|]. exfalso. apply Hx0.
    apply Qabs_Qle_condition in Hle. lra. }
  pose proof (pow2_pos (-52)) as H52. pose proof (pow2_pos (-1074)) as H1074.
  set (a := Qabs x) in *.
  destruct (Z.max_spec (Qlog2 a) (-1022)) as [[Hlt ->]|[Hle ->]].
  - change (-1022 - 52) with (-1074).
    set (c52 := (2 ^ (-52))%Q) in *. set (c1074 := (2 ^ (-1074))%Q) in *.
    clearbody c52 c1074 a.
    assert (0 <= a * c52)%Q by (apply Qmult_le_0_compat; lra).
    set (ac := (a * c52)%Q) in *. clearbody ac. lra.
  - pose proof (Qlog2_le _ Hpos) as Hl.
    replace (Qlog2 a - 52) with (Qlog2 a + (-52)) by lia. rewrite Qpower_plus by done.
    set (c52 := (2 ^ (-52))%Q) in *. set (c1074 := (2 ^ (-1074))%Q) in *.
    set (p := (2 ^ Qlog2 a)%Q) in *.
    clearbody c52 c1074 p a.
    assert (p * c52 <= a * c52)%Q.
    { apply Qmult_le_compat_r; lra. }
    set (pc := (p * c52)%Q) in *. set (ac := (a * c52)%Q) in *. clearbody pc ac. lra.
Qed.

(** Rounding to binary64 moves a number by at most half a unit in the last
    place. *)
Lemma nearest_binary64_err x :
  (Qabs (nearest_binary64 x - x) <= Qabs x * 2 ^ (-53) + 2 ^ (-1075))%Q.
Proof.
  unfold nearest_binary64.
  pose proof (pow2_pos (-53)) as H53. pose proof (pow2_pos (-1075)) as H1075.
  pose proof (Qabs_nonneg x) as Hnn.
  destruct (Qeq_bool x 0) eqn:E.
  - apply Qeq_bool_iff in E. rewrite E. change (Qabs (0 - 0)) with 0%Q. change (Qabs 0) with 0%Q.
    set (c53 := (2 ^ (-53))%Q) in *. set (c1075 := (2 ^ (-1075))%Q) in *.
    clearbody c53 c1075. lra.
  - assert (Hx0 : ¬ (x == 0)%Q) by (intros H; apply Qeq_bool_iff in H; congruence).
    pose proof (ulp_le x Hx0) as Hule. pose proof (ulp_pos x) as Hu.
    rewrite Qred_correct.
    pose proof (round_half_even_near (x / ulp x)) as H.
    set (n := inject_Z (round_half_even (x / ulp x))) in *.
    assert (Hx : x == (x / ulp x) * ulp x) by (field; lra).
    assert (Hd : (n * ulp x - x == (n - x / ulp x) * ulp x)%Q) by (field; lra).
    rewrite Hd, Qabs_Qmult, (Qabs_pos (ulp x)) by lra.
    assert (H1 : (Qabs (n - x / ulp x) * ulp x <= (1 # 2) * ulp x)%Q).
    { apply Qmult_le_compat_r; [done | lra]. }
    assert (E52 : (2 ^ (-52) == 2 * 2 ^ (-53))%Q) by reflexivity.
    assert (E1074 : (2 ^ (-1074) == 2 * 2 ^ (-1075))%Q) by reflexivity.
    set (c53 := (2 ^ (-53))%Q) in *. set (c1075 := (2 ^ (-1075))%Q) in *.
    set (c52 := (2 ^ (-52))%Q) in *. set (c1074 := (2 ^ (-1074))%Q) in *.
    set (a := Qabs x) in *. set (u := ulp x) in *. set (d := Qabs (n - x / u)) in *.
    clearbody c53 c1075 c52 c1074 a u d. rewrite E52, E1074 in Hule. lra.
Qed.

Lemma nearest_binary64_nonneg x : (0 <= x)%Q → (0 <= nearest_binary64 x)%Q.
Proof.
  intros Hx. unfold nearest_binary64. destruct (Qeq_bool x 0); [done|].
  rewrite Qred_correct. pose proof (ulp_pos x) as Hu.
  apply Qmult_le_0_compat; [|lra].
  pose proof (round_half_even_near (x / ulp x)) as H.
  apply Qabs_Qle_condition in H.
  assert (0 <= x / ulp x)%Q by (apply Qle_shift_div_l; lra).
  change 0%Q with (inject_Z 0). rewrite <- Zle_Qle.
  assert (Hlt : (inject_Z (-1) < inject_Z (round_half_even (x / ulp x)))%Q).
  { change (inject_Z (-1)) with (-1)%Q. lra. }
  rewrite <- Zlt_Qlt in Hlt. lia.
Qed.

Lemma to_float64_small x :
  (0 <= x)%Q → (x <= 200)%Q →
  to_float64 x = Finite (nearest_binary64 x) ∧
  (0 <= nearest_binary64 x)%Q ∧
  (Qabs (nearest_binary64 x - x) <= x * 2 ^ (-53) + 2 ^ (-1075))%Q.
Proof.
  intros H0 H200. pose proof (nearest_binary64_err x) as Herr.
  pose proof (nearest_binary64_nonneg x H0) as Hnn.
  rewrite (Qabs_pos x) in Herr by done.
  split; [|by split].
  unfold to_float64. rewrite (Qabs_pos _ Hnn).
  destruct (Qle_bool _ _) eqn:E; [|done]. exfalso.
  apply Qle_bool_iff in E. apply Qabs_Qle_condition in Herr.
  assert (H53 : (2 ^ (-53) <= 1)%Q) by (vm_compute; discriminate).
  assert (H1075 : (2 ^ (-1075) <= 1)%Q) by (vm_compute; discriminate).
  assert (H1024 : (402 < 2 ^ 1024)%Q) by (vm_compute; reflexivity).
  pose proof (pow2_pos (-53)) as P53.
  set (c53 := (2 ^ (-53))%Q) in *. set (c1075 := (2 ^ (-1075))%Q) in *.
  set (big := (2 ^ 1024)%Q) in *. set (r := nearest_binary64 x) in *.
  clearbody c53 c1075 big r. nra.
Qed.

Lemma hit_rate_accuracy (hits total : Z) :
  0 < total → 0 <= hits <= total →
  ∃ q p n,
    int_truediv hits total = Return (Finite q) ∧
    float_mul (Finite q) (Finite 100) = Finite p ∧
    n = round_half_even (p * 100) ∧
    0 <= n <= 10000 ∧
    (Qabs (inject_Z n / 100 - inject_Z hits / inject_Z total * 100)
       <= (1 # 200) + 2 ^ (-44))%Q.
Proof.
  intros Htot Hhits.
  set (x := (inject_Z hits / inject_Z total)%Q).
  assert (Ht : (0 < inject_Z total)%Q) by (change 0%Q with (inject_Z 0); rewrite <- Zlt_Qlt; lia).
  assert (Hx0 : (0 <= x)%Q).
  { apply Qle_shift_div_l; [done|]. rewrite Qmult_0_l.
    change 0%Q with (inject_Z 0). rewrite <- Zle_Qle. lia. }
  assert (Hx1 : (x <= 1)%Q).
  { apply Qle_shift_div_r; [done|]. rewrite Qmult_1_l. rewrite <- Zle_Qle. lia. }
  destruct (to_float64_small x Hx0) as (Hq & Hq0 & Hqe); [lra|].
  set (q := nearest_binary64 x) in *.
  assert (H53 : (2 ^ (-53) <= 1 # 1000)%Q) by (vm_compute; discriminate).
  assert (H1075 : (2 ^ (-1075) <= 2 ^ (-53))%Q) by (vm_compute; discriminate).
  assert (H44 : (2 ^ (-44) == 512 * 2 ^ (-53))%Q) by reflexivity.
  pose proof (pow2_pos (-53)) as P53. pose proof (pow2_pos (-1075)) as P1075.
  apply Qabs_Qle_condition in Hqe.
  assert (Hq2 : (q * 100 <= 200)%Q).
  { set (c53 := (2 ^ (-53))%Q) in *. set (c1075 := (2 ^ (-1075))%Q) in *.
    clearbody c53 c1075 q x. nra. }
  destruct (to_float64_small (q * 100)) as (Hp & Hp0 & Hpe); [lra | done |].
  set (p := nearest_binary64 (q * 100)) in *.
  apply Qabs_Qle_condition in Hpe.
  pose proof (round_half_even_near (p * 100)) as Hn.
  set (n := round_half_even (p * 100)) in *.
  apply Qabs_Qle_condition in Hn.
  exists q, p, n. split.
  { unfold int_truediv. destruct (Z.eqb_spec total 0); [lia|]. fold x. by rewrite Hq. }
  split; [exact Hp|]. split; [done|].
  assert (Hpx : (- (512 * 2 ^ (-53)) <= p - x * 100 <= 512 * 2 ^ (-53))%Q).
  { set (c53 := (2 ^ (-53))%Q) in *. set (c1075 := (2 ^ (-1075))%Q) in *.
    clearbody c53 c1075 p q x n. nra. }
  split.
  - assert (Hlo : (inject_Z (-1) < inject_Z n)%Q).
    { change (inject_Z (-1)) with (-1)%Q. lra. }
    assert (Hhi : (inject_Z n < inject_Z 10001)%Q).
    { change (inject_Z 10001) with 10001%Q.
      set (c53 := (2 ^ (-53))%Q) in *. clearbody c53 p q x. lra. }
    rewrite <- Zlt_Qlt in Hlo, Hhi. lia.
  - apply Qabs_Qle_condition. rewrite H44.
    set (c53 := (2 ^ (-53))%Q) in *. set (nq := inject_Z n) in *.
    clearbody c53 p q x nq. unfold Qdiv. change (/ 100)%Q with (1 # 100)%Q. lra.
Qed.

(** The float nearest to a hundredth between 0 and 100 is within [2^-46]
    of it. *)
Lemma hundredth_to_float (n : Z) :
  0 <= n <= 10000 →
  (Qabs (nearest_binary64 (inject_Z n / 100) - inject_Z n / 100) <= 2 ^ (-46))%Q.
Proof.
  intros Hn. set (y := (inject_Z n / 100)%Q).
  assert (Hy0 : (0 <= y)%Q).
  { apply Qle_shift_div_l; [reflexivity|]. rewrite Qmult_0_l.
    change 0%Q with (inject_Z 0). rewrite <- Zle_Qle. lia. }
  assert (Hy1 : (y <= 100)%Q).
  { apply Qle_shift_div_r; [reflexivity|].
    change (100 * 100)%Q with (inject_Z 10000). rewrite <- Zle_Qle. lia. }
  destruct (to_float64_small y Hy0) as (_ & _ & He); [lra|].
  apply Qabs_Qle_condition in He. apply Qabs_Qle_condition.
  assert (H1075 : (2 ^ (-1075) <= 2 ^ (-53))%Q) by (vm_compute; discriminate).
  assert (H46 : (2 ^ (-46) == 128 * 2 ^ (-53))%Q) by reflexivity.
  pose proof (pow2_pos (-53)) as P53. rewrite H46.
  set (c53 := (2 ^ (-53))%Q) in *. set (c1075 := (2 ^ (-1075))%Q) in *.
  set (r := nearest_binary64 y) in *.
  clearbody c53 c1075 r y. nra.
Qed.

(** The rounding above gives what the Standard Library's specification of
    binary64 division and multiplication gives, here on sample counts:
    ordinary ones, a quotient in the subnormal range, a product that
    overflows and a quotient that overflows. *)
Lemma binary64_rate_agrees_with_SpecFloat :
  Forall (λ '(hits, total), binary64_rate hits total = spec_float_rate hits total)
    [(23, 160); (49, 160); (1, 3); (2, 3); (1, 8); (0, 7); (160, 160);
     (999999, 1000000); (12345678901234567890, 98765432109876543210);
     (3, 2 ^ 1074); (1, 2 ^ 1075); (2 ^ 1020, 1); (2 ^ 1024, 1)].
Proof. repeat constructor. Qed.

(** ** The operations *)

Ltac run :=
  repeat (unfold bind, ret, raise, get_self, put_self, get_heap, put_heap,
            modify_stats, lift_outcome; simpl).

Ltac run_in H :=
  repeat (unfold bind, ret, raise, get_self, put_self, get_heap, put_heap,
            modify_stats, lift_outcome in H; simpl in H).

Arguments _create_cache_response : simpl never.
Arguments get_semantic : simpl never.
Arguments int_truediv : simpl never.
Arguments float_mul : simpl never.
Arguments nearest_binary64 : simpl never.

Section QueryCacheFacts.
Variable lower : string -> string.
Variable strip : string -> string.
Variable sha256_hexdigest : string -> string.
Variable cosine : list Q -> list Q -> Q.
Variable clock : nat -> Q.

Local Abbreviation cache_key := (cache_key lower strip).
Local Abbreviation _generate_query_hash :=
  (_generate_query_hash lower strip sha256_hexdigest).
Local Abbreviation _is_expired := (_is_expired clock).
Local Abbreviation scan := (scan cosine clock).
Local Abbreviation get_semantic := (get_semantic cosine clock).
Local Abbreviation get := (get lower strip sha256_hexdigest cosine clock).
Local Abbreviation set_store := (set_store lower strip sha256_hexdigest clock).
Local Abbreviation set := (set lower strip sha256_hexdigest clock).
Local Abbreviation expired_at := (expired_at clock).
Local Abbreviation live := (live clock).
Local Abbreviation pick := (pick cosine).
Local Abbreviation cosine_similarity := (cosine_similarity cosine).
Local Abbreviation exact_falls_through :=
  (exact_falls_through lower strip sha256_hexdigest clock).
Local Abbreviation at_semantic_stage := (at_semantic_stage lower strip sha256_hexdigest).

(** *** Eviction *)

Lemma len_nonneg {V} (d : odict V) : 0 <= len d.
Proof. unfold len. lia. Qed.

Lemma len_cons {V} (x : string * V) (d : odict V) : len (x :: d) = len d + 1.
Proof. unfold len. simpl. lia. Qed.

Lemma ensure_loop_spec rounds : ∀ total_entries w,
  0 <= max_size (self w) →
  total_entries = len (exact_cache (self w)) + len (semantic_cache (self w)) →
  rounds = Z.to_nat (total_entries - max_size (self w)) →
  ∃ c' left,
    ensure_loop rounds total_entries w
      = (Return left, {| heap := heap w; self := c'; ticks := ticks w |}) ∧
    left <= max_size (self w) ∧
    rtc spec_evict_step (self w) c' ∧
    max_size c' = max_size (self w) ∧
    len (exact_cache c') + len (semantic_cache c') <= max_size c'.
Proof.
  induction rounds as [|rounds IH]; intros total_entries [h c t] Hmax Htot Hr;
    simpl in *.
  - exists c, total_entries. run.
    destruct (Z.gtb_spec total_entries (max_size c)) as [E|E]; [lia|].
    repeat split; [lia | apply rtc_refl | lia].
  - run. destruct (Z.gtb_spec total_entries (max_size c)) as [E|E]; [|lia].
    destruct (Z.geb_spec (len (exact_cache c)) (len (semantic_cache c))) as [Ecmp|Ecmp].
    + destruct (exact_cache c) as [|oldest rest] eqn:Hex.
      { pose proof (len_nonneg (semantic_cache c)). unfold len in *. simpl in *. lia. }
      unfold _evict_oldest. run. rewrite Hex. run.
      set (c1 := with_stats (with_exact c rest) (incr_evictions (stats c))).
      destruct (IH (total_entries - 1)
                  {| heap := h; self := c1; ticks := t |}) as (c' & left & Hrun & Hl & Hrtc & Hm & Hle).
      * done.
      * simpl. rewrite len_cons in Htot. lia.
      * simpl. lia.
      * exists c', left. simpl in *. rewrite Hrun. repeat split; try done.
        eapply rtc_l; [|exact Hrtc].
        apply (spec_evict_exact c oldest rest); [rewrite Hex; lia | rewrite Hex; lia | done].
    + destruct (semantic_cache c) as [|oldest rest] eqn:Hsem.
      { pose proof (len_nonneg (exact_cache c)). unfold len in *. simpl in *. lia. }
      unfold _evict_oldest. run. rewrite Hsem. run.
      set (c1 := with_stats (with_semantic c rest) (incr_evictions (stats c))).
      destruct (IH (total_entries - 1)
                  {| heap := h; self := c1; ticks := t |}) as (c' & left & Hrun & Hl & Hrtc & Hm & Hle).
      * done.
      * simpl. rewrite len_cons in Htot. lia.
      * simpl. lia.
      * exists c', left. simpl in *. rewrite Hrun. repeat split; try done.
        eapply rtc_l; [|exact Hrtc].
        apply (spec_evict_semantic c oldest rest); [rewrite Hsem; lia | rewrite Hsem; lia | done].
Qed.

(** What [set] has written when it reaches the eviction pass. *)
Lemma set_store_spec query response_data k query_embedding w :
  let h := _generate_query_hash query k in
  let entry := {| data := response_data; timestamp := clock (ticks w); query := query |} in
  let exact' := od_del h (od_setitem h entry (exact_cache (self w))) ++ [(h, entry)] in
  let semantic' :=
    match enable_semantic_cache (self w), query_embedding with
    | true, Some qe =>
        let se := {| cached_embedding := qe; cached_data := response_data;
                     cached_timestamp := clock (ticks w); original_query := query |} in
        od_del h (od_setitem h se (semantic_cache (self w))) ++ [(h, se)]
    | _, _ => semantic_cache (self w)
    end in
  set_store query response_data k query_embedding w
    = (Return tt,
       {| heap := heap w;
          self := with_semantic (with_exact (self w) exact') semantic';
          ticks := S (ticks w) |}).
Proof.
  destruct w as [hp c t]. unfold set_store, time_time, exact_move_to_end. run.
  unfold od_move_to_end. rewrite od_get_setitem_eq. run.
  destruct (enable_semantic_cache c), query_embedding as [qe|]; run;
    try (destruct c; reflexivity).
  unfold semantic_move_to_end, od_move_to_end. run.
  rewrite od_get_setitem_eq. run. destruct c; reflexivity.
Qed.

(** [set] on a cache whose budget is not negative. *)
Lemma set_runs query response_data k query_embedding w :
  0 <= max_size (self w) →
  ∃ w1 w2,
    set_store query response_data k query_embedding w = (Return tt, w1) ∧
    set query response_data k query_embedding w = (Return tt, w2) ∧
    rtc spec_evict_step (self w1) (self w2) ∧
    heap w2 = heap w ∧
    max_size (self w2) = max_size (self w) ∧
    len (exact_cache (self w2)) + len (semantic_cache (self w2))
      <= max_size (self w2).
Proof.
  intros Hmax. pose proof (set_store_spec query response_data k query_embedding w) as Hs.
  simpl in Hs. match type of Hs with _ = (_, ?x) => remember x as w1 eqn:Hw1 end.
  assert (Hmx : max_size (self w1) = max_size (self w)) by (subst w1; reflexivity).
  assert (Hhp : heap w1 = heap w) by (subst w1; reflexivity).
  clear Hw1.
  destruct (ensure_loop_spec
              (Z.to_nat (len (exact_cache (self w1)) + len (semantic_cache (self w1))
                         - max_size (self w1)))
              (len (exact_cache (self w1)) + len (semantic_cache (self w1))) w1)
    as (c' & left & Hrun & Hl & Hrtc & Hm & Hle); [lia | done | done |].
  exists w1, {| heap := heap w1; self := c'; ticks := ticks w1 |}.
  split; [exact Hs|]. split.
  - unfold set. unfold bind at 1. rewrite Hs. unfold _ensure_cache_size. run.
    rewrite Hrun. done.
  - simpl. repeat split; try done. lia.
Qed.

(** *** Steps of [get] *)

Lemma heap_snoc_lookup (h : Heap) o : (h ++ [o]) !! length h = Some o.
Proof. by apply list_lookup_middle. Qed.

Lemma heap_snoc_insert (h : Heap) o o' : <[length h := o']> (h ++ [o]) = h ++ [o'].
Proof. rewrite insert_app_r_alt by lia. by rewrite Nat.sub_diag. Qed.

Lemma _is_expired_spec timestamp w :
  _is_expired timestamp w
    = (Return (expired_at (self w) (ticks w) timestamp),
       {| heap := heap w; self := self w;
          ticks := tick_after (self w) (ticks w) |}).
Proof.
  destruct w as [h c t]. unfold _is_expired, expired_at, tick_after, time_time.
  run. destruct (ttl_seconds c); reflexivity.
Qed.

Lemma _create_cache_response_spec d m cache_type similarity w :
  heap w !! d = Some (ODict m) →
  _create_cache_response (Some d) cache_type similarity w
    = (Return (length (heap w)),
       {| heap := heap w ++ [ODict (annotated m cache_type similarity)];
          self := self w; ticks := ticks w |}).
Proof.
  destruct w as [h c t]. simpl. intros Hd.
  unfold _create_cache_response, obj_copy, dict_setitem. run. rewrite Hd. run.
  rewrite heap_snoc_lookup, heap_snoc_insert. run.
  rewrite heap_snoc_lookup, heap_snoc_insert. run.
  unfold annotated. destruct similarity as [s|]; run; [|done].
  by rewrite heap_snoc_lookup, heap_snoc_insert.
Qed.

(** The exact stage returns a hit. *)
Lemma get_exact_hit query k query_embedding w entry m :
  let h := _generate_query_hash query k in
  od_get h (exact_cache (self w)) = Some entry →
  expired_at (self w) (ticks w) (timestamp entry) = false →
  heap w !! data entry = Some (ODict m) →
  get query k query_embedding w
    = (Return (Some (length (heap w))),
       {| heap := heap w ++ [ODict (annotated m "exact" None)];
          self := with_stats
                    (with_exact (self w)
                       (od_del h (exact_cache (self w)) ++ [(h, entry)]))
                    (incr_exact_hits (incr_total_queries (stats (self w))));
          ticks := tick_after (self w) (ticks w) |}).
Proof.
  destruct w as [hp c t]. simpl. intros Hget Hexp Hd.
  unfold get. run. rewrite Hget.
  rewrite _is_expired_spec. simpl.
  unfold expired_at in *. simpl. rewrite Hexp.
  unfold exact_move_to_end, od_move_to_end. run. rewrite Hget. run.
  rewrite (_create_cache_response_spec _ m) by done.
  simpl. unfold tick_after. simpl. done.
Qed.

(** When the exact stage falls through, [get] is its semantic stage. *)
Lemma get_falls_through query k query_embedding w :
  exact_falls_through query k w = true →
  get query k query_embedding w
    = get_semantic query_embedding (at_semantic_stage query k w).
Proof.
  destruct w as [hp c t]. unfold exact_falls_through, get,
    at_semantic_stage. simpl. run.
  destruct (od_get _ (exact_cache c)) as [entry|]; [|done].
  intros Hexp. rewrite _is_expired_spec. simpl.
  unfold expired_at in *. simpl. rewrite Hexp. run. done.
Qed.

(** *** What eviction leaves in place *)

Lemma evict_steps_config c c' :
  rtc spec_evict_step c c' →
  max_size c' = max_size c ∧ ttl_seconds c' = ttl_seconds c ∧
  similarity_threshold c' = similarity_threshold c ∧
  enable_semantic_cache c' = enable_semantic_cache c.
Proof.
  induction 1 as [|c c1 c' Hstep _ IH]; [done|].
  destruct IH as (-> & -> & -> & ->). by destruct Hstep.
Qed.

(** The entry written last to the exact store survives the eviction pass
    when the budget is at least 2, or at least 1 with an empty semantic
    store. *)
Lemma evict_steps_keep_newest c c' h (e : ExactEntry) :
  rtc spec_evict_step c c' →
  ∀ pre,
    exact_cache c = pre ++ [(h, e)] →
    od_get h pre = None →
    2 <= max_size c ∨ (1 <= max_size c ∧ semantic_cache c = []) →
    ∃ pre', exact_cache c' = pre' ++ [(h, e)] ∧ od_get h pre' = None.
Proof.
  induction 1 as [c|c c1 c' Hstep _ IH]; intros pre Hex Hpre Hmax; [by exists pre|].
  destruct Hstep as [c oldest rest Hover Hge Hc|c oldest rest Hover Hlt Hc].
  - rewrite Hex in Hc. destruct pre as [|p pre0]; simpl in Hc.
    + injection Hc as <- <-. rewrite Hex in Hover, Hge. exfalso.
      pose proof (len_nonneg (semantic_cache c)).
      destruct Hmax as [Hmax|[Hmax Hs]].
      * unfold len in *. simpl in *. lia.
      * rewrite Hs in *. unfold len in *. simpl in *. lia.
    + injection Hc as <- <-. apply (IH pre0); simpl.
      * done.
      * destruct p as [k0 v0]. simpl in Hpre. by destruct (String.eqb h k0).
      * done.
  - apply (IH pre); simpl; [done | done |].
    destruct Hmax as [Hmax|[Hmax Hs]]; [by left|]. by rewrite Hs in Hc.
Qed.

(** C2 (as amended): on a cache whose [max_size] is at least 2, or at
    least 1 with an empty semantic store, [set(q, payload, k)] followed at
    once by [get(q, k)] -- the entry not being older than the TTL at the
    lookup's clock reading -- returns a new dict whose items are those of
    the payload plus [_cache_hit = True] and [_cache_type = 'exact']. *)
Theorem set_then_get_roundtrip query payload k query_embedding w m :
  2 <= max_size (self w) ∨ (1 <= max_size (self w) ∧ semantic_cache (self w) = []) →
  heap w !! payload = Some (ODict m) →
  (∀ ttl, ttl_seconds (self w) = Some ttl →
          (clock (S (ticks w)) - clock (ticks w) <= inject_Z ttl)%Q) →
  ∃ w',
    (set query payload k None;; get query k query_embedding) w
      = (Return (Some (length (heap w))), w') ∧
    heap w'
      = heap w ++ [ODict (<["_cache_type" := PStr "exact"]>
                            (<["_cache_hit" := PBool true]> m))].
Proof.
  intros Hmax Hpayload Hfresh.
  destruct (set_runs query payload k None w) as (w1 & w2 & Hs & Hset & Hrtc & Hhp & Hmx & _).
  { lia. }
  rewrite set_store_spec in Hs. injection Hs as <-.
  set (h := _generate_query_hash query k) in *.
  set (e := {| data := payload; timestamp := clock (ticks w); query := query |}) in *.
  destruct (evict_steps_keep_newest _ _ h e Hrtc
              (od_del h (od_setitem h e (exact_cache (self w)))))
    as (pre' & Hex' & Hpre').
  { simpl. by destruct (enable_semantic_cache (self w)). }
  { apply od_get_del_eq. }
  { simpl. by destruct (enable_semantic_cache (self w)). }
  destruct (evict_steps_config _ _ Hrtc) as (_ & Httl & _ & _). simpl in Httl.
  assert (Hticks : ticks w2 = S (ticks w)).
  { unfold set in Hset. unfold bind at 1 in Hset. rewrite set_store_spec in Hset.
    unfold _ensure_cache_size in Hset. run_in Hset.
    match type of Hset with
    | context [ensure_loop ?r ?t ?w0] =>
        destruct (ensure_loop_spec r t w0) as (c' & left & Hrun & _); [simpl; lia | done | done |]
    end.
    rewrite Hrun in Hset. by injection Hset as <-. }
  unfold bind at 1. rewrite Hset.
  erewrite (get_exact_hit query k query_embedding w2 e m).
  - rewrite Hhp. eexists. split; [reflexivity|]. done.
  - fold h. rewrite Hex'. rewrite od_get_app_None by done. simpl.
    by rewrite String.eqb_refl.
  - unfold expired_at. rewrite Httl, Hticks. simpl.
    destruct (ttl_seconds (self w)) as [ttl|] eqn:E; [|done].
    unfold Qgtb. apply negb_false_iff, Qle_bool_iff. by apply Hfresh.
  - simpl. by rewrite Hhp.
Qed.

(** *** The scan *)

Lemma scan_world qe items : ∀ best w,
  ∃ t', (scan qe items best w).2
        = {| heap := heap w; self := self w; ticks := t' |}.
Proof.
  induction items as [|[h e] items IH]; intros best w.
  - exists (ticks w). by destruct w.
  - simpl. run. rewrite _is_expired_spec. simpl.
    destruct (expired_at _ _ _).
    + destruct (IH best {| heap := heap w; self := self w;
                            ticks := tick_after (self w) (ticks w) |}) as [t' Ht'].
      exists t'. exact Ht'.
    + unfold cosine_similarity. destruct (length qe =? length (cached_embedding e))%nat; run.
      * destruct (Qgtb _ _);
          match goal with
          | |- context [scan qe items ?b ?w0] =>
              destruct (IH b w0) as [t' Ht']; exists t'; exact Ht'
          end.
      * by eexists.
Qed.

Lemma scan_compatible qe items : ∀ best w,
  Forall (same_length qe) (live (self w) (ticks w) items) →
  (scan qe items best w).1
    = Return (fold_left (pick qe) (live (self w) (ticks w) items) best).
Proof.
  induction items as [|[h e] items IH]; intros best w Hall; [done|].
  simpl in *. run. rewrite _is_expired_spec. simpl.
  destruct (expired_at _ _ _).
  - by rewrite IH.
  - apply Forall_cons in Hall as [Hlen Hall]. unfold same_length in Hlen. simpl in Hlen.
    unfold cosine_similarity. rewrite Hlen, Nat.eqb_refl. run.
    unfold pick at 2. simpl. destruct (Qgtb _ _); by rewrite IH.
Qed.

Lemma scan_mismatch qe items : ∀ best w,
  Exists (λ item, ¬ same_length qe item) (live (self w) (ticks w) items) →
  (scan qe items best w).1 = Raise ValueError.
Proof.
  induction items as [|[h e] items IH]; intros best w Hex; simpl in *.
  - by apply Exists_nil in Hex.
  - run. rewrite _is_expired_spec. simpl.
    destruct (expired_at _ _ _); [by rewrite IH|].
    unfold cosine_similarity.
    destruct (Nat.eqb_spec (length qe) (length (cached_embedding e))) as [Hlen|Hlen]; run.
    + apply Exists_cons in Hex as [Hbad|Hex]; [by destruct Hbad|].
      destruct (Qgtb _ _); by rewrite IH.
    + done.
Qed.

Lemma live_sublist c items : ∀ t item, In item (live c t items) → In item items.
Proof.
  induction items as [|[h e] items IH]; intros t item; simpl; [done|].
  destruct (expired_at _ _ _); [right; eauto|].
  intros [<-|Hin]; [by left | right; eauto].
Qed.

(** *** Folding [pick] *)

Lemma Qgtb_true x y : Qgtb x y = true ↔ (y < x)%Q.
Proof.
  unfold Qgtb. rewrite negb_true_iff. split.
  - intros H. apply Qnot_le_lt. intros Hle. apply Qle_bool_iff in Hle. congruence.
  - intros H. destruct (Qle_bool x y) eqn:E; [|done].
    apply Qle_bool_iff in E. exfalso. by apply (Qlt_not_le y x).
Qed.

Lemma Qgtb_false x y : Qgtb x y = false ↔ (x <= y)%Q.
Proof. unfold Qgtb. rewrite negb_false_iff. apply Qle_bool_iff. Qed.

Lemma Qgeb_true x y : Qgeb x y = true ↔ (y <= x)%Q.
Proof. apply Qle_bool_iff. Qed.

(** Items that do not beat the current best leave it in place. *)
Lemma fold_pick_unbeaten qe l : ∀ best,
  Forall (λ item, (cosine qe (cached_embedding item.2) <= best_similarity best)%Q) l →
  fold_left (pick qe) l best = best.
Proof.
  induction l as [|item l IH]; intros best Hall; [done|].
  apply Forall_cons in Hall as [Hle Hall]. simpl.
  unfold pick at 2. apply Qgtb_false in Hle. rewrite Hle. by apply IH.
Qed.

(** Items below [s] keep the best similarity below [s]. *)
Lemma fold_pick_below qe s l : ∀ best,
  (best_similarity best < s)%Q →
  Forall (λ item, (cosine qe (cached_embedding item.2) < s)%Q) l →
  (best_similarity (fold_left (pick qe) l best) < s)%Q.
Proof.
  induction l as [|item l IH]; intros best Hb Hall; [done|].
  apply Forall_cons in Hall as [Hlt Hall]. simpl. apply IH; [|done].
  unfold pick. by destruct (Qgtb _ _).
Qed.

Lemma pick_cases qe best item :
  (pick qe best item = best ∧
   (cosine qe (cached_embedding item.2) <= best_similarity best)%Q) ∨
  ((best_similarity best < cosine qe (cached_embedding item.2))%Q ∧
   pick qe best item
     = {| best_match := Some (cached_data item.2);
          best_similarity := cosine qe (cached_embedding item.2);
          best_hash := Some item.1 |}).
Proof.
  unfold pick. destruct (Qgtb _ _) eqn:E.
  - right. by apply Qgtb_true in E.
  - left. by apply Qgtb_false in E.
Qed.

(** The best after a scan is the initial one or comes from a scanned item
    that beat the initial one, and no scanned item beats it. *)
Lemma fold_pick_max qe l : ∀ best,
  let b := fold_left (pick qe) l best in
  (b = best ∨
   ∃ item, In item l ∧
     (best_similarity best < cosine qe (cached_embedding item.2))%Q ∧
     b = {| best_match := Some (cached_data item.2);
            best_similarity := cosine qe (cached_embedding item.2);
            best_hash := Some item.1 |}) ∧
  (best_similarity best <= best_similarity b)%Q ∧
  Forall (λ item, (cosine qe (cached_embedding item.2) <= best_similarity b)%Q) l.
Proof.
  induction l as [|item l IH]; intros best; simpl.
  - split; [by left|]. split; [apply Qle_refl | constructor].
  - destruct (IH (pick qe best item)) as (Hb & Hle & Hall).
    destruct (pick_cases qe best item) as [[Hp Hs]|[Hs Hp]]; rewrite Hp in *.
    + split; [|split].
      * destruct Hb as [Hb|(item' & Hin & Hlt & Hb)]; [by left|].
        right. exists item'. by repeat split; [right|..].
      * done.
      * constructor; [eapply Qle_trans; eauto | exact Hall].
    + simpl in *. split; [|split].
      * right. destruct Hb as [Hb|(item' & Hin & Hlt & Hb)].
        -- exists item. by repeat split; [left|..].
        -- exists item'. repeat split; [by right| |done].
           eapply Qlt_trans; eauto.
      * eapply Qle_trans; [apply Qlt_le_weak; exact Hs | exact Hle].
      * constructor; [exact Hle | exact Hall].
Qed.

(** *** The semantic stage *)

Lemma live_ttl c c' items : ∀ t,
  ttl_seconds c' = ttl_seconds c → live c' t items = live c t items.
Proof.
  induction items as [|[h e] items IH]; intros t Httl; simpl; [done|].
  unfold expired_at, tick_after. rewrite Httl.
  destruct (ttl_seconds c); by rewrite IH.
Qed.

Lemma at_semantic_stage_config query k w :
  let w1 := at_semantic_stage query k w in
  heap w1 = heap w ∧
  semantic_cache (self w1) = semantic_cache (self w) ∧
  ttl_seconds (self w1) = ttl_seconds (self w) ∧
  enable_semantic_cache (self w1) = enable_semantic_cache (self w) ∧
  similarity_threshold (self w1) = similarity_threshold (self w) ∧
  total_queries (stats (self w1)) = total_queries (stats (self w)) + 1.
Proof.
  unfold at_semantic_stage. simpl.
  by destruct (od_get _ (exact_cache (self w))).
Qed.

Lemma get_semantic_raise qe w e :
  enable_semantic_cache (self w) = true →
  (scan qe (semantic_cache (self w)) no_best w).1 = Raise e →
  (get_semantic (Some qe) w).1 = Raise e.
Proof.
  intros Hen Hscan. unfold get_semantic. run. rewrite Hen.
  fold no_best. destruct (scan _ _ _ _) as [o w']. simpl in Hscan. by subst o.
Qed.

Lemma get_semantic_crash qe w best :
  enable_semantic_cache (self w) = true →
  (scan qe (semantic_cache (self w)) no_best w).1 = Return best →
  (similarity_threshold (self w) <= best_similarity best)%Q →
  best_hash best = None →
  (get_semantic (Some qe) w).1 = Raise KeyError.
Proof.
  intros Hen Hscan Hthr Hhash. unfold get_semantic. run. rewrite Hen.
  fold no_best. destruct (scan_world qe (semantic_cache (self w)) no_best w) as [t' Hw'].
  destruct (scan _ _ _ _) as [o w']. simpl in *. subst o w'. simpl.
  apply Qgeb_true in Hthr. rewrite Hthr.
  unfold semantic_move_to_end. run. by rewrite Hhash.
Qed.

Lemma get_semantic_miss qe w best :
  enable_semantic_cache (self w) = true →
  (scan qe (semantic_cache (self w)) no_best w).1 = Return best →
  (best_similarity best < similarity_threshold (self w))%Q →
  ∃ t', get_semantic (Some qe) w
        = (Return None,
           {| heap := heap w;
              self := with_stats (self w) (incr_misses (stats (self w)));
              ticks := t' |}).
Proof.
  intros Hen Hscan Hthr. unfold get_semantic. run. rewrite Hen.
  fold no_best. destruct (scan_world qe (semantic_cache (self w)) no_best w) as [t' Hw'].
  destruct (scan _ _ _ _) as [o w']. simpl in *. subst o w'. simpl.
  assert (Qgeb (best_similarity best) (similarity_threshold (self w)) = false) as ->.
  { destruct (Qgeb _ _) eqn:E; [|done]. apply Qgeb_true in E.
    exfalso. by apply (Qlt_not_le _ _ Hthr). }
  by exists t'.
Qed.

Lemma get_semantic_hit qe w h (e : SemanticEntry) :
  enable_semantic_cache (self w) = true →
  (scan qe (semantic_cache (self w)) no_best w).1
    = Return {| best_match := Some (cached_data e);
                best_similarity := cosine qe (cached_embedding e);
                best_hash := Some h |} →
  (similarity_threshold (self w) <= cosine qe (cached_embedding e))%Q →
  od_get h (semantic_cache (self w)) = Some e →
  ∃ t', get_semantic (Some qe) w
        = (response ← _create_cache_response (Some (cached_data e)) "semantic"
                        (Some (cosine qe (cached_embedding e)));
           ret (Some response))
            {| heap := heap w;
               self := with_stats
                         (with_semantic (self w)
                            (od_del h (semantic_cache (self w)) ++ [(h, e)]))
                         (incr_semantic_hits (stats (self w)));
               ticks := t' |}.
Proof.
  intros Hen Hscan Hthr Hget. unfold get_semantic. run. rewrite Hen.
  fold no_best. destruct (scan_world qe (semantic_cache (self w)) no_best w) as [t' Hw'].
  destruct (scan _ _ _ _) as [o w']. simpl in *. subst o w'. simpl.
  apply Qgeb_true in Hthr. rewrite Hthr.
  unfold semantic_move_to_end, od_move_to_end. run. rewrite Hget. run.
  by exists t'.
Qed.

(** The items the scan of [get] does not skip, once the exact stage has
    fallen through. *)
Lemma live_at_semantic_stage query k w :
  let w1 := at_semantic_stage query k w in
  live (self w1) (ticks w1) (semantic_cache (self w1))
    = live (self w) (ticks w1) (semantic_cache (self w)).
Proof.
  destruct (at_semantic_stage_config query k w) as (_ & Hsem & Httl & _).
  simpl. rewrite Hsem. by apply live_ttl.
Qed.

(** X19: in the scan, an item replaces the current best only with a
    strictly greater similarity.  So when the greatest similarity is above 0 and
    reaches the threshold, the lookup returns and promotes the first, in
    iteration order, of the items not skipped that reach it: every earlier
    item is strictly below it and no later item is above it.  What is
    returned is a new dict with the items of that entry's payload and the
    three provenance items. *)
Theorem semantic_tie_goes_to_first query k qe w l1 h e l2 m :
  let w1 := at_semantic_stage query k w in
  let s := cosine qe (cached_embedding e) in
  enable_semantic_cache (self w) = true →
  exact_falls_through query k w = true →
  unique_keys (semantic_cache (self w)) = true →
  live (self w) (ticks w1) (semantic_cache (self w)) = l1 ++ (h, e) :: l2 →
  Forall (same_length qe) (l1 ++ (h, e) :: l2) →
  Forall (λ item, (cosine qe (cached_embedding item.2) < s)%Q) l1 →
  Forall (λ item, (cosine qe (cached_embedding item.2) <= s)%Q) l2 →
  (0 < s)%Q →
  (similarity_threshold (self w) <= s)%Q →
  heap w !! cached_data e = Some (ODict m) →
  ∃ t',
    get query k (Some qe) w
      = (Return (Some (length (heap w))),
         {| heap := heap w ++ [ODict (annotated m "semantic" (Some s))];
            self := with_stats
                      (with_semantic (self w1)
                         (od_del h (semantic_cache (self w)) ++ [(h, e)]))
                      (incr_semantic_hits (stats (self w1)));
            ticks := t' |}).
Proof.
  intros w1 s Hen Hfall Huniq Hlive Hlen Hl1 Hl2 Hpos Hthr Hm. subst w1.
  rewrite get_falls_through by done.
  destruct (at_semantic_stage_config query k w) as (Hhp & Hsem & Httl & Hen1 & Hthr1 & _).
  pose proof (live_at_semantic_stage query k w) as Hlive1. simpl in Hlive1.
  rewrite Hlive in Hlive1.
  destruct (get_semantic_hit qe (at_semantic_stage query k w) h e) as [t' Ht'].
  - by rewrite Hen1.
  - rewrite scan_compatible by (by rewrite Hlive1).
    rewrite Hlive1. f_equal. rewrite fold_left_app. simpl.
    destruct (pick_cases qe (fold_left (pick qe) l1 no_best) (h, e)) as [[_ Hle]|[_ ->]].
    + exfalso. simpl in Hle. apply (Qlt_not_le _ _ (fold_pick_below qe s l1 no_best Hpos Hl1)).
      exact Hle.
    + by apply fold_pick_unbeaten.
  - by rewrite Hthr1.
  - rewrite Hsem. apply od_get_In_unique; [done|].
    apply (live_sublist (self w) _ (ticks (at_semantic_stage query k w))). rewrite Hlive.
    apply in_or_app. right. by left.
  - exists t'. rewrite Ht'. unfold bind.
    rewrite (_create_cache_response_spec _ m) by (simpl; by rewrite Hhp).
    simpl. by rewrite Hhp, Hsem.
Qed.

(** C6: when the semantic lookup compares the query embedding with a
    stored embedding of another length, [get] fails with the
    dimension-mismatch error, which reaches the caller. *)
Theorem dimension_mismatch_raises query k qe w item :
  let w1 := at_semantic_stage query k w in
  enable_semantic_cache (self w) = true →
  exact_falls_through query k w = true →
  In item (live (self w) (ticks w1) (semantic_cache (self w))) →
  length (cached_embedding item.2) ≠ length qe →
  (get query k (Some qe) w).1 = Raise ValueError.
Proof.
  intros w1 Hen Hfall Hin Hlen. subst w1.
  rewrite get_falls_through by done.
  destruct (at_semantic_stage_config query k w) as (_ & _ & _ & Hen1 & _).
  apply get_semantic_raise; [by rewrite Hen1|].
  apply scan_mismatch. rewrite live_at_semantic_stage.
  apply Exists_exists. exists item. split; [by apply list_elem_of_In | done].
Qed.

(** C10 (as amended): with the semantic cache enabled, an embedding
    supplied and a threshold of 0 or less, a [get] whose exact stage does
    not return a hit and in which no item the scan compares has a
    similarity above 0 raises an exception instead of returning a miss:
    [KeyError] from promoting the key [None] when every comparison
    succeeds. *)
Theorem nonpositive_threshold_raises query k qe w :
  let w1 := at_semantic_stage query k w in
  enable_semantic_cache (self w) = true →
  (similarity_threshold (self w) <= 0)%Q →
  exact_falls_through query k w = true →
  Forall (λ item, same_length qe item →
                  (cosine qe (cached_embedding item.2) <= 0)%Q)
         (live (self w) (ticks w1) (semantic_cache (self w))) →
  ∃ e, (get query k (Some qe) w).1 = Raise e ∧
       (Forall (same_length qe)
               (live (self w) (ticks w1) (semantic_cache (self w))) →
        e = KeyError).
Proof.
  intros w1 Hen Hthr Hfall Hall. subst w1.
  rewrite get_falls_through by done.
  destruct (at_semantic_stage_config query k w) as (_ & _ & _ & Hen1 & Hthr1 & _).
  pose proof (live_at_semantic_stage query k w) as Hlive1. simpl in Hlive1.
  set (L := live (self w) _ (semantic_cache (self w))) in *.
  destruct (Forall_Exists_dec (same_length qe) (λ item, ¬ same_length qe item)
              (λ item, Nat.eq_dec (length (cached_embedding item.2)) (length qe)) L)
    as [Hsame|Hbad].
  - exists KeyError. split; [|done].
    apply (get_semantic_crash qe _ no_best); [by rewrite Hen1 | | by rewrite Hthr1 | done].
    rewrite scan_compatible by (by rewrite Hlive1). rewrite Hlive1. f_equal.
    apply fold_pick_unbeaten. simpl.
    rewrite Forall_forall in Hall, Hsame |- *. intros item Hin. by apply Hall; [|apply Hsame].
  - exists ValueError. split.
    + apply get_semantic_raise; [by rewrite Hen1|].
      apply scan_mismatch. by rewrite Hlive1.
    + intros Hsame. exfalso. apply Exists_exists in Hbad as (item & Hin & Hbad).
      rewrite Forall_forall in Hsame. by apply Hbad, Hsame.
Qed.

(** With a threshold above 0 the lookup is a hit as soon as some compared
    item reaches the threshold ... *)
Lemma semantic_hit_at_threshold query k qe w :
  let w1 := at_semantic_stage query k w in
  let L := live (self w) (ticks w1) (semantic_cache (self w)) in
  enable_semantic_cache (self w) = true →
  exact_falls_through query k w = true →
  unique_keys (semantic_cache (self w)) = true →
  Forall (same_length qe) L →
  (0 < similarity_threshold (self w))%Q →
  Exists (λ item, (similarity_threshold (self w)
                     <= cosine qe (cached_embedding item.2))%Q) L →
  ∃ h e t',
    In (h, e) L ∧
    (similarity_threshold (self w) <= cosine qe (cached_embedding e))%Q ∧
    Forall (λ item, (cosine qe (cached_embedding item.2)
                       <= cosine qe (cached_embedding e))%Q) L ∧
    get query k (Some qe) w
      = (response ← _create_cache_response (Some (cached_data e)) "semantic"
                      (Some (cosine qe (cached_embedding e)));
         ret (Some response))
          {| heap := heap w;
             self := with_stats
                       (with_semantic (self w1)
                          (od_del h (semantic_cache (self w)) ++ [(h, e)]))
                       (incr_semantic_hits (stats (self w1)));
             ticks := t' |}.
Proof.
  intros w1 L Hen Hfall Huniq Hlen Hpos Hex. subst w1.
  rewrite get_falls_through by done.
  destruct (at_semantic_stage_config query k w) as (Hhp & Hsem & Httl & Hen1 & Hthr1 & _).
  pose proof (live_at_semantic_stage query k w) as Hlive1. simpl in Hlive1.
  fold L in Hlive1.
  destruct (fold_pick_max qe L no_best) as (Hb & Hle & Hmax). simpl in Hb, Hle, Hmax.
  apply Exists_exists in Hex as (item0 & Hin0 & Hthr0).
  assert (Hbthr : (similarity_threshold (self w)
                     <= best_similarity (fold_left (pick qe) L no_best))%Q).
  { eapply Qle_trans; [exact Hthr0|]. rewrite Forall_forall in Hmax. by apply Hmax. }
  destruct Hb as [Hb|([h e] & Hin & Hlt & Hb)].
  { exfalso. rewrite Hb in Hbthr. simpl in Hbthr.
    apply (Qlt_not_le _ _ Hpos). exact Hbthr. }
  simpl in Hb, Hlt. rewrite Hb in Hbthr, Hmax. simpl in Hbthr, Hmax.
  destruct (get_semantic_hit qe (at_semantic_stage query k w) h e) as [t' Ht'].
  - by rewrite Hen1.
  - rewrite scan_compatible by (by rewrite Hlive1). rewrite Hlive1. by f_equal.
  - by rewrite Hthr1.
  - rewrite Hsem. apply od_get_In_unique; [done|].
    by apply (live_sublist (self w) _ (ticks (at_semantic_stage query k w))).
  - exists h, e, t'. repeat split; [done..|].
    rewrite Ht'. by rewrite Hhp, Hsem.
Qed.

(** ... and a miss when every compared item is below it. *)
Lemma semantic_miss_below_threshold query k qe w :
  let w1 := at_semantic_stage query k w in
  let L := live (self w) (ticks w1) (semantic_cache (self w)) in
  enable_semantic_cache (self w) = true →
  exact_falls_through query k w = true →
  Forall (same_length qe) L →
  (0 < similarity_threshold (self w))%Q →
  Forall (λ item, (cosine qe (cached_embedding item.2)
                     < similarity_threshold (self w))%Q) L →
  ∃ t',
    get query k (Some qe) w
      = (Return None,
         {| heap := heap w;
            self := with_stats (self w1) (incr_misses (stats (self w1)));
            ticks := t' |}).
Proof.
  intros w1 L Hen Hfall Hlen Hpos Hall. subst w1.
  rewrite get_falls_through by done.
  destruct (at_semantic_stage_config query k w) as (Hhp & Hsem & Httl & Hen1 & Hthr1 & _).
  pose proof (live_at_semantic_stage query k w) as Hlive1. simpl in Hlive1.
  fold L in Hlive1.
  destruct (get_semantic_miss qe (at_semantic_stage query k w)
              (fold_left (pick qe) L no_best)) as [t' Ht'].
  - by rewrite Hen1.
  - rewrite scan_compatible by (by rewrite Hlive1). by rewrite Hlive1.
  - rewrite Hthr1. by apply fold_pick_below.
  - exists t'. rewrite Ht'. by rewrite Hhp.
Qed.

(** *** What [get] leaves untouched *)

Lemma _create_cache_response_self d cache_type similarity w :
  self (_create_cache_response d cache_type similarity w).2 = self w.
Proof.
  destruct w as [h c t]. unfold _create_cache_response, obj_copy, dict_setitem.
  destruct d as [d|]; run; [|done].
  destruct (h !! d) as [o|]; run; [|done].
  rewrite heap_snoc_lookup. destruct o as [m|l]; run; [|done].
  rewrite heap_snoc_insert, heap_snoc_lookup. run.
  rewrite heap_snoc_insert. destruct similarity as [s|]; run; [|done].
  by rewrite heap_snoc_lookup.
Qed.

(** The semantic stage changes neither the exact store nor the counters
    [total_queries] and [ttl_expirations]. *)
Lemma get_semantic_frame query_embedding w :
  let c' := self (get_semantic query_embedding w).2 in
  exact_cache c' = exact_cache (self w) ∧
  total_queries (stats c') = total_queries (stats (self w)) ∧
  ttl_expirations (stats c') = ttl_expirations (stats (self w)).
Proof.
  unfold get_semantic. run.
  destruct (enable_semantic_cache (self w)); [|done].
  destruct query_embedding as [qe|]; [|done].
  destruct (scan_world qe (semantic_cache (self w)) no_best w) as [t' Hw'].
  fold no_best. destruct (scan _ _ _ _) as [[best|e] w']; simpl in Hw'; subst w';
    simpl; [|done].
  destruct (Qgeb _ _); [|done].
  unfold semantic_move_to_end. run.
  destruct (best_hash best) as [h|]; run; [|done].
  destruct (od_move_to_end h (semantic_cache (self w))) as [d|e]; run; [|done].
  match goal with
  | |- context [_create_cache_response ?d ?ty ?sim ?w0] =>
      pose proof (_create_cache_response_self d ty sim w0) as Hself;
      destruct (_create_cache_response d ty sim w0) as [[r|e] w']
  end; simpl in *; by rewrite Hself.
Qed.

(** Every [get] counts one query, whatever its outcome. *)
Lemma get_total_queries query k query_embedding w :
  total_queries (stats (self (get query k query_embedding w).2))
    = total_queries (stats (self w)) + 1.
Proof.
  destruct (exact_falls_through query k w) eqn:Hfall.
  - rewrite get_falls_through by done.
    destruct (get_semantic_frame query_embedding (at_semantic_stage query k w))
      as (_ & -> & _).
    by destruct (at_semantic_stage_config query k w) as (_ & _ & _ & _ & _ & ->).
  - unfold exact_falls_through in Hfall. unfold get. run.
    destruct (od_get _ (exact_cache (self w))) as [entry|] eqn:Hget; [|done].
    rewrite _is_expired_spec. simpl. unfold expired_at in *. simpl. rewrite Hfall.
    unfold exact_move_to_end, od_move_to_end. run. rewrite Hget. run.
    match goal with
    | |- context [_create_cache_response ?d ?ty ?sim ?w0] =>
        pose proof (_create_cache_response_self d ty sim w0) as Hself;
        destruct (_create_cache_response d ty sim w0) as [[r|e] w']
    end; simpl in *; by rewrite Hself.
Qed.

(** C8 (as amended): when the fingerprint is in the exact store with an
    entry older than the TTL, [get] removes the entry, counts one
    expiration and goes on to the semantic stage as if the fingerprint had
    been absent; it reports a miss when that stage is off or has no
    embedding to work with (otherwise the semantic stage decides). *)
Theorem expired_exact_entry_is_dropped query k query_embedding w entry :
  let h := _generate_query_hash query k in
  let r := get query k query_embedding w in
  od_get h (exact_cache (self w)) = Some entry →
  expired_at (self w) (ticks w) (timestamp entry) = true →
  od_get h (exact_cache (self r.2)) = None ∧
  ttl_expirations (stats (self r.2)) = ttl_expirations (stats (self w)) + 1 ∧
  r = get_semantic query_embedding (at_semantic_stage query k w) ∧
  (enable_semantic_cache (self w) = false ∨ query_embedding = None →
   r.1 = Return None).
Proof.
  intros h r Hget Hexp. subst r.
  assert (Hfall : exact_falls_through query k w = true).
  { unfold exact_falls_through. fold h. by rewrite Hget. }
  rewrite get_falls_through by done.
  destruct (get_semantic_frame query_embedding (at_semantic_stage query k w))
    as (Hex & _ & Httl).
  simpl in Hex, Httl. rewrite Hex, Httl.
  unfold at_semantic_stage at 1 2. simpl. fold h. rewrite Hget. simpl.
  split; [apply od_get_del_eq|]. split; [done|]. split; [done|].
  destruct (at_semantic_stage_config query k w) as (_ & _ & _ & Hen1 & _).
  unfold get_semantic. run. rewrite Hen1.
  intros [->| ->]; [done|]. by destruct (enable_semantic_cache (self w)).
Qed.

(** *** Statistics *)

(** The semantic stage counts at most one semantic hit and no exact hit. *)
Lemma get_semantic_hits query_embedding w :
  let s := stats (self w) in
  let s' := stats (self (get_semantic query_embedding w).2) in
  exact_hits s' = exact_hits s ∧
  semantic_hits s <= semantic_hits s' <= semantic_hits s + 1.
Proof.
  intros s s'. subst s s'. unfold get_semantic. run.
  destruct (enable_semantic_cache (self w)); [|simpl; split; [done|lia]].
  destruct query_embedding as [qe|]; [|simpl; split; [done|lia]].
  destruct (scan_world qe (semantic_cache (self w)) no_best w) as [t' Hw'].
  fold no_best. destruct (scan _ _ _ _) as [[best|e] w']; simpl in Hw'; subst w';
    simpl; [|simpl; split; [done|lia]].
  destruct (Qgeb _ _); [|simpl; split; [done|lia]].
  unfold semantic_move_to_end. run.
  destruct (best_hash best) as [h|]; run; [|simpl; split; [done|lia]].
  destruct (od_move_to_end h (semantic_cache (self w))) as [d|e]; run; [|simpl; split; [done|lia]].
  match goal with
  | |- context [_create_cache_response ?d ?ty ?sim ?w0] =>
      pose proof (_create_cache_response_self d ty sim w0) as Hself;
      destruct (_create_cache_response d ty sim w0) as [[r|e] w']
  end; simpl in *; rewrite Hself; simpl; split; (done || lia).
Qed.

(** A [get] counts at most one hit, and never takes one back. *)
Lemma get_hits query k query_embedding w :
  let s := stats (self w) in
  let s' := stats (self (get query k query_embedding w).2) in
  exact_hits s <= exact_hits s' ∧
  semantic_hits s <= semantic_hits s' ∧
  exact_hits s' + semantic_hits s' <= exact_hits s + semantic_hits s + 1.
Proof.
  destruct (exact_falls_through query k w) eqn:Hfall.
  - rewrite get_falls_through by done.
    pose proof (get_semantic_hits query_embedding (at_semantic_stage query k w))
      as (He & Hs).
    simpl in He, Hs |- *. rewrite He.
    assert (Hst : exact_hits (stats (self (at_semantic_stage query k w)))
                  = exact_hits (stats (self w)) ∧
                  semantic_hits (stats (self (at_semantic_stage query k w)))
                  = semantic_hits (stats (self w))).
    { unfold at_semantic_stage. simpl. by destruct (od_get _ (exact_cache (self w))). }
    destruct Hst as (Hx & Hy). rewrite Hx, Hy in *. lia.
  - unfold exact_falls_through in Hfall. unfold get. run.
    destruct (od_get _ (exact_cache (self w))) as [entry|] eqn:Hget; [|done].
    rewrite _is_expired_spec. simpl. unfold expired_at in *. simpl. rewrite Hfall.
    unfold exact_move_to_end, od_move_to_end. run. rewrite Hget. run.
    match goal with
    | |- context [_create_cache_response ?d ?ty ?sim ?w0] =>
        pose proof (_create_cache_response_self d ty sim w0) as Hself;
        destruct (_create_cache_response d ty sim w0) as [[r|e] w']
    end; simpl in *; rewrite Hself; simpl; lia.
Qed.

(** C9: every [get] adds exactly one to [total_queries], whatever its
    outcome, and at most one to the hits, so the hits never exceed the
    queries counted.  The snapshot reports
    [total_hits = exact_hits + semantic_hits]; its [hit_rate_percent] is
    the int 0 when no query was counted, and otherwise
    [round(total_hits / total_queries * 100, 2)] as the float arithmetic
    computes it: the quotient and the product are each rounded to
    binary64, the product is rounded to the nearest hundredth [n / 100],
    and the float nearest to [n / 100] is reported.  With the hits within
    the queries counted, that hundredth lies between 0 and 100, within
    1/200 (plus [2^-44] for the two float roundings) of the exact
    percentage, and the float reported within [2^-46] of the hundredth. *)
Theorem stats_are_consistent query k query_embedding w :
  let s0 := stats (self w) in
  let s1 := stats (self (get query k query_embedding w).2) in
  total_queries s1 = total_queries s0 + 1 ∧
  (0 <= exact_hits s0 → 0 <= semantic_hits s0 →
   exact_hits s0 + semantic_hits s0 <= total_queries s0 →
   0 <= exact_hits s1 ∧ 0 <= semantic_hits s1 ∧
   exact_hits s1 + semantic_hits s1 <= total_queries s1) ∧
  ∀ w0 : World,
    let hits := exact_hits (stats (self w0)) + semantic_hits (stats (self w0)) in
    let total := total_queries (stats (self w0)) in
    (total <= 0 →
     ∃ s, get_stats w0 = (Return s, w0) ∧
          total_hits s = hits ∧ hit_rate_percent s = Int 0) ∧
    (0 < total →
     match int_truediv hits total with
     | Return ratio =>
         ∃ s, get_stats w0 = (Return s, w0) ∧
              total_hits s = hits ∧
              hit_rate_percent s = py_round (Float (float_mul ratio (Finite 100))) 2
     | Raise e => get_stats w0 = (Raise e, w0)
     end) ∧
    (0 < total → 0 <= hits <= total →
     ∃ s ratio rate n,
       get_stats w0 = (Return s, w0) ∧
       total_hits s = hits ∧
       int_truediv hits total = Return (Finite ratio) ∧
       float_mul (Finite ratio) (Finite 100) = Finite rate ∧
       n = round_half_even (rate * 100) ∧
       hit_rate_percent s = Float (Finite (nearest_binary64 (inject_Z n / 100))) ∧
       0 <= n <= 10000 ∧
       (Qabs (inject_Z n / 100 - inject_Z hits / inject_Z total * 100)
          <= (1 # 200) + 2 ^ (-44))%Q ∧
       (Qabs (nearest_binary64 (inject_Z n / 100) - inject_Z n / 100)
          <= 2 ^ (-46))%Q).
Proof.
  intros s0 s1. subst s0 s1.
  pose proof (get_total_queries query k query_embedding w) as Htq.
  pose proof (get_hits query k query_embedding w) as (Hx & Hs & Hsum).
  simpl in Hx, Hs, Hsum.
  split; [exact Htq|]. split; [lia|].
  intros [hp c t] hits total. simpl in hits, total.
  assert (Hany : 0 < total →
            match int_truediv hits total with
            | Return ratio =>
                ∃ s, get_stats {| heap := hp; self := c; ticks := t |}
                     = (Return s, {| heap := hp; self := c; ticks := t |}) ∧
                     total_hits s = hits ∧
                     hit_rate_percent s
                     = py_round (Float (float_mul ratio (Finite 100))) 2
            | Raise e =>
                get_stats {| heap := hp; self := c; ticks := t |}
                = (Raise e, {| heap := hp; self := c; ticks := t |})
            end).
  { intros Hpos. unfold get_stats. run.
    destruct (Z.gtb_spec (total_queries (stats c)) 0) as [_|Hle]; [|unfold total in Hpos; lia].
    fold hits total. destruct (int_truediv hits total) as [ratio|e]; run; [|done].
    by eexists. }
  split; [|split; [exact Hany|]].
  - intros Hzero. unfold get_stats. run.
    destruct (Z.gtb_spec (total_queries (stats c)) 0) as [Hgt|_]; [unfold total in Hzero; lia|].
    run. by eexists.
  - intros Hpos Hhits. specialize (Hany Hpos).
    destruct (hit_rate_accuracy hits total Hpos Hhits)
      as (ratio & rate & n & Hdiv & Hmul & Hn & Hrange & Hnear).
    rewrite Hdiv in Hany. destruct Hany as (s & Hrun & Hth & Hrate).
    exists s, ratio, rate, n. rewrite Hmul in Hrate.
    split; [done|]. split; [done|]. split; [done|]. split; [done|]. split; [done|].
    split; [by rewrite Hrate, Hn|]. split; [done|]. split; [done|].
    apply hundredth_to_float. exact Hrange.
Qed.

(** *** Construction and totality of [set] *)

Lemma ensure_loop_returns rounds : ∀ total_entries w,
  ∃ left c',
    ensure_loop rounds total_entries w
      = (Return left, {| heap := heap w; self := c'; ticks := ticks w |}) ∧
    max_size c' = max_size (self w) ∧
    ((Z.to_nat (total_entries - max_size (self w)) <= rounds)%nat →
     left <= max_size (self w)) ∧
    (keys_unique (self w) → keys_unique c').
Proof.
  induction rounds as [|rounds IH]; intros total_entries [h c t]; simpl; run.
  - exists total_entries, c.
    destruct (Z.gtb_spec total_entries (max_size c)) as [Hgt|Hle];
      (split; [reflexivity|]); (split; [reflexivity|]);
      (split; [intros; lia | done]).
  - destruct (Z.gtb_spec total_entries (max_size c)) as [Hgt|Hle].
    2: { exists total_entries, c. split; [reflexivity|]. split; [reflexivity|].
         split; [intros; lia | done]. }
    unfold _evict_oldest.
    destruct (len (exact_cache c) >=? len (semantic_cache c)); run.
    + destruct (exact_cache c) as [|oldest rest] eqn:Hex; run.
      * destruct (IH (total_entries - 1) {| heap := h; self := c; ticks := t |})
          as (left & c' & -> & Hm & Hl & Hu).
        exists left, c'. simpl in *. split; [done|]. split; [done|].
        split; [intros; apply Hl; lia | done].
      * destruct (IH (total_entries - 1)
                    {| heap := h;
                       self := with_stats (with_exact c rest) (incr_evictions (stats c));
                       ticks := t |})
          as (left & c' & -> & Hm & Hl & Hu).
        exists left, c'. simpl in *. split; [done|]. split; [done|].
        split; [intros; apply Hl; lia|].
        intros [Hue Hus]. apply Hu. split; [|done].
        rewrite Hex in Hue. by apply (unique_keys_tail (oldest :: rest)).
    + destruct (semantic_cache c) as [|oldest rest] eqn:Hsem; run.
      * destruct (IH (total_entries - 1) {| heap := h; self := c; ticks := t |})
          as (left & c' & -> & Hm & Hl & Hu).
        exists left, c'. simpl in *. split; [done|]. split; [done|].
        split; [intros; apply Hl; lia | done].
      * destruct (IH (total_entries - 1)
                    {| heap := h;
                       self := with_stats (with_semantic c rest) (incr_evictions (stats c));
                       ticks := t |})
          as (left & c' & -> & Hm & Hl & Hu).
        exists left, c'. simpl in *. split; [done|]. split; [done|].
        split; [intros; apply Hl; lia|].
        intros [Hue Hus]. apply Hu. split; [done|].
        rewrite Hsem in Hus. by apply (unique_keys_tail (oldest :: rest)).
Qed.

(** The eviction loop is always left through its test: the bound on its
    rounds is never what stops it. *)
Lemma _ensure_cache_size_returns w :
  ∃ left c',
    _ensure_cache_size w
      = (Return left, {| heap := heap w; self := c'; ticks := ticks w |}) ∧
    left <= max_size (self w).
Proof.
  unfold _ensure_cache_size. run.
  match goal with
  | |- context [ensure_loop ?r ?t ?w0] =>
      destruct (ensure_loop_returns r t w0) as (left & c' & Hrun & _ & Hl & _)
  end.
  exists left, c'. split; [exact Hrun|]. by apply Hl.
Qed.

Lemma od_del_setitem {V} k (v : V) d : od_del k (od_setitem k v d) = od_del k d.
Proof.
  induction d as [|[k' v'] d IH]; simpl.
  - by rewrite String.eqb_refl.
  - destruct (String.eqb k k') eqn:E; simpl; rewrite E; [done | by rewrite IH].
Qed.

Lemma unique_keys_promoted {V} k (v : V) d :
  unique_keys d = true → unique_keys (od_del k d ++ [(k, v)]) = true.
Proof.
  intros Hu. apply unique_keys_snoc; [by apply unique_keys_del | apply od_get_del_eq].
Qed.

(** [set] returns normally on every cache, whatever its configuration: the
    eviction loop always leaves through its test.  It keeps the keys of
    both stores distinct. *)
Lemma set_returns query response_data k query_embedding w :
  ∃ w', set query response_data k query_embedding w = (Return tt, w') ∧
        (keys_unique (self w) → keys_unique (self w')).
Proof.
  unfold set. unfold bind at 1. rewrite set_store_spec.
  unfold _ensure_cache_size. run.
  match goal with
  | |- context [ensure_loop ?r ?t ?w0] =>
      destruct (ensure_loop_returns r t w0) as (left & c' & -> & _ & _ & Hu)
  end.
  eexists. split; [reflexivity|]. simpl in *. intros [Hue Hus]. apply Hu.
  rewrite !od_del_setitem. split; [by apply unique_keys_promoted|].
  destruct (enable_semantic_cache (self w)), query_embedding;
    try done; rewrite od_del_setitem; by apply unique_keys_promoted.
Qed.

(** [get] keeps the keys of both stores distinct. *)
Lemma get_semantic_keys_unique query_embedding w :
  keys_unique (self w) → keys_unique (self (get_semantic query_embedding w).2).
Proof.
  intros [Hue Hus]. unfold get_semantic. run.
  destruct (enable_semantic_cache (self w)); [|done].
  destruct query_embedding as [qe|]; [|done].
  destruct (scan_world qe (semantic_cache (self w)) no_best w) as [t' Hw'].
  fold no_best. destruct (scan _ _ _ _) as [[best|e] w']; simpl in Hw'; subst w';
    simpl; [|done].
  destruct (Qgeb _ _); [|done].
  unfold semantic_move_to_end. run.
  destruct (best_hash best) as [h|]; run; [|done].
  unfold od_move_to_end.
  destruct (od_get h (semantic_cache (self w))) as [v|]; run; [|done].
  match goal with
  | |- context [_create_cache_response ?d ?ty ?sim ?w0] =>
      pose proof (_create_cache_response_self d ty sim w0) as Hself;
      destruct (_create_cache_response d ty sim w0) as [[r|e] w']
  end; simpl in *; rewrite Hself; (split; [done | by apply unique_keys_promoted]).
Qed.

Lemma get_keys_unique query k query_embedding w :
  keys_unique (self w) → keys_unique (self (get query k query_embedding w).2).
Proof.
  intros [Hue Hus]. destruct (exact_falls_through query k w) eqn:Hfall.
  - rewrite get_falls_through by done. apply get_semantic_keys_unique.
    unfold at_semantic_stage. simpl.
    destruct (od_get _ (exact_cache (self w))); [|done].
    split; [by apply unique_keys_del | done].
  - unfold exact_falls_through in Hfall. unfold get. run.
    destruct (od_get _ (exact_cache (self w))) as [entry|] eqn:Hget; [|done].
    rewrite _is_expired_spec. simpl. unfold expired_at in *. simpl. rewrite Hfall.
    unfold exact_move_to_end, od_move_to_end. run. rewrite Hget. run.
    match goal with
    | |- context [_create_cache_response ?d ?ty ?sim ?w0] =>
        pose proof (_create_cache_response_self d ty sim w0) as Hself;
        destruct (_create_cache_response d ty sim w0) as [[r|e] w']
    end; simpl in *; rewrite Hself; (split; [by apply unique_keys_promoted | done]).
Qed.

(** C3 (as amended): the constructor validates nothing: for every
    [max_size] and [ttl_seconds], negative ones included, it returns a
    cache holding the values as given, with empty stores and zeroed
    counters, and [set] on that cache returns normally. *)
Theorem init_accepts_any_configuration (size : Z) (threshold : Q)
    (ttl : option Z) (semantic : bool) :
  ∃ c,
    __init__ size threshold ttl semantic = Return c ∧
    max_size c = size ∧
    similarity_threshold c = threshold ∧
    ttl_seconds c = ttl ∧
    enable_semantic_cache c = semantic ∧
    exact_cache c = [] ∧ semantic_cache c = [] ∧ stats c = zero_stats ∧
    ∀ query response_data k query_embedding h t,
      ∃ w', set query response_data k query_embedding
              {| heap := h; self := c; ticks := t |} = (Return tt, w').
Proof.
  eexists. split; [reflexivity|]. repeat split. intros q d k emb h t.
  destruct (set_returns q d k emb
              {| heap := h; self := new_cache size threshold ttl semantic; ticks := t |})
    as (w' & Hw' & _).
  by exists w'.
Qed.

(** *** Copies handed to the caller *)

(** Assigning or deleting a key of the dict at [r] changes the object at
    [r] and nothing else. *)
Lemma mutate_frame r m w :
  let w' := (mutate r m w).2 in
  self w' = self w ∧ length (heap w') = length (heap w) ∧
  ∀ a, a ≠ r → heap w' !! a = heap w !! a.
Proof.
  destruct w as [h c t]. destruct m as [key v|key]; simpl;
    unfold dict_setitem, dict_delitem; run.
  - destruct (h !! r) as [[d|l]|]; simpl; try done.
    split; [done|]. split; [by rewrite length_insert|].
    intros a Hne. by rewrite list_lookup_insert_ne.
  - destruct (h !! r) as [[d|l]|]; simpl; try done.
    destruct (d !! key); simpl; try done.
    split; [done|]. split; [by rewrite length_insert|].
    intros a Hne. by rewrite list_lookup_insert_ne.
Qed.

Lemma mutate_all_frame r ms : ∀ w,
  let w' := (mutate_all r ms w).2 in
  self w' = self w ∧ length (heap w') = length (heap w) ∧
  ∀ a, a ≠ r → heap w' !! a = heap w !! a.
Proof.
  induction ms as [|m ms IH]; intros w; simpl; [done|]. run.
  pose proof (mutate_frame r m w) as (Hs & Hl & Hh). simpl in Hs, Hl, Hh.
  destruct (mutate r m w) as [[[]|e] w1]; simpl in *; [|done].
  destruct (IH w1) as (Hs' & Hl' & Hh'). simpl in Hs', Hl', Hh'.
  split; [congruence|]. split; [congruence|].
  intros a Hne. rewrite Hh' by done. by apply Hh.
Qed.

(** In a closed store, what is reachable from the objects below [n]
    depends on those objects only. *)
Lemma deep_agree (h h' : Heap) :
  closed h →
  (∀ a, (a < length h)%nat → h' !! a = h !! a) →
  ∀ fuel v,
    (∀ a, v = PRef a → (a < length h)%nat) →
    deep fuel h' v = deep fuel h v.
Proof.
  intros Hclosed Hagree. induction fuel as [|fuel IH]; intros v Hv.
  - by destruct v.
  - destruct v as [| | | | |a]; try done. simpl.
    rewrite Hagree by (by apply Hv).
    destruct (h !! a) as [[d|l]|] eqn:Ha; [| |done].
    + f_equal. apply map_ext_in. intros [key v] Hin. simpl. f_equal.
      apply IH. intros b ->.
      apply list_elem_of_In, elem_of_map_to_list in Hin.
      by apply (Hclosed a (ODict d) Ha key b).
    + f_equal. apply map_ext_in. intros v Hin.
      apply IH. intros b ->.
      apply list_elem_of_In in Hin.
      by apply (Hclosed a (OList l) Ha b).
Qed.

(** X18: the copy is one level deep.  The payload returned by a hit is a new
    dict holding the items of the stored payload and the provenance items;
    whatever keys the caller then assigns or deletes in it, the cache and
    every object that existed before the hit -- the stored payload
    included -- are unchanged, and so is everything reachable from them.
    (The values of the items are the stored payload's own.) *)
Theorem cache_response_is_shallow_copy d m cache_type similarity w :
  heap w !! d = Some (ODict m) →
  ∃ w1,
    _create_cache_response (Some d) cache_type similarity w
      = (Return (length (heap w)), w1) ∧
    heap w1 = heap w ++ [ODict (annotated m cache_type similarity)] ∧
    ∀ ms,
      let w2 := (mutate_all (length (heap w)) ms w1).2 in
      self w2 = self w ∧
      (∀ a, (a < length (heap w))%nat → heap w2 !! a = heap w !! a) ∧
      (closed (heap w) →
       ∀ fuel a, (a < length (heap w))%nat →
                 deep fuel (heap w2) (PRef a) = deep fuel (heap w) (PRef a)).
Proof.
  intros Hd. eexists. split; [by apply _create_cache_response_spec|].
  split; [done|]. intros ms.
  match goal with |- context [mutate_all _ _ ?w0] =>
    destruct (mutate_all_frame (length (heap w)) ms w0) as (Hs & Hl & Hh)
  end.
  simpl in Hs, Hl, Hh |- *.
  assert (Hold : ∀ a, (a < length (heap w))%nat →
                      heap (mutate_all (length (heap w)) ms
                              {| heap := heap w ++ [ODict (annotated m cache_type similarity)];
                                 self := self w; ticks := ticks w |}).2 !! a
                      = heap w !! a).
  { intros a Ha. rewrite Hh by lia. by apply lookup_app_l. }
  split; [done|]. split; [exact Hold|].
  intros Hclosed fuel a Ha. apply deep_agree; [done | exact Hold |].
  by intros ? [= <-].
Qed.

(** *** The budget after [set] *)

Lemma spec_evict_step_deterministic c a b :
  spec_evict_step c a → spec_evict_step c b → a = b.
Proof.
  intros Ha Hb.
  destruct Ha as [c o1 r1 _ Hge1 H1|c o1 r1 _ Hlt1 H1];
    inversion Hb as [c' o2 r2 _ Hge2 H2|c' o2 r2 _ Hlt2 H2]; subst; try lia;
    rewrite H1 in H2; by injection H2 as _ ->.
Qed.

Lemma evict_steps_unique c a :
  rtc spec_evict_step c a →
  len (exact_cache a) + len (semantic_cache a) <= max_size a →
  ∀ b, rtc spec_evict_step c b →
       len (exact_cache b) + len (semantic_cache b) <= max_size b →
       a = b.
Proof.
  induction 1 as [c|c c1 a Hstep _ IH]; intros Ha b Hb Hbw.
  - destruct Hb as [|c c1 b Hstep _]; [done|]. destruct Hstep; lia.
  - destruct Hb as [|c c1' b Hstep' Hb].
    + destruct Hstep; lia.
    + rewrite (spec_evict_step_deterministic _ _ _ Hstep' Hstep) in Hb. by apply IH.
Qed.

(** C1 (as amended): for a cache whose [max_size] is not negative, every
    [set] returns normally and leaves
    [len(exact_cache) + len(semantic_cache) <= max_size]; the state it
    leaves is the one reached from the state after the two writes by
    eviction steps -- each dropping the oldest entry of the store with the
    greater count, the exact store on a tie -- taken as long as the two
    stores exceed the budget. *)
Theorem set_restores_budget query response_data k query_embedding w :
  0 <= max_size (self w) →
  ∃ w1 w2,
    set_store query response_data k query_embedding w = (Return tt, w1) ∧
    set query response_data k query_embedding w = (Return tt, w2) ∧
    len (exact_cache (self w2)) + len (semantic_cache (self w2))
      <= max_size (self w2) ∧
    max_size (self w2) = max_size (self w) ∧
    heap w2 = heap w ∧
    rtc spec_evict_step (self w1) (self w2) ∧
    ∀ c, rtc spec_evict_step (self w1) c →
         len (exact_cache c) + len (semantic_cache c) <= max_size c →
         c = self w2.
Proof.
  intros Hmax.
  destruct (set_runs query response_data k query_embedding w Hmax)
    as (w1 & w2 & Hs & Hset & Hrtc & Hhp & Hmx & Hle).
  exists w1, w2. repeat split; try done.
  intros c Hc Hcw. symmetry. by apply (evict_steps_unique (self w1)).
Qed.

End QueryCacheFacts.

(** * The properties at concrete inputs *)

(** C1, the claim as stated fails: [QueryCache(max_size=-1)] is accepted,
    and after [set("a", p)] both stores are empty, which is still more than
    the budget. *)
Lemma set_breaks_negative_budget :
  let w := (set ascii_lower ascii_strip id_digest second_clock "a" 0%nat 5 None
              (start (new_cache (-1) (92 # 100) (Some 3600) true) one_payload)).2 in
  exact_cache (self w) = [] ∧ semantic_cache (self w) = [] ∧
  ¬ (len (exact_cache (self w)) + len (semantic_cache (self w)) <= max_size (self w)).
Proof. vm_compute. repeat split. intros H. by apply H. Qed.

Lemma set_restores_budget_witness :
  let w := start (new_cache 1 (92 # 100) (Some 3600) true) one_payload in
  ∃ w1 w2,
    set_store ascii_lower ascii_strip id_digest
        second_clock "q" 0%nat 5 (Some [1%Q; 0%Q]) w = (Return tt, w1) ∧
    set ascii_lower ascii_strip id_digest
        second_clock "q" 0%nat 5 (Some [1%Q; 0%Q]) w = (Return tt, w2) ∧
    len (exact_cache (self w2)) + len (semantic_cache (self w2)) <= max_size (self w2) ∧
    max_size (self w2) = max_size (self w) ∧
    heap w2 = heap w ∧
    rtc spec_evict_step (self w1) (self w2) ∧
    ∀ c, rtc spec_evict_step (self w1) c →
         len (exact_cache c) + len (semantic_cache c) <= max_size c →
         c = self w2.
Proof.
  apply (set_restores_budget ascii_lower ascii_strip id_digest
      second_clock "q" 0%nat 5 (Some [1%Q; 0%Q])).
  simpl. lia.
Defined.

(** C2, the claim as stated fails: with [max_size=1] and one semantic entry
    in place, the entry written by [set("q", p)] is the one evicted, and the
    [get("q")] that follows is a miss. *)
Lemma roundtrip_miss_when_budget_is_one :
  ((set ascii_lower ascii_strip id_digest second_clock "a" 0%nat 5 (Some [1%Q; 0%Q]);;
    set ascii_lower ascii_strip id_digest second_clock "q" 0%nat 5 None;;
    get ascii_lower ascii_strip id_digest unit_cosine second_clock "q" 5 None)
     (start (new_cache 1 (92 # 100) (Some 3600) true) one_payload)).1
  = Return None.
Proof. vm_compute. reflexivity. Qed.

Lemma set_then_get_roundtrip_witness :
  let w := start (new_cache 2 (92 # 100) (Some 3600) true) one_payload in
  ∃ w',
    (set ascii_lower ascii_strip id_digest second_clock "q" 0%nat 5 None;;
     get ascii_lower ascii_strip id_digest unit_cosine second_clock "q" 5 None) w
      = (Return (Some (length (heap w))), w') ∧
    heap w'
      = heap w ++ [ODict (<["_cache_type" := PStr "exact"]>
                            (<["_cache_hit" := PBool true]> ∅))].
Proof.
  apply (set_then_get_roundtrip ascii_lower ascii_strip id_digest
      unit_cosine second_clock "q" 0%nat 5 None _ ∅).
  - left. simpl. lia.
  - reflexivity.
  - intros ttl [= <-]. unfold Qle. simpl. lia.
Defined.

(** C3, the claim as stated fails: [QueryCache(max_size=-1, ttl_seconds=-5)]
    is constructed without error. *)
Lemma init_accepts_negative_size_and_ttl :
  __init__ (-1) (92 # 100) (Some (-5)) true
  = Return (new_cache (-1) (92 # 100) (Some (-5)) true).
Proof. reflexivity. Qed.

(** C4, at the failing input: with [similarity_threshold=0.0] the one
    stored entry is compared, its similarity to the query (0) reaches the
    threshold, and [get] raises [KeyError] where the claim has a hit. *)
Theorem semantic_hit_lost_at_zero_threshold :
  let w := zero_threshold_world in
  let qe := [0%Q; 1%Q] in
  ∃ h e,
    exact_falls_through ascii_lower ascii_strip id_digest second_clock "b" 5 w = true ∧
    live second_clock (self w) (ticks w) (semantic_cache (self w)) = [(h, e)] ∧
    same_length qe (h, e) ∧
    (similarity_threshold (self w) <= unit_cosine qe (cached_embedding e))%Q ∧
    (get ascii_lower ascii_strip id_digest
        unit_cosine second_clock "b" 5 (Some qe) w).1 = Raise KeyError.
Proof.
  eexists _, _. split; [vm_compute; reflexivity|].
  split; [vm_compute; reflexivity|]. split; [reflexivity|].
  split; [vm_compute; discriminate | vm_compute; reflexivity].
Qed.

(** C5, at the failing input: with [similarity_threshold=0.0] two stored
    entries, both compared, tie at the greatest similarity to the query,
    0, which reaches the threshold; the claim has the first of them
    returned and promoted, and [get] raises [KeyError]: nothing is
    returned, the order of the semantic store is as before and no hit is
    counted. *)
Theorem semantic_tie_lost_at_zero_threshold :
  let w := tied_at_zero_world in
  let qe := [0%Q; 1%Q] in
  let r := get ascii_lower ascii_strip id_digest
      unit_cosine second_clock "c" 5 (Some qe) w in
  ∃ a b,
    exact_falls_through ascii_lower ascii_strip id_digest second_clock "c" 5 w = true ∧
    live second_clock (self w) (ticks w) (semantic_cache (self w))
      = [("a|k=5"%string, a); ("b|k=5"%string, b)] ∧
    same_length qe ("a|k=5"%string, a) ∧ same_length qe ("b|k=5"%string, b) ∧
    unit_cosine qe (cached_embedding a) = 0%Q ∧
    unit_cosine qe (cached_embedding b) = 0%Q ∧
    (similarity_threshold (self w) <= 0)%Q ∧
    r.1 = Raise KeyError ∧
    semantic_cache (self r.2) = semantic_cache (self w) ∧
    semantic_hits (stats (self r.2)) = semantic_hits (stats (self w)).
Proof.
  eexists _, _. split; [vm_compute; reflexivity|].
  split; [vm_compute; reflexivity|]. split; [reflexivity|]. split; [reflexivity|].
  split; [vm_compute; reflexivity|]. split; [vm_compute; reflexivity|].
  split; [vm_compute; discriminate|].
  repeat split; vm_compute; reflexivity.
Qed.

Lemma semantic_tie_goes_to_first_witness :
  let a := {| cached_embedding := [1%Q; 0%Q]; cached_data := 0%nat;
              cached_timestamp := second_clock 0; original_query := "a" |} in
  ∃ t',
    get ascii_lower ascii_strip id_digest unit_cosine second_clock "c" 5
      (Some [1%Q; 0%Q]) tied_world
      = (Return (Some 1%nat),
         {| heap := heap tied_world
                    ++ [ODict (annotated ∅ "semantic"
                                 (Some (unit_cosine [1%Q; 0%Q] [1%Q; 0%Q])))];
            self := with_stats
                      (with_semantic
                         (self (at_semantic_stage ascii_lower ascii_strip id_digest
                                  "c" 5 tied_world))
                         (od_del "a|k=5" (semantic_cache (self tied_world))
                            ++ [("a|k=5"%string, a)]))
                      (incr_semantic_hits
                         (stats (self (at_semantic_stage ascii_lower ascii_strip id_digest
                                         "c" 5 tied_world))));
            ticks := t' |}).
Proof.
  apply (semantic_tie_goes_to_first ascii_lower ascii_strip id_digest unit_cosine
           second_clock "c" 5
           [1%Q; 0%Q] tied_world []
           "a|k=5"%string
           {| cached_embedding := [1%Q; 0%Q]; cached_data := 0%nat;
              cached_timestamp := second_clock 0; original_query := "a" |}
           [("b|k=5"%string,
             {| cached_embedding := [1%Q; 0%Q]; cached_data := 0%nat;
                cached_timestamp := second_clock 1; original_query := "b" |})]
           ∅).
  - reflexivity.
  - reflexivity.
  - reflexivity.
  - vm_compute. reflexivity.
  - repeat constructor.
  - constructor.
  - repeat constructor. vm_compute. discriminate.
  - vm_compute. reflexivity.
  - vm_compute. discriminate.
  - reflexivity.
Defined.

Lemma dimension_mismatch_raises_witness :
  (get ascii_lower ascii_strip id_digest
      unit_cosine second_clock "c" 5 (Some [1%Q; 0%Q; 0%Q]) tied_world).1
  = Raise ValueError.
Proof.
  apply (dimension_mismatch_raises ascii_lower ascii_strip id_digest
      unit_cosine second_clock "c" 5
           [1%Q; 0%Q; 0%Q] tied_world
           ("a|k=5"%string,
            {| cached_embedding := [1%Q; 0%Q]; cached_data := 0%nat;
               cached_timestamp := second_clock 0; original_query := "a" |})).
  - reflexivity.
  - reflexivity.
  - vm_compute. left. reflexivity.
  - simpl. lia.
Defined.

(** C7, at the failing input: the payload [{'results': ['chunk']}] is
    stored and then returned by a hit; the caller appends to the list it
    finds under ['results'] in the returned dict, and what the stored entry
    holds has changed, where the claim (and the comment at the hit, "Give
    them a copy so they can't mess with my cache") has it unchanged. *)
Theorem returned_copy_shares_nested_values :
  let w1 := (set ascii_lower ascii_strip id_digest second_clock "q" 0%nat 5 None
               (start (new_cache 1000 (92 # 100) (Some 3600) true) nested_payload)).2 in
  let hit := get ascii_lower ascii_strip id_digest unit_cosine second_clock "q" 5 None w1 in
  let w3 := (list_append 1%nat (PStr "junk") hit.2).2 in
  hit.1 = Return (Some 2%nat) ∧
  (∃ d, heap hit.2 !! 2%nat = Some (ODict d) ∧ d !! "results" = Some (PRef 1)) ∧
  data <$> od_get "q|k=5" (exact_cache (self w3)) = Some 0%nat ∧
  deep 2 (heap hit.2) (PRef 0)
    = TDict [("results"%string, TList [TAtom (PStr "chunk")])] ∧
  deep 2 (heap w3) (PRef 0)
    = TDict [("results"%string, TList [TAtom (PStr "chunk"); TAtom (PStr "junk")])].
Proof.
  split; [vm_compute; reflexivity|]. split.
  - eexists. split; [vm_compute; reflexivity | vm_compute; reflexivity].
  - repeat split; vm_compute; reflexivity.
Qed.

Lemma nested_payload_closed : closed nested_payload.
Proof.
  intros a o Ha. destruct a as [|[|a]]; simpl in Ha; [| |done].
  - injection Ha as <-. intros key b Hb. simpl.
    destruct (decide (key = "results")) as [->|Hne].
    + rewrite lookup_singleton_eq in Hb. injection Hb as <-. lia.
    + by rewrite lookup_singleton_ne in Hb.
  - injection Ha as <-. intros b Hb. simpl.
    apply list_elem_of_singleton in Hb. done.
Qed.

Lemma cache_response_is_shallow_copy_witness :
  let w := start (new_cache 1000 (92 # 100) (Some 3600) true) nested_payload in
  ∃ w1,
    _create_cache_response (Some 0%nat) "exact" None w = (Return 2%nat, w1) ∧
    heap w1 = heap w ++ [ODict (annotated {["results" := PRef 1]} "exact" None)] ∧
    ∀ ms,
      let w2 := (mutate_all 2 ms w1).2 in
      self w2 = self w ∧
      (∀ a, (a < 2)%nat → heap w2 !! a = heap w !! a) ∧
      ∀ fuel a, (a < 2)%nat →
                deep fuel (heap w2) (PRef a) = deep fuel (heap w) (PRef a).
Proof.
  destruct (cache_response_is_shallow_copy 0%nat {["results" := PRef 1]} "exact" None
              (start (new_cache 1000 (92 # 100) (Some 3600) true) nested_payload))
    as (w1 & Hrun & Hheap & Hms).
  - reflexivity.
  - exists w1. split; [exact Hrun|]. split; [exact Hheap|].
    intros ms. destruct (Hms ms) as (Hself & Hold & Hdeep).
    split; [exact Hself|]. split; [exact Hold|].
    apply Hdeep. exact nested_payload_closed.
Defined.

(** C8, the claim as stated fails: the exact entry of "q" has expired, but
    the semantic store holds a fresh entry with the query's embedding, and
    the [get] returns that entry as a semantic hit, not a miss. *)
Lemma expired_exact_entry_then_semantic_hit :
  let r := get ascii_lower ascii_strip id_digest
      unit_cosine late_clock "q" 5 (Some [1%Q; 0%Q]) stale_world in
  (∃ entry, od_get "q|k=5" (exact_cache (self stale_world)) = Some entry ∧
            expired_at late_clock (self stale_world) (ticks stale_world)
              (timestamp entry) = true) ∧
  r.1 = Return (Some 1%nat) ∧
  semantic_hits (stats (self r.2)) = 1 ∧
  misses (stats (self r.2)) = 0.
Proof.
  split; [eexists; split; vm_compute; reflexivity|].
  repeat split; vm_compute; reflexivity.
Qed.

Lemma expired_exact_entry_is_dropped_witness :
  let r := get ascii_lower ascii_strip id_digest
      unit_cosine late_clock "q" 5 None stale_world in
  od_get "q|k=5" (exact_cache (self r.2)) = None ∧
  ttl_expirations (stats (self r.2)) = ttl_expirations (stats (self stale_world)) + 1 ∧
  r = get_semantic unit_cosine late_clock None
        (at_semantic_stage ascii_lower ascii_strip id_digest "q" 5 stale_world) ∧
  (enable_semantic_cache (self stale_world) = false ∨ @None (list Q) = None →
   r.1 = Return None).
Proof.
  apply (expired_exact_entry_is_dropped ascii_lower ascii_strip id_digest
      unit_cosine late_clock "q" 5 None
           stale_world
           {| data := 0%nat; timestamp := late_clock 0; query := "q" |}).
  - reflexivity.
  - vm_compute. reflexivity.
Defined.

Lemma stats_are_consistent_witness :
  let w := start (new_cache 1000 (92 # 100) (Some 3600) true) one_payload in
  let busy :=
    recount {| exact_hits := 20; semantic_hits := 3; misses := 137;
               total_queries := 160; evictions := 0; ttl_expirations := 0 |} w in
  total_queries
    (stats (self (get ascii_lower ascii_strip id_digest unit_cosine second_clock
                    "q" 5 None w).2))
  = total_queries (stats (self w)) + 1 ∧
  ∃ s, get_stats busy = (Return s, busy) ∧
       total_hits s = 23 ∧
       hit_rate_percent s = Float (Finite (nearest_binary64 (1437 # 100))).
Proof.
  intros w busy.
  destruct (stats_are_consistent ascii_lower ascii_strip id_digest unit_cosine
              second_clock "q" 5 None w) as (Htq & _ & Hstats).
  split; [exact Htq|].
  destruct (Hstats busy) as (_ & _ & Hrate).
  destruct Hrate as (s & ratio & rate & n & Hs & Hh & Hdiv & Hmul & Hn & Hr & _).
  - simpl. lia.
  - simpl. lia.
  - exists s. split; [exact Hs|]. split; [exact Hh|]. rewrite Hr.
    vm_compute in Hdiv. injection Hdiv as <-.
    vm_compute in Hmul. injection Hmul as <-.
    vm_compute in Hn. by rewrite Hn.
Defined.

(** The hit rate at sample counts, as CPython reports it: 23 hits in 160
    queries give 14.37 and 49 in 160 give 30.63 (the exact percentages
    14.375 and 30.625 are not what the float product holds); 1 in 32 gives
    3.12 and 3 in 32 give 9.38 (the products 3.125 and 9.375 are exact, and
    the half goes to the even hundredth); 1 in 8 gives 12.5, and no query
    at all gives the int 0. *)
Lemma hit_rate_at_sample_counts :
  let report hits total :=
    hit_rate_percent <$>
      match (get_stats
               (recount {| exact_hits := hits; semantic_hits := 0; misses := 0;
                           total_queries := total; evictions := 0;
                           ttl_expirations := 0 |}
                  (start (new_cache 1000 (92 # 100) (Some 3600) true) one_payload))).1
      with
      | Return s => Some s
      | Raise _ => None
      end in
  report 23 160 = Some (Float (Finite (nearest_binary64 (1437 # 100)))) ∧
  report 49 160 = Some (Float (Finite (nearest_binary64 (3063 # 100)))) ∧
  report 1 32 = Some (Float (Finite (nearest_binary64 (312 # 100)))) ∧
  report 3 32 = Some (Float (Finite (nearest_binary64 (938 # 100)))) ∧
  report 1 8 = Some (Float (Finite (25 # 2))) ∧
  report 0 0 = Some (Int 0) ∧
  nearest_binary64 (1437 # 100) = (8089590830664253 # 562949953421312)%Q.
Proof. repeat split; vm_compute; reflexivity. Qed.

(** C10, the claim as stated fails: the threshold is 0 and the semantic
    store is empty, but the fingerprint is in the exact store, and the [get]
    returns the exact hit. *)
Lemma exact_hit_before_nonpositive_threshold :
  let w := (set ascii_lower ascii_strip id_digest second_clock "q" 0%nat 5 None
              (start (new_cache 1000 0 (Some 3600) true) one_payload)).2 in
  enable_semantic_cache (self w) = true ∧
  (similarity_threshold (self w) <= 0)%Q ∧
  semantic_cache (self w) = [] ∧
  (get ascii_lower ascii_strip id_digest
      unit_cosine second_clock "q" 5 (Some [1%Q; 0%Q]) w).1
  = Return (Some 1%nat).
Proof. repeat split; vm_compute; (reflexivity || discriminate). Qed.

Lemma nonpositive_threshold_raises_witness :
  let w := start (new_cache 1000 0 (Some 3600) true) one_payload in
  ∃ e, (get ascii_lower ascii_strip id_digest
      unit_cosine second_clock "q" 5 (Some [1%Q; 0%Q]) w).1 = Raise e ∧
       (Forall (same_length [1%Q; 0%Q])
          (live second_clock (self w)
             (ticks (at_semantic_stage ascii_lower ascii_strip id_digest
                 "q" 5 w)) (semantic_cache (self w))) →
        e = KeyError).
Proof.
  apply (nonpositive_threshold_raises ascii_lower ascii_strip id_digest
      unit_cosine second_clock "q" 5
           [1%Q; 0%Q] (start (new_cache 1000 0 (Some 3600) true) one_payload)).
  - reflexivity.
  - vm_compute. discriminate.
  - reflexivity.
  - constructor.
Defined.

(** * Further properties of QueryCache *)

Section QueryCacheMore.
Variable lower : string -> string.
Variable strip : string -> string.
Variable sha256_hexdigest : string -> string.
Variable cosine : list Q -> list Q -> Q.
Variable clock : nat -> Q.

Local Abbreviation cache_key := (cache_key lower strip).
Local Abbreviation _generate_query_hash :=
  (_generate_query_hash lower strip sha256_hexdigest).
Local Abbreviation _is_expired := (_is_expired clock).
Local Abbreviation scan := (scan cosine clock).
Local Abbreviation get_semantic := (get_semantic cosine clock).
Local Abbreviation get := (get lower strip sha256_hexdigest cosine clock).
Local Abbreviation set_store := (set_store lower strip sha256_hexdigest clock).
Local Abbreviation set := (set lower strip sha256_hexdigest clock).
Local Abbreviation expired_at := (expired_at clock).
Local Abbreviation live := (live clock).
Local Abbreviation pick := (pick cosine).
Local Abbreviation exact_falls_through :=
  (exact_falls_through lower strip sha256_hexdigest clock).
Local Abbreviation at_semantic_stage := (at_semantic_stage lower strip sha256_hexdigest).
Local Abbreviation remove_expired := (remove_expired clock).

(** ** What the eviction pass removes *)

(** The pass drops entries from the old end of each store only, counts
    each one, and touches nothing else. *)
Lemma ensure_loop_drops rounds : ∀ total_entries w,
  ∃ left c' (n m : nat),
    ensure_loop rounds total_entries w
      = (Return left, {| heap := heap w; self := c'; ticks := ticks w |}) ∧
    exact_cache c' = drop n (exact_cache (self w)) ∧
    semantic_cache c' = drop m (semantic_cache (self w)) ∧
    (n <= length (exact_cache (self w)))%nat ∧
    (m <= length (semantic_cache (self w)))%nat ∧
    evictions (stats c')
      = evictions (stats (self w)) + Z.of_nat n + Z.of_nat m ∧
    exact_hits (stats c') = exact_hits (stats (self w)) ∧
    semantic_hits (stats c') = semantic_hits (stats (self w)) ∧
    misses (stats c') = misses (stats (self w)) ∧
    total_queries (stats c') = total_queries (stats (self w)) ∧
    ttl_expirations (stats c') = ttl_expirations (stats (self w)).
Proof.
  induction rounds as [|rounds IH]; intros total_entries [h c t]; simpl; run.
  - exists total_entries, c, 0%nat, 0%nat.
    destruct (total_entries >? max_size c); (split; [reflexivity|]);
      simpl; repeat split; lia.
  - destruct (total_entries >? max_size c).
    2: { exists total_entries, c, 0%nat, 0%nat. split; [reflexivity|].
         simpl. repeat split; lia. }
    unfold _evict_oldest.
    destruct (len (exact_cache c) >=? len (semantic_cache c)); run.
    + destruct (exact_cache c) as [|oldest rest] eqn:Hex; run.
      * destruct (IH (total_entries - 1) {| heap := h; self := c; ticks := t |})
          as (left & c' & n & m & -> & Hrest).
        exists left, c', n, m. simpl in *. rewrite Hex in Hrest.
        split; [done | exact Hrest].
      * destruct (IH (total_entries - 1)
                    {| heap := h;
                       self := with_stats (with_exact c rest) (incr_evictions (stats c));
                       ticks := t |})
          as (left & c' & n & m & -> & He & Hs & Hn & Hm & Hev & Hrest).
        exists left, c', (S n), m. simpl in *.
        split; [done|]. repeat split; try done; try tauto; lia.
    + destruct (semantic_cache c) as [|oldest rest] eqn:Hsem; run.
      * destruct (IH (total_entries - 1) {| heap := h; self := c; ticks := t |})
          as (left & c' & n & m & -> & Hrest).
        exists left, c', n, m. simpl in *. rewrite Hsem in Hrest.
        split; [done | exact Hrest].
      * destruct (IH (total_entries - 1)
                    {| heap := h;
                       self := with_stats (with_semantic c rest) (incr_evictions (stats c));
                       ticks := t |})
          as (left & c' & n & m & -> & He & Hs & Hn & Hm & Hev & Hrest).
        exists left, c', n, (S m). simpl in *.
        split; [done|]. repeat split; try done; try tauto; lia.
Qed.

(** X1: [set] returns normally on every cache; the entries it removes are
    the oldest ones of each store (what stays is what it wrote, minus a
    prefix), the eviction counter grows by exactly the number of entries
    removed, and the other counters are untouched. *)
Theorem set_evicts_oldest_and_counts query response_data k query_embedding w :
  ∃ w1 w2 (n m : nat),
    set_store query response_data k query_embedding w = (Return tt, w1) ∧
    set query response_data k query_embedding w = (Return tt, w2) ∧
    exact_cache (self w2) = drop n (exact_cache (self w1)) ∧
    semantic_cache (self w2) = drop m (semantic_cache (self w1)) ∧
    (n <= length (exact_cache (self w1)))%nat ∧
    (m <= length (semantic_cache (self w1)))%nat ∧
    evictions (stats (self w2))
      = evictions (stats (self w)) + Z.of_nat n + Z.of_nat m ∧
    exact_hits (stats (self w2)) = exact_hits (stats (self w)) ∧
    semantic_hits (stats (self w2)) = semantic_hits (stats (self w)) ∧
    misses (stats (self w2)) = misses (stats (self w)) ∧
    total_queries (stats (self w2)) = total_queries (stats (self w)) ∧
    ttl_expirations (stats (self w2)) = ttl_expirations (stats (self w)).
Proof.
  pose proof (set_store_spec lower strip sha256_hexdigest clock query response_data k
                query_embedding w) as Hs.
  simpl in Hs. match type of Hs with _ = (_, ?x) => remember x as w1 eqn:Hw1 end.
  assert (Hst : stats (self w1) = stats (self w)) by (subst w1; reflexivity).
  clear Hw1.
  destruct (ensure_loop_drops
              (Z.to_nat (len (exact_cache (self w1)) + len (semantic_cache (self w1))
                         - max_size (self w1)))
              (len (exact_cache (self w1)) + len (semantic_cache (self w1))) w1)
    as (left & c' & n & m & Hrun & Hrest).
  exists w1, {| heap := heap w1; self := c'; ticks := ticks w1 |}, n, m.
  split; [exact Hs|]. split.
  - unfold set. unfold bind at 1. rewrite Hs. unfold _ensure_cache_size. run.
    by rewrite Hrun.
  - simpl. rewrite <- Hst. exact Hrest.
Qed.

(** With an empty semantic store the eviction steps take the oldest exact
    entries until the budget is met. *)
Lemma evict_steps_exact_only c c' :
  rtc spec_evict_step c c' →
  0 <= max_size c →
  semantic_cache c = [] →
  len (exact_cache c') + len (semantic_cache c') <= max_size c' →
  exact_cache c'
    = drop (Z.to_nat (len (exact_cache c) - max_size c)) (exact_cache c) ∧
  semantic_cache c' = [] ∧
  evictions (stats c')
    = evictions (stats c) + Z.max 0 (len (exact_cache c) - max_size c).
Proof.
  induction 1 as [c|c c1 c' Hstep _ IH]; intros Hmax Hsem Hfit.
  - rewrite Hsem in *. unfold len in *. simpl in *.
    replace (Z.to_nat _) with 0%nat by lia. split; [done|]. split; [done|]. lia.
  - destruct Hstep as [c oldest rest Hover Hge Hc|c oldest rest Hover Hlt Hc].
    2: { by rewrite Hsem in Hc. }
    destruct IH as (He & Hs & Hev); [done..|]. simpl in *.
    rewrite Hsem, Hc in *. unfold len in *. simpl in *.
    rewrite He, Hev. split; [|split; [done|]].
    + replace (Z.to_nat (Z.of_nat (S (length rest)) - max_size c))
        with (S (Z.to_nat (Z.of_nat (length rest) - max_size c))) by lia.
      done.
    + lia.
Qed.

(** X2: used without the semantic tier (no embedding given or the tier
    switched off, semantic store empty) and with a budget that is not
    negative, the cache keeps the [max_size] most recently written or
    promoted entries: after [set] the exact store is the store with the
    new entry placed last, minus as many of its oldest entries as exceed
    the budget, each counted as one eviction. *)
Theorem set_keeps_most_recent query response_data k query_embedding w :
  let h := _generate_query_hash query k in
  let entry := {| data := response_data; timestamp := clock (ticks w);
                  query := query |} in
  let written := od_del h (exact_cache (self w)) ++ [(h, entry)] in
  0 <= max_size (self w) →
  semantic_cache (self w) = [] →
  enable_semantic_cache (self w) = false ∨ query_embedding = None →
  ∃ w2,
    set query response_data k query_embedding w = (Return tt, w2) ∧
    exact_cache (self w2)
      = drop (Z.to_nat (len written - max_size (self w))) written ∧
    semantic_cache (self w2) = [] ∧
    evictions (stats (self w2))
      = evictions (stats (self w)) + Z.max 0 (len written - max_size (self w)).
Proof.
  intros h entry written Hmax Hsem Hoff.
  destruct (set_runs lower strip sha256_hexdigest clock query response_data k
              query_embedding w Hmax)
    as (w1 & w2 & Hs & Hset & Hrtc & _ & _ & Hfit).
  rewrite set_store_spec in Hs. injection Hs as <-.
  exists w2. split; [exact Hset|].
  assert (Hsem1 : (if enable_semantic_cache (self w)
                   then match query_embedding with
                        | Some qe =>
                            od_del h
                              (od_setitem h
                                 {| cached_embedding := qe; cached_data := response_data;
                                    cached_timestamp := clock (ticks w);
                                    original_query := query |}
                                 (semantic_cache (self w)))
                            ++ [(h, {| cached_embedding := qe;
                                       cached_data := response_data;
                                       cached_timestamp := clock (ticks w);
                                       original_query := query |})]
                        | None => semantic_cache (self w)
                        end
                   else semantic_cache (self w)) = []).
  { destruct Hoff as [-> | ->]; [done|]. by destruct (enable_semantic_cache (self w)). }
  destruct (evict_steps_exact_only _ _ Hrtc) as (He & Hs & Hev); simpl; try done.
  simpl in He, Hs, Hev. fold h in He, Hev. rewrite od_del_setitem in He, Hev.
  done.
Qed.

(** ** A round trip through the semantic tier *)

Lemma set_ticks query response_data k query_embedding w :
  ticks (set query response_data k query_embedding w).2 = S (ticks w).
Proof.
  unfold set. unfold bind at 1. rewrite set_store_spec.
  unfold _ensure_cache_size. run.
  match goal with
  | |- context [ensure_loop ?r ?t ?w0] =>
      destruct (ensure_loop_returns r t w0) as (left & c' & -> & _)
  end.
  done.
Qed.

Lemma set_evicts_stats query response_data k query_embedding w :
  let w2 := (set query response_data k query_embedding w).2 in
  semantic_hits (stats (self w2)) = semantic_hits (stats (self w)) ∧
  misses (stats (self w2)) = misses (stats (self w)).
Proof.
  intros w2. subst w2. unfold set, bind. rewrite set_store_spec.
  unfold _ensure_cache_size. run.
  match goal with
  | |- context [ensure_loop ?r ?t ?w0] =>
      destruct (ensure_loop_drops r t w0)
        as (left & c' & n & m & -> & _ & _ & _ & _ & _ & _ & Hsh & Hmi & _)
  end.
  simpl in *. done.
Qed.

Lemma evict_steps_absent c c' key :
  rtc spec_evict_step c c' →
  od_get key (exact_cache c) = None → od_get key (exact_cache c') = None.
Proof.
  induction 1 as [c|c c1 c' Hstep _ IH]; intros Hkey; [done|]. apply IH.
  destruct Hstep as [c oldest rest _ _ Hc|c oldest rest _ _ Hc]; simpl; [|done].
  rewrite Hc in Hkey. by apply (od_get_tail_None key (oldest :: rest)).
Qed.

(** A single semantic entry is never the one evicted under a budget of at
    least 1. *)
Lemma evict_steps_single_semantic c c' :
  rtc spec_evict_step c c' →
  1 <= max_size c →
  length (semantic_cache c) = 1%nat →
  semantic_cache c' = semantic_cache c.
Proof.
  induction 1 as [c|c c1 c' Hstep _ IH]; intros Hmax Hone; [done|].
  destruct Hstep as [c oldest rest Hover Hge Hc|c oldest rest Hover Hlt Hc].
  - by apply IH.
  - exfalso. pose proof (len_nonneg (exact_cache c)). unfold len in *. lia.
Qed.

(** X3: on a cache with the semantic tier on, a budget of at least 1 and an
    empty semantic store, [set(q1, payload, k1, e)] followed at once by
    [get(q2, k2, qe)] for a fingerprint the exact store does not hold
    returns a new dict with the payload's items plus [_cache_hit = True],
    [_cache_type = 'semantic'] and [_cache_similarity], provided [qe] has
    the length of [e], their similarity is above 0 and reaches the
    threshold, and the entry is not older than the TTL when scanned; one
    semantic hit is counted. *)
Theorem semantic_roundtrip q1 k1 e q2 k2 qe payload m w :
  let h1 := _generate_query_hash q1 k1 in
  let h2 := _generate_query_hash q2 k2 in
  1 <= max_size (self w) →
  enable_semantic_cache (self w) = true →
  semantic_cache (self w) = [] →
  heap w !! payload = Some (ODict m) →
  h2 ≠ h1 →
  od_get h2 (exact_cache (self w)) = None →
  length e = length qe →
  (0 < cosine qe e)%Q →
  (similarity_threshold (self w) <= cosine qe e)%Q →
  (∀ ttl, ttl_seconds (self w) = Some ttl →
          (clock (S (ticks w)) - clock (ticks w) <= inject_Z ttl)%Q) →
  ∃ w',
    (set q1 payload k1 (Some e);; get q2 k2 (Some qe)) w
      = (Return (Some (length (heap w))), w') ∧
    heap w'
      = heap w ++ [ODict (annotated m "semantic" (Some (cosine qe e)))] ∧
    semantic_hits (stats (self w')) = semantic_hits (stats (self w)) + 1 ∧
    misses (stats (self w')) = misses (stats (self w)).
Proof.
  intros h1 h2 Hmax Hen Hsem Hpayload Hne Habsent Hlen Hpos Hthr Hfresh.
  destruct (set_runs lower strip sha256_hexdigest clock q1 payload k1 (Some e) w)
    as (w1 & w2 & Hs & Hset & Hrtc & Hhp & _ & _); [lia|].
  pose proof (set_ticks q1 payload k1 (Some e) w) as Hticks. rewrite Hset in Hticks.
  simpl in Hticks.
  pose proof (set_evicts_stats q1 payload k1 (Some e) w) as Hst. rewrite Hset in Hst.
  simpl in Hst. destruct Hst as (Hsh & Hmi).
  rewrite set_store_spec in Hs. injection Hs as <-. simpl in Hrtc.
  fold h1 in Hrtc. rewrite Hen, Hsem in Hrtc. simpl in Hrtc.
  rewrite String.eqb_refl in Hrtc. simpl in Hrtc.
  set (se := {| cached_embedding := e; cached_data := payload;
                cached_timestamp := clock (ticks w); original_query := q1 |}) in *.
  destruct (evict_steps_config _ _ Hrtc) as (_ & Httl & Hthr2 & Hen2). simpl in *.
  pose proof (evict_steps_single_semantic _ _ Hrtc) as Hsem2. simpl in Hsem2.
  specialize (Hsem2 ltac:(lia) eq_refl).
  pose proof (evict_steps_absent _ _ h2 Hrtc) as Habs2. simpl in Habs2.
  rewrite od_del_setitem in Habs2.
  assert (Habs : od_get h2 (exact_cache (self w2)) = None).
  { apply Habs2. rewrite od_get_app_None by (by rewrite od_get_del_ne).
    simpl. destruct (String.eqb_spec h2 h1); done. }
  assert (Hfall : exact_falls_through q2 k2 w2 = true).
  { unfold exact_falls_through. fold h2. by rewrite Habs. }
  unfold bind at 1. rewrite Hset. rewrite get_falls_through by done.
  assert (Hstage : at_semantic_stage q2 k2 w2
                   = {| heap := heap w2;
                        self := with_stats (self w2)
                                  (incr_total_queries (stats (self w2)));
                        ticks := ticks w2 |}).
  { unfold at_semantic_stage. simpl. fold h2. by rewrite Habs. }
  rewrite Hstage.
  assert (Hnotexp : expired_at (self w2) (S (ticks w)) (clock (ticks w)) = false).
  { unfold expired_at. rewrite Httl.
    destruct (ttl_seconds (self w)) as [ttl|] eqn:E; [|done].
    apply Qgtb_false. by apply Hfresh. }
  assert (Hlive : live (with_stats (self w2) (incr_total_queries (stats (self w2))))
                    (ticks w2) (semantic_cache (self w2)) = [(h1, se)]).
  { rewrite Hsem2, Hticks. simpl. unfold expired_at in *. simpl. by rewrite Hnotexp. }
  match goal with |- context [get_semantic (Some qe) ?w0] =>
    destruct (get_semantic_hit cosine clock qe w0 h1 se) as [t' Ht']
  end.
  - simpl. by rewrite Hen2.
  - rewrite scan_compatible; simpl; rewrite Hlive; [|by repeat constructor].
    f_equal. simpl.
    destruct (pick_cases cosine qe no_best (h1, se)) as [[_ Hle]|[_ ->]]; [|done].
    exfalso. simpl in Hle. by apply (Qlt_not_le _ _ Hpos).
  - simpl. by rewrite Hthr2.
  - simpl. rewrite Hsem2. simpl. by rewrite String.eqb_refl.
  - rewrite Ht'. unfold bind.
    rewrite (_create_cache_response_spec _ m) by (simpl; by rewrite Hhp).
    simpl. rewrite Hhp. eexists. split; [reflexivity|]. simpl.
    split; [done|]. split; [by rewrite Hsh | by rewrite Hmi].
Qed.

(** ** What [get] does to the cache *)

(** X4: an exact hit (fingerprint present, entry not older than the TTL at
    the clock reading, payload a dict) returns a new dict with the
    payload's items plus the two provenance items, moves the entry to the
    most recent end of the exact store, counts one query and one exact hit
    and leaves the semantic store alone -- whatever embedding is passed. *)
Theorem exact_hit_promotes query k query_embedding w entry m :
  let h := _generate_query_hash query k in
  od_get h (exact_cache (self w)) = Some entry →
  expired_at (self w) (ticks w) (timestamp entry) = false →
  heap w !! data entry = Some (ODict m) →
  ∃ w',
    get query k query_embedding w = (Return (Some (length (heap w))), w') ∧
    heap w' = heap w ++ [ODict (<["_cache_type" := PStr "exact"]>
                                  (<["_cache_hit" := PBool true]> m))] ∧
    exact_cache (self w') = od_del h (exact_cache (self w)) ++ [(h, entry)] ∧
    semantic_cache (self w') = semantic_cache (self w) ∧
    stats (self w') = incr_exact_hits (incr_total_queries (stats (self w))).
Proof.
  intros h Hget Hexp Hd. eexists. split.
  - by apply (get_exact_hit lower strip sha256_hexdigest cosine clock query k
                query_embedding w entry m).
  - done.
Qed.

Lemma _create_cache_response_heap d cache_type similarity w :
  ∃ l, heap (_create_cache_response d cache_type similarity w).2 = heap w ++ l.
Proof.
  destruct w as [h c t]. unfold _create_cache_response, obj_copy, dict_setitem.
  destruct d as [d|]; run; [|by exists []; rewrite app_nil_r].
  destruct (h !! d) as [o|]; run; [|by exists []; rewrite app_nil_r].
  rewrite heap_snoc_lookup. destruct o as [m|l]; run; [|by eexists].
  rewrite heap_snoc_insert, heap_snoc_lookup. run.
  rewrite heap_snoc_insert. destruct similarity as [s|]; run; [|by eexists].
  rewrite heap_snoc_lookup. run. rewrite heap_snoc_insert. by eexists.
Qed.

(** The counters after the semantic stage, by its outcome. *)
Lemma get_semantic_counts query_embedding w :
  let r := get_semantic query_embedding w in
  let s := stats (self w) in
  let s' := stats (self r.2) in
  evictions s' = evictions s ∧ exact_hits s' = exact_hits s ∧
  match r.1 with
  | Return (Some _) => semantic_hits s' = semantic_hits s + 1 ∧ misses s' = misses s
  | Return None => semantic_hits s' = semantic_hits s ∧ misses s' = misses s + 1
  | Raise _ => misses s' = misses s
  end.
Proof.
  intros r s s'. subst r s s'. unfold get_semantic. run.
  destruct (enable_semantic_cache (self w)); [|done].
  destruct query_embedding as [qe|]; [|done].
  destruct (scan_world cosine clock qe (semantic_cache (self w)) no_best w) as [t' Hw'].
  fold no_best. destruct (scan _ _ _ _) as [[best|e] w']; simpl in Hw'; subst w';
    simpl; [|done].
  destruct (Qgeb _ _); [|done].
  unfold semantic_move_to_end. run.
  destruct (best_hash best) as [h|]; run; [|done].
  destruct (od_move_to_end h (semantic_cache (self w))) as [d|e]; run; [|done].
  match goal with
  | |- context [_create_cache_response ?d ?ty ?sim ?w0] =>
      pose proof (_create_cache_response_self d ty sim w0) as Hself;
      destruct (_create_cache_response d ty sim w0) as [[r|e] w']
  end; simpl in *; by rewrite Hself.
Qed.

(** X5: the counters tell the outcome of every [get]: a [get] that returns
    a payload has counted exactly one hit (exact or semantic) and no miss;
    a [get] that returns [None] has counted exactly one miss and no hit; a
    [get] that raises has counted no miss.  No [get] counts an eviction,
    and a [get] counts at most one expiration. *)
Theorem get_counts_its_outcome query k query_embedding w :
  let r := get query k query_embedding w in
  let s := stats (self w) in
  let s' := stats (self r.2) in
  evictions s' = evictions s ∧
  (ttl_expirations s' = ttl_expirations s ∨
   ttl_expirations s' = ttl_expirations s + 1) ∧
  match r.1 with
  | Return (Some _) =>
      exact_hits s' + semantic_hits s' = exact_hits s + semantic_hits s + 1 ∧
      misses s' = misses s
  | Return None =>
      exact_hits s' = exact_hits s ∧ semantic_hits s' = semantic_hits s ∧
      misses s' = misses s + 1
  | Raise _ => misses s' = misses s
  end.
Proof.
  intros r s s'. subst r s s'.
  destruct (exact_falls_through query k w) eqn:Hfall.
  - rewrite get_falls_through by done.
    pose proof (get_semantic_counts query_embedding (at_semantic_stage query k w))
      as (Hev & Heh & Hout).
    destruct (get_semantic_frame cosine clock query_embedding
                (at_semantic_stage query k w)) as (_ & _ & Httl).
    simpl in Hev, Heh, Hout, Httl. rewrite Hev, Httl.
    assert (Hst : evictions (stats (self (at_semantic_stage query k w)))
                  = evictions (stats (self w)) ∧
                  exact_hits (stats (self (at_semantic_stage query k w)))
                  = exact_hits (stats (self w)) ∧
                  semantic_hits (stats (self (at_semantic_stage query k w)))
                  = semantic_hits (stats (self w)) ∧
                  misses (stats (self (at_semantic_stage query k w)))
                  = misses (stats (self w)) ∧
                  (ttl_expirations (stats (self (at_semantic_stage query k w)))
                   = ttl_expirations (stats (self w)) ∨
                   ttl_expirations (stats (self (at_semantic_stage query k w)))
                   = ttl_expirations (stats (self w)) + 1)).
    { unfold at_semantic_stage. simpl.
      destruct (od_get _ (exact_cache (self w))); simpl; repeat split; try done;
        (by left) || (by right). }
    destruct Hst as (He & Hx & Hs & Hm & Ht).
    split; [done|]. split; [done|].
    destruct (get_semantic _ _).1 as [[r|]|e]; lia.
  - unfold exact_falls_through in Hfall. unfold get. run.
    destruct (od_get _ (exact_cache (self w))) as [entry|] eqn:Hget; [|done].
    rewrite _is_expired_spec. simpl. unfold expired_at in *. simpl. rewrite Hfall.
    unfold exact_move_to_end, od_move_to_end. run. rewrite Hget. run.
    match goal with
    | |- context [_create_cache_response ?d ?ty ?sim ?w0] =>
        pose proof (_create_cache_response_self d ty sim w0) as Hself;
        destruct (_create_cache_response d ty sim w0) as [[r|e] w']
    end; simpl in *; rewrite Hself; simpl; repeat split; try lia; by left.
Qed.

Lemma od_del_perm {V} k (v : V) d :
  unique_keys d = true → od_get k d = Some v → d ≡ₚ (k, v) :: od_del k d.
Proof.
  induction d as [|[k' v'] d IH]; simpl; [done|].
  destruct (od_get k' d) eqn:Hk'; [done|]. intros Hu.
  destruct (String.eqb_spec k k') as [->|Hne].
  - intros [= ->]. by rewrite od_del_absent.
  - intros Hget. rewrite (IH Hu Hget) at 1. apply Permutation_swap.
Qed.

Lemma od_promote_perm {V} k (v : V) d :
  unique_keys d = true → od_get k d = Some v → od_del k d ++ [(k, v)] ≡ₚ d.
Proof.
  intros Hu Hget. rewrite (od_del_perm k v d Hu Hget) at 2.
  symmetry. apply Permutation_cons_append.
Qed.

(** The semantic stage only reorders the semantic store and only adds
    objects to the heap. *)
Lemma get_semantic_stores query_embedding w :
  unique_keys (semantic_cache (self w)) = true →
  let w' := (get_semantic query_embedding w).2 in
  semantic_cache (self w') ≡ₚ semantic_cache (self w) ∧
  ∃ l, heap w' = heap w ++ l.
Proof.
  intros Hu. unfold get_semantic. run.
  assert (Hnil : ∃ l : Heap, heap w = heap w ++ l) by (exists []; by rewrite app_nil_r).
  destruct (enable_semantic_cache (self w)); [|done].
  destruct query_embedding as [qe|]; [|done].
  destruct (scan_world cosine clock qe (semantic_cache (self w)) no_best w) as [t' Hw'].
  fold no_best. destruct (scan _ _ _ _) as [[best|e] w']; simpl in Hw'; subst w';
    simpl; [|done].
  destruct (Qgeb _ _); [|done].
  unfold semantic_move_to_end. run.
  destruct (best_hash best) as [h|]; run; [|done].
  unfold od_move_to_end.
  destruct (od_get h (semantic_cache (self w))) as [v|] eqn:Hget; run; [|done].
  match goal with
  | |- context [_create_cache_response ?d ?ty ?sim ?w0] =>
      pose proof (_create_cache_response_self d ty sim w0) as Hself;
      pose proof (_create_cache_response_heap d ty sim w0) as Hheap;
      destruct (_create_cache_response d ty sim w0) as [[r|e] w']
  end; simpl in *; rewrite Hself; simpl; (split; [by apply od_promote_perm | done]).
Qed.

(** X6: a [get] never adds an entry and never evicts.  On a cache whose
    stores have distinct keys, it leaves the semantic store with the same
    entries (an expired semantic entry is skipped, never removed; a hit
    only reorders), and the exact store with the same entries or with the
    one expired entry of the fingerprint removed; the objects already in
    the heap stay as they are. *)
Theorem get_never_grows_the_cache query k query_embedding w :
  let h := _generate_query_hash query k in
  let w' := (get query k query_embedding w).2 in
  keys_unique (self w) →
  semantic_cache (self w') ≡ₚ semantic_cache (self w) ∧
  (exact_cache (self w') ≡ₚ exact_cache (self w) ∨
   ∃ entry, od_get h (exact_cache (self w)) = Some entry ∧
            expired_at (self w) (ticks w) (timestamp entry) = true ∧
            exact_cache (self w) ≡ₚ (h, entry) :: exact_cache (self w')) ∧
  (∃ l, heap w' = heap w ++ l) ∧
  max_size (self w') = max_size (self w).
Proof.
  intros h w' [Hue Hus]. subst w'.
  destruct (exact_falls_through query k w) eqn:Hfall.
  - rewrite get_falls_through by done.
    destruct (at_semantic_stage_config lower strip sha256_hexdigest query k w)
      as (Hhp & Hsem & _).
    destruct (get_semantic_stores query_embedding (at_semantic_stage query k w))
      as (Hperm & l & Hl); [by rewrite Hsem|].
    destruct (get_semantic_frame cosine clock query_embedding
                (at_semantic_stage query k w)) as (Hex & _ & _).
    simpl in Hperm, Hl, Hex. rewrite Hsem in Hperm. rewrite Hhp in Hl.
    split; [exact Hperm|]. split.
    + rewrite Hex. unfold exact_falls_through in Hfall.
      unfold at_semantic_stage. simpl. fold h in Hfall |- *.
      destruct (od_get h (exact_cache (self w))) as [entry|] eqn:Hget; simpl.
      * right. exists entry. split; [done|]. split; [done|]. by apply od_del_perm.
      * by left.
    + split; [by exists l|].
      assert (Hms : ∀ emb w0, max_size (self (get_semantic emb w0).2) = max_size (self w0)).
      { clear. intros emb w0. unfold get_semantic. run.
        destruct (enable_semantic_cache (self w0)); [|done].
        destruct emb as [qe|]; [|done].
        destruct (scan_world cosine clock qe (semantic_cache (self w0)) no_best w0)
          as [t' Hw'].
        fold no_best. destruct (scan _ _ _ _) as [[best|e] w']; simpl in Hw'; subst w';
          simpl; [|done].
        destruct (Qgeb _ _); [|done].
        unfold semantic_move_to_end. run.
        destruct (best_hash best) as [h|]; run; [|done].
        destruct (od_move_to_end h (semantic_cache (self w0))) as [d|e]; run; [|done].
        match goal with
        | |- context [_create_cache_response ?d ?ty ?sim ?w1] =>
            pose proof (_create_cache_response_self d ty sim w1) as Hself;
            destruct (_create_cache_response d ty sim w1) as [[r|e] w']
        end; simpl in *; by rewrite Hself. }
      rewrite Hms. unfold at_semantic_stage. simpl.
      by destruct (od_get _ (exact_cache (self w))).
  - unfold exact_falls_through in Hfall. unfold get. run. fold h in Hfall |- *.
    destruct (od_get h (exact_cache (self w))) as [entry|] eqn:Hget; [|done].
    rewrite _is_expired_spec. simpl. unfold expired_at in *. simpl. rewrite Hfall.
    unfold exact_move_to_end, od_move_to_end. run. rewrite Hget. run.
    match goal with
    | |- context [_create_cache_response ?d ?ty ?sim ?w0] =>
        pose proof (_create_cache_response_self d ty sim w0) as Hself;
        pose proof (_create_cache_response_heap d ty sim w0) as Hheap;
        destruct (_create_cache_response d ty sim w0) as [[r|e] w']
    end; simpl in *; rewrite Hself; simpl;
      (split; [done|]); (split; [left; by apply od_promote_perm | done]).
Qed.

(** ** [clear] and [remove_expired] *)

(** X7: [clear] empties both stores and keeps the counters.  The [get]
    that follows finds nothing: it returns [None] and counts a miss --
    unless the semantic tier is on, an embedding is passed and the
    threshold is 0 or less, in which case it raises [KeyError] and counts
    no miss. *)
Theorem get_after_clear query k query_embedding w :
  let r := (clear;; get query k query_embedding) w in
  let crash :=
    match enable_semantic_cache (self w), query_embedding with
    | true, Some _ => Qgeb 0 (similarity_threshold (self w))
    | _, _ => false
    end in
  (clear w).1 = Return tt ∧
  stats (self (clear w).2) = stats (self w) ∧
  exact_cache (self r.2) = [] ∧
  semantic_cache (self r.2) = [] ∧
  r.1 = (if crash then Raise KeyError else Return None) ∧
  total_queries (stats (self r.2)) = total_queries (stats (self w)) + 1 ∧
  misses (stats (self r.2)) = misses (stats (self w)) + (if crash then 0 else 1).
Proof.
  destruct w as [hp c t]. unfold clear, get. run. unfold get_semantic. run.
  destruct (enable_semantic_cache c); [|simpl; repeat split; lia].
  destruct query_embedding as [qe|]; [|simpl; repeat split; lia]. run.
  destruct (Qgeb 0 (similarity_threshold c)); [|simpl; repeat split; lia].
  unfold semantic_move_to_end. run. repeat split; lia.
Qed.

Lemma filter_all {A} (f : A → bool) (l : list A) :
  (∀ x, In x l → f x = true) → List.filter f l = l.
Proof.
  induction l as [|x l IH]; simpl; [done|]. intros H.
  rewrite (H x) by (by left). rewrite IH; [done|]. intros y Hy. apply H. by right.
Qed.

Lemma od_del_filter {V} k (d : odict V) :
  od_del k d = List.filter (λ kv, negb (String.eqb k kv.1)) d.
Proof.
  induction d as [|[k' v] d IH]; simpl; [done|].
  destruct (String.eqb k k'); simpl; by rewrite IH.
Qed.

Lemma fold_od_del_filter {V} keys : ∀ d : odict V,
  fold_left (λ d k, od_del k d) keys d
  = List.filter (λ kv, negb (existsb (String.eqb kv.1) keys)) d.
Proof.
  induction keys as [|k keys IH]; intros d; simpl.
  - symmetry. by apply filter_all.
  - rewrite IH, od_del_filter. induction d as [|[k' v] d IHd]; simpl; [done|].
    rewrite (String.eqb_sym k' k).
    destruct (String.eqb k k'); simpl; [done|].
    destruct (existsb _ keys); simpl; by rewrite IHd.
Qed.

Lemma unique_keys_In_eq {V} (d : odict V) k v v' :
  unique_keys d = true → In (k, v) d → In (k, v') d → v = v'.
Proof.
  intros Hu H1 H2. apply (od_get_In_unique k v d Hu) in H1.
  apply (od_get_In_unique k v' d Hu) in H2. congruence.
Qed.

(** On a dict, deleting the keys of the entries selected by [p] leaves the
    entries [p] does not select. *)
Lemma sweep_keeps_unselected {V} (p : string * V → bool) (d : odict V) :
  unique_keys d = true →
  fold_left (λ d k, od_del k d) (map fst (List.filter p d)) d
  = List.filter (λ kv, negb (p kv)) d.
Proof.
  intros Hu. rewrite fold_od_del_filter. apply filter_ext_in.
  intros [k v] Hin. f_equal. simpl.
  destruct (p (k, v)) eqn:Hp.
  - apply existsb_exists. exists k. split; [|apply String.eqb_refl].
    apply in_map_iff. exists (k, v). split; [done|]. by apply filter_In.
  - destruct (existsb _ _) eqn:E; [|done]. exfalso.
    apply existsb_exists in E as (k' & Hk' & Heq). apply String.eqb_eq in Heq. subst k'.
    apply in_map_iff in Hk' as ([k' v'] & Hfst & Hin'). simpl in Hfst. subst k'.
    apply filter_In in Hin' as (Hin' & Hp').
    rewrite (unique_keys_In_eq d k v v' Hu Hin Hin') in Hp. congruence.
Qed.

Lemma unique_keys_NoDup {V} (d : odict V) :
  unique_keys d = true → List.NoDup (map fst d).
Proof.
  induction d as [|[k v] d IH]; simpl; [constructor|].
  destruct (od_get k d) eqn:Hk; [done|]. intros Hu. constructor; [|by apply IH].
  intros Hin. apply in_map_iff in Hin as ([k' v'] & Hfst & Hin). simpl in Hfst. subst k'.
  by rewrite (od_get_In_unique k v' d Hu Hin) in Hk.
Qed.

Lemma selected_keys_NoDup {V} (p : string * V → bool) (d : odict V) :
  unique_keys d = true → List.NoDup (map fst (List.filter p d)).
Proof.
  induction d as [|[k v] d IH]; simpl; [constructor|].
  destruct (od_get k d) eqn:Hk; [done|]. intros Hu.
  destruct (p (k, v)); simpl; [|by apply IH]. constructor; [|by apply IH].
  intros Hin. apply in_map_iff in Hin as ([k' v'] & Hfst & Hin). simpl in Hfst. subst k'.
  apply filter_In in Hin as (Hin & _).
  by rewrite (od_get_In_unique k v' d Hu Hin) in Hk.
Qed.

Lemma selected_keys_present {V} (p : string * V → bool) (d : odict V) k :
  unique_keys d = true → In k (map fst (List.filter p d)) → od_get k d ≠ None.
Proof.
  intros Hu Hin. apply in_map_iff in Hin as ([k' v'] & Hfst & Hin). simpl in Hfst. subst k'.
  apply filter_In in Hin as (Hin & _). by rewrite (od_get_In_unique k v' d Hu Hin).
Qed.

Lemma add_expirations_S n s :
  add_expirations n (incr_ttl_expirations s) = add_expirations (S n) s.
Proof. unfold add_expirations, incr_ttl_expirations. simpl. f_equal. lia. Qed.

Lemma add_expirations_0 c : with_stats c (add_expirations 0 (stats c)) = c.
Proof.
  destruct c as [? ? ? ? ? ? []]. unfold with_stats, add_expirations. simpl.
  do 2 f_equal. lia.
Qed.

(** The deletion loop over keys that are present and distinct. *)
Lemma del_expired_exact keys : ∀ w,
  List.NoDup keys →
  (∀ k, In k keys → od_get k (exact_cache (self w)) ≠ None) →
  del_expired ExactStore keys w
  = (Return tt,
     {| heap := heap w;
        self := with_stats
                  (with_exact (self w)
                     (fold_left (λ d k, od_del k d) keys (exact_cache (self w))))
                  (add_expirations (length keys) (stats (self w)));
        ticks := ticks w |}).
Proof.
  induction keys as [|k keys IH]; intros [hp c t] Hnd Hin; simpl.
  - run. rewrite <- (add_expirations_0 c) at 1. by destruct c.
  - apply NoDup_cons_iff in Hnd as [Hk Hnd]. unfold del_item. run.
    destruct (od_get k (exact_cache c)) eqn:Hget; [|by destruct (Hin k (or_introl eq_refl))].
    run. rewrite IH; simpl; [|done|].
    + by rewrite add_expirations_S.
    + intros k' Hk'. rewrite od_get_del_ne by (by intros ->). apply Hin. by right.
Qed.

Lemma del_expired_semantic keys : ∀ w,
  List.NoDup keys →
  (∀ k, In k keys → od_get k (semantic_cache (self w)) ≠ None) →
  del_expired SemanticStore keys w
  = (Return tt,
     {| heap := heap w;
        self := with_stats
                  (with_semantic (self w)
                     (fold_left (λ d k, od_del k d) keys (semantic_cache (self w))))
                  (add_expirations (length keys) (stats (self w)));
        ticks := ticks w |}).
Proof.
  induction keys as [|k keys IH]; intros [hp c t] Hnd Hin; simpl.
  - run. rewrite <- (add_expirations_0 c) at 1. by destruct c.
  - apply NoDup_cons_iff in Hnd as [Hk Hnd]. unfold del_item. run.
    destruct (od_get k (semantic_cache c)) eqn:Hget;
      [|by destruct (Hin k (or_introl eq_refl))].
    run. rewrite IH; simpl; [|done|].
    + by rewrite add_expirations_S.
    + intros k' Hk'. rewrite od_get_del_ne by (by intros ->). apply Hin. by right.
Qed.

(** X8: on a cache whose stores have distinct keys, [remove_expired]
    returns normally and leaves in each store exactly the entries that are
    not older than the TTL at its single clock reading, in their order;
    [ttl_expirations] grows by the number of entries removed and no other
    counter moves.  Without a TTL nothing changes and the clock is not
    read. *)
Theorem remove_expired_sweeps w :
  let fresh_exact := λ kv : string * ExactEntry,
    negb (expired_at (self w) (ticks w) (timestamp kv.2)) in
  let fresh_semantic := λ kv : string * SemanticEntry,
    negb (expired_at (self w) (ticks w) (cached_timestamp kv.2)) in
  keys_unique (self w) →
  ∃ w',
    remove_expired w = (Return tt, w') ∧
    exact_cache (self w') = List.filter fresh_exact (exact_cache (self w)) ∧
    semantic_cache (self w')
      = List.filter fresh_semantic (semantic_cache (self w)) ∧
    ttl_expirations (stats (self w'))
      = ttl_expirations (stats (self w))
        + (len (exact_cache (self w)) - len (exact_cache (self w')))
        + (len (semantic_cache (self w)) - len (semantic_cache (self w'))) ∧
    exact_hits (stats (self w')) = exact_hits (stats (self w)) ∧
    semantic_hits (stats (self w')) = semantic_hits (stats (self w)) ∧
    misses (stats (self w')) = misses (stats (self w)) ∧
    total_queries (stats (self w')) = total_queries (stats (self w)) ∧
    evictions (stats (self w')) = evictions (stats (self w)) ∧
    heap w' = heap w ∧
    ticks w' = tick_after (self w) (ticks w) ∧
    (ttl_seconds (self w) = None → w' = w).
Proof.
  intros fresh_exact fresh_semantic [Hue Hus]. subst fresh_exact fresh_semantic.
  destruct w as [hp c t]. unfold remove_expired, expired_at, tick_after. simpl.
  run. destruct (ttl_seconds c) as [ttl|] eqn:Httl.
  2: { eexists. split; [reflexivity|]. simpl.
       rewrite !filter_all by done. repeat split; lia. }
  unfold time_time. run.
  set (pe := λ kv : string * ExactEntry,
         Qgtb (clock t - timestamp kv.2) (inject_Z ttl)).
  set (ps := λ kv : string * SemanticEntry,
         Qgtb (clock t - cached_timestamp kv.2) (inject_Z ttl)).
  rewrite (del_expired_exact (map fst (List.filter pe (exact_cache c))));
    [|by apply selected_keys_NoDup
     |intros k Hk; by apply (selected_keys_present pe)].
  simpl.
  rewrite (del_expired_semantic (map fst (List.filter ps (semantic_cache c))));
    [|by apply selected_keys_NoDup
     |intros k Hk; by apply (selected_keys_present ps)].
  simpl. rewrite !sweep_keeps_unselected by done.
  eexists. split; [reflexivity|]. simpl.
  assert (Hlen : ∀ {A} (p : A → bool) (l : list A),
             length l = (length (List.filter p l)
                         + length (List.filter (λ x, negb (p x)) l))%nat).
  { clear. intros A p l. induction l as [|x l IH]; simpl; [done|].
    destruct (p x); simpl; lia. }
  pose proof (Hlen _ pe (exact_cache c)) as He.
  pose proof (Hlen _ ps (semantic_cache c)) as Hs.
  unfold len. rewrite !length_map. repeat split; try done; lia.
Qed.

(** ** Fingerprints *)

Lemma append_inv_head (s a b : string) :
  (s ++ a)%string = (s ++ b)%string → a = b.
Proof. induction s as [|c s IH]; simpl; [done|]. intros [= H]. by apply IH. Qed.

Lemma str_of_int_inj k k' : str_of_int k = str_of_int k' → k = k'.
Proof.
  unfold str_of_int. intros H. apply DecimalZ.to_int_inj.
  assert (Hparse : ∀ z, NilZero.int_of_string (NilZero.string_of_int (Z.to_int z))
                        = Some (Z.to_int z)).
  { intros z. apply NilZero.isi; destruct z; simpl; try done;
      intros [= Hp]; by apply (DecimalPos.Unsigned.to_uint_nonnil p). }
  pose proof (Hparse k) as Hk. rewrite H, Hparse in Hk. by injection Hk.
Qed.

Lemma od_get_drop_None {V} key n (d : odict V) :
  od_get key d = None → od_get key (drop n d) = None.
Proof.
  revert d. induction n as [|n IH]; intros d; [done|].
  destruct d as [|[k' v] d]; simpl; [done|].
  destruct (String.eqb key k'); [done|]. apply IH.
Qed.

(** X9: the result count is part of what is hashed: for one query text,
    two different [k] give the digest two different strings.  So unless
    sha256 collides on these two strings, an answer stored with
    [set(q, payload, k)] is not what [get(q, k')] finds in the exact
    store: with no embedding passed and no earlier entry for [(q, k')],
    that [get] returns [None]. *)
Theorem fingerprint_depends_on_k query payload k k' query_embedding w :
  k ≠ k' →
  cache_key query k ≠ cache_key query k' ∧
  (sha256_hexdigest (cache_key query k) ≠ sha256_hexdigest (cache_key query k') →
   od_get (_generate_query_hash query k') (exact_cache (self w)) = None →
   ((set query payload k query_embedding;; get query k' None) w).1 = Return None).
Proof.
  intros Hk. split.
  { unfold cache_key. intros H.
    apply append_inv_head in H. apply (append_inv_head "|k=") in H.
    by apply str_of_int_inj in H. }
  intros Hne Habsent.
  change (_generate_query_hash query k ≠ _generate_query_hash query k') in Hne.
  set (h := _generate_query_hash query k) in *.
  set (h' := _generate_query_hash query k') in *.
  unfold set. unfold bind at 1 2. rewrite set_store_spec.
  unfold _ensure_cache_size. run.
  match goal with
  | |- context [ensure_loop ?r ?t ?w0] =>
      destruct (ensure_loop_drops r t w0) as (left & c' & n & m & -> & He & _)
  end.
  simpl in He. fold h in He. rewrite od_del_setitem in He.
  assert (Hget : od_get h' (exact_cache c') = None).
  { rewrite He. apply od_get_drop_None.
    rewrite od_get_app_None by (rewrite od_get_del_ne; [done | by intros ->]).
    simpl. destruct (String.eqb_spec h' h) as [E|E]; [by rewrite E in Hne | done]. }
  unfold get. run. fold h'. rewrite Hget. unfold get_semantic. run.
  by destruct (enable_semantic_cache c').
Qed.

Lemma lower_ascii_idem c : lower_ascii (lower_ascii c) = lower_ascii c.
Proof. destruct c as [[] [] [] [] [] [] [] []]; reflexivity. Qed.

Lemma lower_ascii_space c : is_space c = true → lower_ascii c = c.
Proof. destruct c as [[] [] [] [] [] [] [] []]; simpl; done. Qed.

(** [lstrip_list] removes a prefix of whitespace. *)
Lemma lstrip_list_split l :
  ∃ p, l = p ++ lstrip_list l ∧ Forall (λ c, is_space c = true) p.
Proof.
  induction l as [|c l (p & Hl & Hp)]; simpl.
  - by exists [].
  - destruct (is_space c) eqn:E.
    + exists (c :: p). split; [by rewrite Hl at 1 | by constructor].
    + by exists [].
Qed.

Lemma lstrip_list_idem l : lstrip_list (lstrip_list l) = lstrip_list l.
Proof.
  induction l as [|c l IH]; simpl; [done|].
  destruct (is_space c) eqn:E; [done|]. simpl. by rewrite E.
Qed.

(** A list that [lstrip_list] leaves alone keeps that property when a
    non-empty front part of it is taken. *)
Lemma lstrip_list_front y z :
  lstrip_list (y ++ z) = y ++ z → y ≠ [] → lstrip_list y = y.
Proof.
  destruct y as [|c y]; [done|]. simpl. intros H _.
  destruct (is_space c) eqn:E; [|done].
  exfalso. destruct (lstrip_list_split (y ++ z)) as (p & Hsplit & _).
  rewrite H in Hsplit. apply (f_equal length) in Hsplit.
  rewrite !length_app in Hsplit. simpl in Hsplit. rewrite ?length_app in Hsplit. lia.
Qed.

(** Stripping both ends is idempotent. *)
Lemma strip_list_idem l :
  let s := rev (lstrip_list (rev (lstrip_list l))) in
  rev (lstrip_list (rev (lstrip_list s))) = s.
Proof.
  intros s. subst s.
  set (A := lstrip_list l). set (B := lstrip_list (rev A)).
  assert (HB : lstrip_list B = B) by apply lstrip_list_idem.
  assert (HrB : lstrip_list (rev B) = rev B).
  { destruct (lstrip_list_split (rev A)) as (p & Hsplit & _). fold B in Hsplit.
    destruct B as [|b B'] eqn:EB; [done|].
    apply (lstrip_list_front (rev (b :: B')) (rev p)).
    - rewrite <- rev_app_distr, <- Hsplit, rev_involutive. apply lstrip_list_idem.
    - simpl. by destruct (rev B'). }
  by rewrite HrB, rev_involutive, HB.
Qed.

Lemma lstrip_list_lowered l :
  Forall (λ c, lower_ascii c = c) l → Forall (λ c, lower_ascii c = c) (lstrip_list l).
Proof.
  induction 1 as [|c l Hc Hl IH]; simpl; [constructor|].
  destruct (is_space c); [done | by constructor].
Qed.

Lemma map_lower_fixed l :
  Forall (λ c, lower_ascii c = c) l → map lower_ascii l = l.
Proof. induction 1 as [|c l Hc Hl IH]; simpl; [done|]. by rewrite Hc, IH. Qed.

Lemma normalise_idem query :
  ascii_strip (ascii_lower (ascii_strip (ascii_lower query)))
  = ascii_strip (ascii_lower query).
Proof.
  unfold ascii_strip, ascii_lower. rewrite !list_ascii_of_string_of_list_ascii.
  set (L := map lower_ascii (list_ascii_of_string query)).
  assert (HL : Forall (λ c, lower_ascii c = c) L).
  { subst L. apply Forall_forall. intros c Hc.
    apply list_elem_of_In, in_map_iff in Hc as (c0 & <- & _). apply lower_ascii_idem. }
  rewrite map_lower_fixed.
  - f_equal. apply strip_list_idem.
  - apply Forall_rev, lstrip_list_lowered, Forall_rev, lstrip_list_lowered, HL.
Qed.

Lemma list_ascii_of_append (a b : string) :
  list_ascii_of_string (a ++ b)
  = list_ascii_of_string a ++ list_ascii_of_string b.
Proof. induction a as [|c a IH]; simpl; [done|]. by rewrite IH. Qed.

(** Padding with one whitespace character in front or behind, and
    normalising, change nothing of the normal form. *)
Lemma ascii_normal_form query c :
  is_space c = true →
  ascii_strip (ascii_lower (String c query)) = ascii_strip (ascii_lower query) ∧
  ascii_strip (ascii_lower (query ++ String c ""))
  = ascii_strip (ascii_lower query).
Proof.
  intros Hc. split.
  - unfold ascii_strip, ascii_lower. rewrite !list_ascii_of_string_of_list_ascii.
    simpl. rewrite (lower_ascii_space c Hc). simpl. by rewrite Hc.
  - unfold ascii_strip, ascii_lower. rewrite !list_ascii_of_string_of_list_ascii.
    rewrite list_ascii_of_append. simpl.
    rewrite map_app. simpl. rewrite (lower_ascii_space c Hc).
    set (L := map lower_ascii (list_ascii_of_string query)).
    assert (Hl : lstrip_list (L ++ [c])
                 = match lstrip_list L with [] => [] | _ => lstrip_list L ++ [c] end).
    { clear -Hc. induction L as [|a L IH]; simpl; [by rewrite Hc|].
      destruct (is_space a); [exact IH|]. done. }
    rewrite Hl. destruct (lstrip_list L) as [|a L'] eqn:EL; [done|].
    rewrite rev_app_distr. simpl. by rewrite Hc.
Qed.

(** ASCII text stays ASCII text under the two operations. *)
Lemma is_ascii_Forall s :
  is_ascii s = true
  ↔ Forall (λ c, (nat_of_ascii c <? 128)%nat = true) (list_ascii_of_string s).
Proof.
  unfold is_ascii. rewrite forallb_forall, Forall_forall.
  by setoid_rewrite list_elem_of_In.
Qed.

Lemma lower_ascii_below c :
  (nat_of_ascii c <? 128)%nat = true → (nat_of_ascii (lower_ascii c) <? 128)%nat = true.
Proof. destruct c as [[] [] [] [] [] [] [] []]; simpl; done. Qed.

Lemma is_space_below c : is_space c = true → (nat_of_ascii c <? 128)%nat = true.
Proof. destruct c as [[] [] [] [] [] [] [] []]; simpl; done. Qed.

Lemma is_ascii_lower s : is_ascii s = true → is_ascii (ascii_lower s) = true.
Proof.
  rewrite !is_ascii_Forall. unfold ascii_lower.
  rewrite list_ascii_of_string_of_list_ascii. intros H.
  apply Forall_map. eapply Forall_impl; [exact H|]. intros c. apply lower_ascii_below.
Qed.

Lemma lstrip_list_Forall (P : ascii → Prop) l : Forall P l → Forall P (lstrip_list l).
Proof.
  induction 1 as [|c l Hc Hl IH]; simpl; [constructor|].
  destruct (is_space c); [done | by constructor].
Qed.

Lemma is_ascii_strip s : is_ascii s = true → is_ascii (ascii_strip s) = true.
Proof.
  rewrite !is_ascii_Forall. unfold ascii_strip.
  rewrite list_ascii_of_string_of_list_ascii. intros H.
  by apply Forall_rev, lstrip_list_Forall, Forall_rev, lstrip_list_Forall.
Qed.

(** X10: on ASCII text -- where [str.lower()] only maps [A-Z] to [a-z]
    and [str.strip()] removes the ASCII whitespace characters at both ends
    -- the fingerprint ignores letter case and surrounding whitespace, and
    normalising twice changes nothing: the normalised query, the query
    with one more whitespace character in front and the query with one
    more whitespace character behind all have the fingerprint of the
    query. *)
Theorem fingerprint_ignores_case_and_padding query k c :
  (∀ s, is_ascii s = true → lower s = ascii_lower s) →
  (∀ s, is_ascii s = true → strip s = ascii_strip s) →
  is_ascii query = true →
  is_space c = true →
  _generate_query_hash (strip (lower query)) k = _generate_query_hash query k ∧
  _generate_query_hash (String c query) k = _generate_query_hash query k ∧
  _generate_query_hash (query ++ String c "")%string k
    = _generate_query_hash query k.
Proof.
  intros Hlower Hstrip Hq Hc.
  assert (Hnorm : ∀ s, is_ascii s = true →
                       strip (lower s) = ascii_strip (ascii_lower s)).
  { intros s Hs. rewrite (Hlower s Hs). apply Hstrip. by apply is_ascii_lower. }
  assert (Hfront : is_ascii (String c query) = true).
  { apply is_ascii_Forall. simpl. constructor; [by apply is_space_below|].
    by apply is_ascii_Forall. }
  assert (Hback : is_ascii (query ++ String c "") = true).
  { apply is_ascii_Forall. rewrite list_ascii_of_append. apply Forall_app. split.
    - by apply is_ascii_Forall.
    - simpl. constructor; [by apply is_space_below | constructor]. }
  destruct (ascii_normal_form query c Hc) as (Hf & Hb).
  unfold _generate_query_hash, cache_key. split; [|split].
  - rewrite (Hnorm query Hq), Hnorm by (by apply is_ascii_strip, is_ascii_lower).
    by rewrite normalise_idem.
  - by rewrite (Hnorm _ Hfront), (Hnorm query Hq), Hf.
  - by rewrite (Hnorm _ Hback), (Hnorm query Hq), Hb.
Qed.

(** ** Resetting the counters *)

Lemma _is_expired_same_ttl C c timestamp hp t :
  ttl_seconds c = ttl_seconds C →
  _is_expired timestamp {| heap := hp; self := c; ticks := t |}
  = (Return (expired_at C t timestamp),
     {| heap := hp; self := c; ticks := tick_after C t |}).
Proof.
  intros H. rewrite _is_expired_spec. unfold expired_at, tick_after. simpl.
  by rewrite H.
Qed.

(** The scan does not look at the counters. *)
Lemma scan_stats_free qe items : ∀ best hp C t,
  ∃ o t', ∀ S,
    scan qe items best {| heap := hp; self := with_stats C S; ticks := t |}
    = (o, {| heap := hp; self := with_stats C S; ticks := t' |}).
Proof.
  induction items as [|[h e] items IH]; intros best hp C t.
  - by exists (Return best), t.
  - assert (Hstep : ∀ S,
      _is_expired (cached_timestamp e)
        {| heap := hp; self := with_stats C S; ticks := t |}
      = (Return (expired_at C t (cached_timestamp e)),
         {| heap := hp; self := with_stats C S; ticks := tick_after C t |})).
    { intros S. by rewrite _is_expired_spec. }
    destruct (expired_at C t (cached_timestamp e)) eqn:Hexp.
    + destruct (IH best hp C (tick_after C t)) as (o & t' & H).
      exists o, t'. intros S. simpl. run. rewrite Hstep. apply H.
    + destruct (cosine_similarity cosine qe (cached_embedding e)) as [sim|err] eqn:Hcos.
      * destruct (IH (if Qgtb sim (best_similarity best)
                      then {| best_match := Some (cached_data e);
                              best_similarity := sim;
                              best_hash := Some h |}
                      else best) hp C (tick_after C t)) as (o & t' & H).
        exists o, t'. intros S. simpl. run. rewrite Hstep, Hcos. run.
        rewrite <- (H S). by destruct (Qgtb _ _).
      * exists (Raise err), (tick_after C t). intros S. simpl. run.
        rewrite Hstep, Hcos. by run.
Qed.

(** Building the response looks at the heap only. *)
Lemma _create_cache_response_heap_only d cache_type similarity hp :
  ∃ o hp', ∀ c t,
    _create_cache_response d cache_type similarity
      {| heap := hp; self := c; ticks := t |}
    = (o, {| heap := hp'; self := c; ticks := t |}).
Proof.
  unfold _create_cache_response, obj_copy, dict_setitem.
  destruct d as [d|]; [|by eexists _, _].
  destruct (hp !! d) as [o|] eqn:Hd; [|eexists _, _; intros; run; by rewrite Hd].
  destruct o as [m|l].
  2: { eexists _, _. intros. run. rewrite Hd. run. rewrite heap_snoc_lookup. by run. }
  destruct similarity as [sim|]; eexists _, _; intros; run; rewrite Hd; run;
    rewrite heap_snoc_lookup, heap_snoc_insert; run;
    rewrite heap_snoc_lookup, heap_snoc_insert; run;
    rewrite ?heap_snoc_lookup, ?heap_snoc_insert; run; reflexivity.
Qed.

(** The semantic stage: its outcome, the heap, the semantic store and the
    clock do not depend on the counters. *)
Lemma get_semantic_stats_free query_embedding hp C t :
  ∃ o hp' sem' t', ∀ S, ∃ S',
    get_semantic query_embedding {| heap := hp; self := with_stats C S; ticks := t |}
    = (o, {| heap := hp'; self := with_stats (with_semantic C sem') S'; ticks := t' |}).
Proof.
  unfold get_semantic.
  destruct (enable_semantic_cache C) eqn:Hen.
  2: { exists (Return None), hp, (semantic_cache C), t. intros S. eexists. run.
       rewrite Hen. reflexivity. }
  destruct query_embedding as [qe|].
  2: { exists (Return None), hp, (semantic_cache C), t. intros S. eexists. run.
       rewrite Hen. reflexivity. }
  destruct (scan_stats_free qe (semantic_cache C) no_best hp C t) as (o & t' & Hscan).
  destruct o as [best|err].
  2: { exists (Raise err), hp, (semantic_cache C), t'. intros S. eexists. run.
       rewrite Hen. fold no_best. rewrite Hscan. reflexivity. }
  destruct (Qgeb (best_similarity best) (similarity_threshold C)) eqn:Hthr.
  2: { exists (Return None), hp, (semantic_cache C), t'. intros S. eexists. run.
       rewrite Hen. fold no_best. rewrite Hscan. simpl. rewrite Hthr. reflexivity. }
  unfold semantic_move_to_end.
  destruct (best_hash best) as [h|] eqn:Hh.
  2: { exists (Raise KeyError), hp, (semantic_cache C), t'. intros S. eexists. run.
       rewrite Hen. fold no_best. rewrite Hscan. simpl. rewrite Hthr. run.
       rewrite Hh. reflexivity. }
  destruct (od_move_to_end h (semantic_cache C)) as [d|err] eqn:Hmove.
  2: { exists (Raise err), hp, (semantic_cache C), t'. intros S. eexists. run.
       rewrite Hen. fold no_best. rewrite Hscan. simpl. rewrite Hthr. run.
       rewrite Hh, Hmove. reflexivity. }
  destruct (_create_cache_response_heap_only (best_match best) "semantic"
              (Some (best_similarity best)) hp) as (o & hp' & Hccr).
  exists (match o with Return r => Return (Some r) | Raise err => Raise err end), hp', d, t'.
  intros S. eexists. run. rewrite Hen. fold no_best. rewrite Hscan. simpl.
  rewrite Hthr. run. rewrite Hh, Hmove. run. rewrite Hccr. destruct o; reflexivity.
Qed.

(** [get]: its outcome, the heap, both stores and the clock do not depend
    on the counters. *)
Lemma get_stats_free query k query_embedding hp C t :
  ∃ o hp' ex' sem' t', ∀ S, ∃ S',
    get query k query_embedding {| heap := hp; self := with_stats C S; ticks := t |}
    = (o, {| heap := hp';
             self := with_stats (with_semantic (with_exact C ex') sem') S';
             ticks := t' |}).
Proof.
  unfold get. set (h := _generate_query_hash query k).
  destruct (od_get h (exact_cache C)) as [entry|] eqn:Hget.
  - destruct (expired_at C t (timestamp entry)) eqn:Hexp.
    + destruct (get_semantic_stats_free query_embedding hp
                  (with_exact C (od_del h (exact_cache C))) (tick_after C t))
        as (o & hp' & sem' & t' & Hsem).
      exists o, hp', (od_del h (exact_cache C)), sem', t'. intros S.
      destruct (Hsem (incr_ttl_expirations (incr_total_queries S))) as (S' & HS').
      exists S'. run. rewrite Hget, (_is_expired_same_ttl C) by reflexivity.
      rewrite Hexp. run. exact HS'.
    + destruct (_create_cache_response_heap_only (Some (data entry)) "exact" None hp)
        as (o & hp' & Hccr).
      exists (match o with Return r => Return (Some r) | Raise err => Raise err end),
        hp', (od_del h (exact_cache C) ++ [(h, entry)]), (semantic_cache C),
        (tick_after C t).
      intros S. eexists. run. rewrite Hget, (_is_expired_same_ttl C) by reflexivity.
      rewrite Hexp. unfold exact_move_to_end, od_move_to_end. run. rewrite Hget. run.
      rewrite Hccr. destruct o; reflexivity.
  - destruct (get_semantic_stats_free query_embedding hp C t)
      as (o & hp' & sem' & t' & Hsem).
    exists o, hp', (exact_cache C), sem', t'. intros S.
    destruct (Hsem (incr_total_queries S)) as (S' & HS').
    exists S'. run. rewrite Hget. exact HS'.
Qed.

(** X17: [reset_stats] zeroes the six counters and nothing else: a [get]
    after it gives the answer it would have given without it, with the
    same effect on both stores, the heap and the clock, and leaves
    [total_queries] at 1. *)
Theorem reset_stats_keeps_answers query k query_embedding w :
  let r := get query k query_embedding w in
  let r' := (reset_stats;; get query k query_embedding) w in
  reset_stats w = (Return tt, recount zero_stats w) ∧
  r'.1 = r.1 ∧
  heap r'.2 = heap r.2 ∧
  exact_cache (self r'.2) = exact_cache (self r.2) ∧
  semantic_cache (self r'.2) = semantic_cache (self r.2) ∧
  ticks r'.2 = ticks r.2 ∧
  total_queries (stats (self r'.2)) = 1.
Proof.
  intros r r'. subst r r'. split; [done|].
  assert (Hrun : (reset_stats;; get query k query_embedding) w
                 = get query k query_embedding (recount zero_stats w)) by done.
  rewrite Hrun.
  pose proof (get_total_queries lower strip sha256_hexdigest cosine clock query k query_embedding
                (recount zero_stats w)) as Htq.
  destruct w as [hp c t]. unfold recount in *. simpl in *.
  destruct (get_stats_free query k query_embedding hp c t)
    as (o & hp' & ex' & sem' & t' & Hfree).
  destruct (Hfree zero_stats) as (S0 & H0).
  destruct (Hfree (stats c)) as (S1 & H1).
  assert (Hc : with_stats c (stats c) = c) by (by destruct c).
  rewrite Hc in H1. rewrite H0 in Htq |- *. rewrite H1. simpl in *.
  repeat split. exact Htq.
Qed.

End QueryCacheMore.

(** * ChunkCache *)

Ltac crun :=
  repeat (unfold Chunk.bind, Chunk.ret, Chunk.raise, Chunk.get_self, Chunk.put_self,
            Chunk.modify_stats, Chunk.lift_outcome, Chunk.time_time,
            Chunk._generate_embedding_hash, Chunk.concatenate_tobytes; simpl).

Section ChunkCacheFacts.
Variable scalar : Type.
Variable array_bytes : nat -> list scalar -> Z -> string.
Variable sha256_hexdigest : string -> string.
Variable clock : nat -> Q.

Local Abbreviation key_at := (Chunk.key_at scalar array_bytes sha256_hexdigest).
Local Abbreviation chunk_get := (Chunk.get scalar array_bytes sha256_hexdigest clock).
Local Abbreviation chunk_set := (Chunk.set scalar array_bytes sha256_hexdigest clock).

Lemma od_del_length_le {V} k (d : odict V) : (length (od_del k d) <= length d)%nat.
Proof.
  induction d as [|[k' v] d IH]; simpl; [done|].
  destruct (String.eqb k k'); simpl; lia.
Qed.

Lemma od_del_length_lt {V} k (v : V) (d : odict V) :
  od_get k d = Some v → (length (od_del k d) < length d)%nat.
Proof.
  induction d as [|[k' v'] d IH]; simpl; [done|].
  destruct (String.eqb k k'); simpl.
  - intros _. pose proof (od_del_length_le k d). lia.
  - intros H. apply IH in H. lia.
Qed.

(** What [set] leaves: the new entry last, and the oldest entry gone when
    the cache is then over its budget. *)
Lemma chunk_set_spec embedding k chunks w :
  let key := key_at (Chunk.arrays w) embedding k in
  let c := Chunk.self w in
  let written := od_del key (Chunk.cache c) ++ [(key, (chunks, clock (Chunk.ticks w)))] in
  chunk_set embedding k chunks w
  = (Return tt,
     {| Chunk.self :=
          if len written >? Chunk.max_size c
          then Chunk.with_stats (Chunk.with_cache c (tail written))
                 (Chunk.incr_evictions (Chunk.stats c))
          else Chunk.with_cache c written;
        Chunk.ticks := S (Chunk.ticks w);
        Chunk.arrays := S (Chunk.arrays w) |}).
Proof.
  destruct w as [c t a]. unfold Chunk.set. crun. fold (key_at a embedding k).
  unfold od_move_to_end. rewrite od_get_setitem_eq, od_del_setitem. crun.
  destruct (len _ >? Chunk.max_size c); crun; by destruct c.
Qed.

(** X11: on a chunk cache with a budget of at least 1, [set(e, k, chunks)]
    followed at once by [get(e', k)] returns the very list that was stored
    and counts a hit, for every [e'] that agrees with [e], bit for bit, on
    the first 100 components ([e] itself included) -- the rest of the
    embedding is not part of the key -- provided [k] fits one of numpy's
    integer types ([-2^63 <= k < 2^64]), where the bytes of the array are
    a function of its values, and the TTL is unset, 0, or not elapsed at
    the lookup's clock reading. *)
Theorem chunk_roundtrip_on_prefix embedding embedding' k chunks w :
  (∀ n n' xs j, - 2 ^ 63 <= j < 2 ^ 64 → array_bytes n xs j = array_bytes n' xs j) →
  - 2 ^ 63 <= k < 2 ^ 64 →
  1 <= Chunk.max_size (Chunk.self w) →
  take 100 embedding' = take 100 embedding →
  (∀ ttl, Chunk.ttl_seconds (Chunk.self w) = Some ttl → ttl ≠ 0 →
          (clock (S (Chunk.ticks w)) - clock (Chunk.ticks w) <= inject_Z ttl)%Q) →
  ∃ w',
    Chunk.bind (chunk_set embedding k chunks) (λ _, chunk_get embedding' k) w
      = (Return (Some chunks), w') ∧
    Chunk.hits (Chunk.stats (Chunk.self w'))
      = Chunk.hits (Chunk.stats (Chunk.self w)) + 1 ∧
    Chunk.misses (Chunk.stats (Chunk.self w'))
      = Chunk.misses (Chunk.stats (Chunk.self w)).
Proof.
  intros Hbytes Hk Hmax Hprefix Hfresh. unfold Chunk.bind at 1. rewrite chunk_set_spec.
  destruct w as [c t a]. simpl in *.
  set (key := key_at a embedding k) in *.
  set (v := (chunks, clock t)).
  set (pre := od_del key (Chunk.cache c)).
  assert (Hpre : od_get key pre = None) by apply od_get_del_eq.
  assert (Hkey : key_at (S a) embedding' k = key).
  { unfold key, Chunk.key_at. by rewrite Hprefix, (Hbytes (S a) a). }
  assert (Hcache : ∃ pre', od_get key pre' = None ∧
            Chunk.cache (if len (pre ++ [(key, v)]) >? Chunk.max_size c
                         then Chunk.with_stats
                                (Chunk.with_cache c (tail (pre ++ [(key, v)])))
                                (Chunk.incr_evictions (Chunk.stats c))
                         else Chunk.with_cache c (pre ++ [(key, v)]))
            = pre' ++ [(key, v)]).
  { destruct (Z.gtb_spec (len (pre ++ [(key, v)])) (Chunk.max_size c)) as [Hgt|Hle];
      simpl; [|by exists pre].
    destruct pre as [|p pre']; [unfold len in Hgt; simpl in Hgt; lia|].
    exists pre'. split; [|done]. destruct p as [k0 v0]. simpl in Hpre.
    by destruct (String.eqb key k0). }
  destruct Hcache as (pre' & Hpre' & Hcache).
  match goal with
  | |- context [chunk_get _ _ {| Chunk.self := ?c0; Chunk.ticks := _; Chunk.arrays := _ |}] =>
    set (c2 := c0) in *
  end.
  assert (Hcfg : Chunk.ttl_seconds c2 = Chunk.ttl_seconds c ∧
                 Chunk.stats c2 = Chunk.stats c ∨
                 Chunk.ttl_seconds c2 = Chunk.ttl_seconds c ∧
                 Chunk.stats c2 = Chunk.incr_evictions (Chunk.stats c)).
  { subst c2. destruct (len _ >? _); simpl; [by right | by left]. }
  assert (Httl : Chunk.ttl_seconds c2 = Chunk.ttl_seconds c) by (by destruct Hcfg as [[? _]|[? _]]).
  assert (Hst : Chunk.hits (Chunk.stats c2) = Chunk.hits (Chunk.stats c) ∧
                Chunk.misses (Chunk.stats c2) = Chunk.misses (Chunk.stats c)).
  { by destruct Hcfg as [[_ ->]|[_ ->]]. }
  clearbody c2. unfold Chunk.get. crun. fold (key_at (S a) embedding' k).
  rewrite Hkey, Hcache.
  rewrite od_get_app_None by done. simpl. rewrite String.eqb_refl. crun.
  unfold Chunk.ttl_elapsed. crun. rewrite Httl.
  assert (Hmove : od_move_to_end key (pre' ++ [(key, v)])
                  = Return (od_del key (pre' ++ [(key, v)]) ++ [(key, v)])).
  { apply od_move_to_end_present. rewrite od_get_app_None by done. simpl.
    by rewrite String.eqb_refl. }
  destruct (Chunk.ttl_seconds c) as [ttl|] eqn:E; crun.
  - destruct (Z.eqb_spec ttl 0) as [->|Hnz]; crun.
    + rewrite Hcache, Hmove. crun. eexists. split; [reflexivity|]. simpl. lia.
    + assert ((clock (S t) - clock t <= inject_Z ttl)%Q) as Hle by (by apply Hfresh).
      apply Qgtb_false in Hle. rewrite Hle. crun. rewrite Hcache, Hmove. crun.
      eexists. split; [reflexivity|]. simpl. lia.
  - rewrite Hcache, Hmove. crun. eexists. split; [reflexivity|]. simpl. lia.
Qed.

(** Every [get] returns normally; the state it leaves, by case. *)
Lemma chunk_get_spec embedding k w :
  let key := key_at (Chunk.arrays w) embedding k in
  let c := Chunk.self w in
  let t := Chunk.ticks w in
  chunk_get embedding k w
  = match od_get key (Chunk.cache c) with
    | None =>
        (Return None,
         {| Chunk.self := Chunk.with_stats c (Chunk.incr_misses (Chunk.stats c));
            Chunk.ticks := t;
            Chunk.arrays := S (Chunk.arrays w) |})
    | Some (chunks, timestamp) =>
        let reads := match Chunk.ttl_seconds c with
                     | Some ttl => negb (ttl =? 0)
                     | None => false
                     end in
        let elapsed := match Chunk.ttl_seconds c with
                       | Some ttl =>
                           negb (ttl =? 0)
                           && Qgtb (clock t - timestamp) (inject_Z ttl)
                       | None => false
                       end in
        if elapsed then
          (Return None,
           {| Chunk.self :=
                Chunk.with_stats (Chunk.with_cache c (od_del key (Chunk.cache c)))
                  (Chunk.incr_misses (Chunk.incr_expirations (Chunk.stats c)));
              Chunk.ticks := S t;
              Chunk.arrays := S (Chunk.arrays w) |})
        else
          (Return (Some chunks),
           {| Chunk.self :=
                Chunk.with_stats
                  (Chunk.with_cache c
                     (od_del key (Chunk.cache c) ++ [(key, (chunks, timestamp))]))
                  (Chunk.incr_hits (Chunk.stats c));
              Chunk.ticks := if reads then S t else t;
              Chunk.arrays := S (Chunk.arrays w) |})
    end.
Proof.
  destruct w as [c t a]. unfold Chunk.get. crun. fold (key_at a embedding k).
  destruct (od_get _ (Chunk.cache c)) as [[chunks timestamp]|] eqn:Hget; crun; [|done].
  unfold Chunk.ttl_elapsed, od_move_to_end. crun.
  destruct (Chunk.ttl_seconds c) as [ttl|]; crun.
  - destruct (ttl =? 0); crun.
    + by rewrite Hget.
    + destruct (Qgtb _ _); crun; [done|]. by rewrite Hget.
  - by rewrite Hget.
Qed.

(** X12: the chunk cache never outgrows its budget: when
    [len(cache) <= max_size] holds, it still holds after [set] (which
    evicts the oldest entry if the new one does not fit) and after [get];
    neither changes [max_size]. *)
Theorem chunk_budget_is_kept embedding k chunks w :
  let ws := (chunk_set embedding k chunks w).2 in
  let wg := (chunk_get embedding k w).2 in
  len (Chunk.cache (Chunk.self w)) <= Chunk.max_size (Chunk.self w) →
  len (Chunk.cache (Chunk.self ws)) <= Chunk.max_size (Chunk.self ws) ∧
  len (Chunk.cache (Chunk.self wg)) <= Chunk.max_size (Chunk.self wg) ∧
  Chunk.max_size (Chunk.self ws) = Chunk.max_size (Chunk.self w) ∧
  Chunk.max_size (Chunk.self wg) = Chunk.max_size (Chunk.self w).
Proof.
  intros ws wg Hfit. subst ws wg. rewrite chunk_set_spec, chunk_get_spec.
  destruct w as [c t a]. simpl in *.
  set (key := key_at a embedding k).
  pose proof (od_del_length_le key (Chunk.cache c)) as Hdel.
  split; [|split; [|split]].
  - destruct (Z.gtb_spec (len (od_del key (Chunk.cache c) ++ [(key, (chunks, clock t))]))
                (Chunk.max_size c)) as [Hgt|Hle]; simpl; [|done].
    unfold len in *. rewrite length_app in *. simpl in *.
    destruct (od_del key (Chunk.cache c)); simpl in *; [lia|].
    rewrite length_app. simpl. lia.
  - destruct (od_get key (Chunk.cache c)) as [[ch ts]|] eqn:Hget; simpl; [|done].
    pose proof (od_del_length_lt key _ _ Hget) as Hlt.
    destruct (match Chunk.ttl_seconds c with Some _ => _ | None => _ end); simpl;
      unfold len in *; rewrite ?length_app; simpl; lia.
  - by destruct (len _ >? _).
  - destruct (od_get key (Chunk.cache c)) as [[ch ts]|]; simpl; [|done].
    by destruct (match Chunk.ttl_seconds c with Some _ => _ | None => _ end).
Qed.

(** X13: a chunk cache whose [ttl_seconds] is [None] or 0 never expires an
    entry: however late the lookup, [get] on a stored key returns the
    stored list, counts a hit, moves the entry to the most recent end and
    does not read the clock. *)
Theorem chunk_zero_ttl_never_expires embedding k chunks timestamp w :
  let key := key_at (Chunk.arrays w) embedding k in
  let c := Chunk.self w in
  Chunk.ttl_seconds c = None ∨ Chunk.ttl_seconds c = Some 0 →
  od_get key (Chunk.cache c) = Some (chunks, timestamp) →
  chunk_get embedding k w
  = (Return (Some chunks),
     {| Chunk.self :=
          Chunk.with_stats
            (Chunk.with_cache c
               (od_del key (Chunk.cache c) ++ [(key, (chunks, timestamp))]))
            (Chunk.incr_hits (Chunk.stats c));
        Chunk.ticks := Chunk.ticks w;
        Chunk.arrays := S (Chunk.arrays w) |}).
Proof.
  intros key c Httl Hget. rewrite chunk_get_spec. fold key c. rewrite Hget.
  by destruct Httl as [-> | ->].
Qed.

(** X14: with a TTL other than 0, a [get] on a stored key whose entry is
    older than the TTL at the clock reading returns [None], removes the
    entry, and counts one expiration and one miss (no hit). *)
Theorem chunk_expired_entry_is_dropped embedding k chunks timestamp ttl w :
  let key := key_at (Chunk.arrays w) embedding k in
  let c := Chunk.self w in
  let r := chunk_get embedding k w in
  Chunk.ttl_seconds c = Some ttl →
  ttl ≠ 0 →
  od_get key (Chunk.cache c) = Some (chunks, timestamp) →
  (inject_Z ttl < clock (Chunk.ticks w) - timestamp)%Q →
  r.1 = Return None ∧
  od_get key (Chunk.cache (Chunk.self r.2)) = None ∧
  Chunk.cache (Chunk.self r.2) = od_del key (Chunk.cache c) ∧
  Chunk.expirations (Chunk.stats (Chunk.self r.2))
    = Chunk.expirations (Chunk.stats c) + 1 ∧
  Chunk.misses (Chunk.stats (Chunk.self r.2)) = Chunk.misses (Chunk.stats c) + 1 ∧
  Chunk.hits (Chunk.stats (Chunk.self r.2)) = Chunk.hits (Chunk.stats c).
Proof.
  intros key c r Httl Hnz Hget Hold. subst r. rewrite chunk_get_spec.
  fold key c. rewrite Hget, Httl.
  apply Qgtb_true in Hold. rewrite Hold.
  destruct (Z.eqb_spec ttl 0); [done|]. simpl.
  repeat split. apply od_get_del_eq.
Qed.

(** X15: every chunk [get] returns normally and counts exactly one
    request: a returned list comes with one more hit and no more miss,
    [None] comes with one more miss and no more hit; evictions are never
    counted by [get]. *)
Theorem chunk_get_counts_once embedding k w :
  ∃ r w',
    Chunk.get scalar array_bytes sha256_hexdigest clock embedding k w = (Return r, w') ∧
    let s := Chunk.stats (Chunk.self w) in
    let s' := Chunk.stats (Chunk.self w') in
    Chunk.hits s' + Chunk.misses s' = Chunk.hits s + Chunk.misses s + 1 ∧
    Chunk.hits s' = Chunk.hits s + match r with Some _ => 1 | None => 0 end ∧
    Chunk.evictions s' = Chunk.evictions s.
Proof.
  rewrite chunk_get_spec. destruct w as [c t a]. simpl.
  destruct (od_get _ (Chunk.cache c)) as [[chunks ts]|].
  - destruct (match Chunk.ttl_seconds c with Some _ => _ | None => _ end);
      eexists _, _; (split; [reflexivity|]); simpl;
      (split; [lia|]); (split; [lia|]); done.
  - eexists _, _. split; [reflexivity|]. simpl.
    split; [lia|]. split; [lia|]. done.
Qed.

(** X16: eviction in the chunk cache is first-in-first-out, one entry per
    [set]: storing under a new key in a full cache (length equal to a
    budget of at least 1) drops exactly the oldest entry and counts one
    eviction; storing under a new key in a cache that is not full, or
    under a key already present in a cache within its budget whose keys
    are distinct, evicts nothing -- the entry goes to, or moves to, the
    most recent end with its new list and timestamp. *)
Theorem chunk_set_is_fifo embedding k chunks w :
  let key := key_at (Chunk.arrays w) embedding k in
  let c := Chunk.self w in
  let entry := (key, (chunks, clock (Chunk.ticks w))) in
  let c' := Chunk.self (chunk_set embedding k chunks w).2 in
  (od_get key (Chunk.cache c) = None →
   len (Chunk.cache c) = Chunk.max_size c → 1 <= Chunk.max_size c →
   Chunk.cache c' = tail (Chunk.cache c) ++ [entry] ∧
   Chunk.evictions (Chunk.stats c') = Chunk.evictions (Chunk.stats c) + 1) ∧
  (od_get key (Chunk.cache c) = None →
   len (Chunk.cache c) < Chunk.max_size c →
   Chunk.cache c' = Chunk.cache c ++ [entry] ∧
   Chunk.evictions (Chunk.stats c') = Chunk.evictions (Chunk.stats c)) ∧
  (∀ old, od_get key (Chunk.cache c) = Some old →
   unique_keys (Chunk.cache c) = true →
   len (Chunk.cache c) <= Chunk.max_size c →
   Chunk.cache c' = od_del key (Chunk.cache c) ++ [entry] ∧
   Chunk.evictions (Chunk.stats c') = Chunk.evictions (Chunk.stats c)).
Proof.
  intros key c entry c'. subst c'. rewrite chunk_set_spec. fold key c entry.
  destruct w as [c0 t a]. simpl in *. subst c. split; [|split].
  - intros Habsent Hfull Hmax. rewrite od_del_absent by done.
    destruct (Z.gtb_spec (len (Chunk.cache c0 ++ [entry])) (Chunk.max_size c0)) as [_|Hle].
    + simpl. split; [|done]. destruct (Chunk.cache c0) as [|x d] eqn:E; [|done].
      unfold len in Hfull. simpl in Hfull. lia.
    + unfold len in *. rewrite length_app in Hle. simpl in Hle. lia.
  - intros Habsent Hroom. rewrite od_del_absent by done.
    destruct (Z.gtb_spec (len (Chunk.cache c0 ++ [entry])) (Chunk.max_size c0)) as [Hgt|_].
    + unfold len in *. rewrite length_app in Hgt. simpl in Hgt. lia.
    + done.
  - intros old Hget Hu Hfit.
    pose proof (Permutation_length (od_del_perm key old _ Hu Hget)) as Hlen.
    simpl in Hlen.
    destruct (Z.gtb_spec (len (od_del key (Chunk.cache c0) ++ [entry]))
                (Chunk.max_size c0)) as [Hgt|_].
    + unfold len in *. rewrite length_app in Hgt. simpl in Hgt. lia.
    + done.
Qed.

(** X20: the chunk cache's snapshot reports the hit rate over
    [hits + misses]: the int 0 when nothing was requested, and otherwise
    [round(hits / total_requests * 100, 2)] as the float arithmetic
    computes it -- the float nearest to a hundredth [n / 100] between 0
    and 100 that is within 1/200 (plus [2^-44] for the float roundings) of
    the exact percentage -- together with the number of entries.  The
    call changes nothing. *)
Theorem chunk_hit_rate_report (w : Chunk.State) :
  let s := Chunk.stats (Chunk.self w) in
  let total := Chunk.hits s + Chunk.misses s in
  (total <= 0 →
   ∃ snap, Chunk.get_stats w = (Return snap, w) ∧
           Chunk.hit_rate_percent snap = Int 0 ∧
           Chunk.cache_size snap = len (Chunk.cache (Chunk.self w))) ∧
  (0 <= Chunk.hits s → 0 <= Chunk.misses s → 0 < total →
   ∃ snap ratio rate n,
     Chunk.get_stats w = (Return snap, w) ∧
     int_truediv (Chunk.hits s) total = Return (Finite ratio) ∧
     float_mul (Finite ratio) (Finite 100) = Finite rate ∧
     n = round_half_even (rate * 100) ∧
     Chunk.hit_rate_percent snap
       = Float (Finite (nearest_binary64 (inject_Z n / 100))) ∧
     0 <= n <= 10000 ∧
     (Qabs (inject_Z n / 100 - inject_Z (Chunk.hits s) / inject_Z total * 100)
        <= (1 # 200) + 2 ^ (-44))%Q ∧
     Chunk.cache_size snap = len (Chunk.cache (Chunk.self w))).
Proof.
  destruct w as [c t a]. simpl. split.
  - intros Hzero. unfold Chunk.get_stats. crun.
    destruct (Z.gtb_spec (Chunk.hits (Chunk.stats c) + Chunk.misses (Chunk.stats c)) 0)
      as [Hgt|_]; [lia|].
    crun. by eexists.
  - intros Hh Hm Hpos.
    destruct (hit_rate_accuracy (Chunk.hits (Chunk.stats c))
                (Chunk.hits (Chunk.stats c) + Chunk.misses (Chunk.stats c)))
      as (ratio & rate & n & Hdiv & Hmul & Hn & Hrange & Hnear); [lia | lia |].
    unfold Chunk.get_stats. crun.
    destruct (Z.gtb_spec (Chunk.hits (Chunk.stats c) + Chunk.misses (Chunk.stats c)) 0)
      as [_|Hle]; [|lia].
    rewrite Hdiv. crun. rewrite Hmul. simpl.
    eexists _, ratio, rate, n. split; [reflexivity|]. simpl.
    split; [done|]. split; [done|]. split; [done|].
    split; [by rewrite Hn|]. done.
Qed.

End ChunkCacheFacts.

(** * The further properties at concrete inputs *)

Lemma set_keeps_most_recent_witness :
  let w := (set ascii_lower ascii_strip id_digest second_clock "a" 0%nat 5 None
              (start (new_cache 1 (92 # 100) (Some 3600) false) one_payload)).2 in
  ∃ w2,
    set ascii_lower ascii_strip id_digest
        second_clock "b" 0%nat 5 None w = (Return tt, w2) ∧
    map fst (exact_cache (self w2)) = ["b|k=5"%string] ∧
    evictions (stats (self w2)) = 1.
Proof.
  intros w.
  destruct (set_keeps_most_recent ascii_lower ascii_strip id_digest
      second_clock "b" 0%nat 5 None w)
    as (w2 & Hset & He & _ & Hev).
  - vm_compute. discriminate.
  - reflexivity.
  - by left.
  - exists w2. split; [exact Hset|]. rewrite He, Hev. split; vm_compute; reflexivity.
Defined.

Lemma semantic_roundtrip_witness :
  let w := start (new_cache 1000 (92 # 100) (Some 3600) true) one_payload in
  ∃ w',
    (set ascii_lower ascii_strip id_digest second_clock "a" 0%nat 5 (Some [1%Q; 0%Q]);;
     get ascii_lower ascii_strip id_digest
         unit_cosine second_clock "b" 5 (Some [1%Q; 0%Q])) w
      = (Return (Some 1%nat), w') ∧
    heap w' = heap w ++ [ODict (annotated ∅ "semantic"
                                  (Some (unit_cosine [1%Q; 0%Q] [1%Q; 0%Q])))] ∧
    semantic_hits (stats (self w')) = semantic_hits (stats (self w)) + 1 ∧
    misses (stats (self w')) = misses (stats (self w)).
Proof.
  apply (semantic_roundtrip ascii_lower ascii_strip id_digest unit_cosine second_clock
           "a" 5 [1%Q; 0%Q] "b" 5 [1%Q; 0%Q] 0%nat ∅
           (start (new_cache 1000 (92 # 100) (Some 3600) true) one_payload)).
  - simpl. lia.
  - reflexivity.
  - reflexivity.
  - reflexivity.
  - vm_compute. discriminate.
  - reflexivity.
  - reflexivity.
  - vm_compute. reflexivity.
  - vm_compute. discriminate.
  - intros ttl [= <-]. unfold Qle. simpl. lia.
Defined.

Lemma exact_hit_promotes_witness :
  ∃ w',
    get ascii_lower ascii_strip id_digest
        unit_cosine second_clock "a" 5 (Some [0%Q; 1%Q]) tied_world
      = (Return (Some 1%nat), w') ∧
    map fst (exact_cache (self w')) = ["b|k=5"%string; "a|k=5"%string] ∧
    semantic_cache (self w') = semantic_cache (self tied_world).
Proof.
  destruct (exact_hit_promotes ascii_lower ascii_strip id_digest
      unit_cosine second_clock "a" 5
              (Some [0%Q; 1%Q]) tied_world
              {| data := 0%nat; timestamp := second_clock 0; query := "a" |} ∅)
    as (w' & Hget & _ & He & Hs & _).
  - reflexivity.
  - vm_compute. reflexivity.
  - reflexivity.
  - exists w'. split; [exact Hget|]. rewrite He. split; [vm_compute; reflexivity | exact Hs].
Defined.

Lemma get_never_grows_the_cache_witness :
  let w' := (get ascii_lower ascii_strip id_digest
      unit_cosine second_clock "c" 5 (Some [1%Q; 0%Q])
               tied_world).2 in
  semantic_cache (self w') ≡ₚ semantic_cache (self tied_world) ∧
  max_size (self w') = max_size (self tied_world).
Proof.
  intros w'.
  destruct (get_never_grows_the_cache ascii_lower ascii_strip id_digest
      unit_cosine second_clock "c" 5
              (Some [1%Q; 0%Q]) tied_world) as (Hs & _ & _ & Hm).
  - split; reflexivity.
  - split; [exact Hs | exact Hm].
Defined.

Lemma remove_expired_sweeps_witness :
  let w := {| heap := heap stale_world; self := self stale_world; ticks := 3 |} in
  ∃ w',
    remove_expired late_clock w = (Return tt, w') ∧
    map fst (exact_cache (self w')) = ["r|k=5"%string] ∧
    map fst (semantic_cache (self w')) = ["r|k=5"%string] ∧
    ttl_expirations (stats (self w')) = 1.
Proof.
  intros w.
  destruct (remove_expired_sweeps late_clock w)
    as (w' & Hrun & He & Hs & Httl & _).
  - split; reflexivity.
  - exists w'. split; [exact Hrun|]. rewrite Httl, He, Hs.
    repeat split; vm_compute; reflexivity.
Defined.

Lemma fingerprint_depends_on_k_witness :
  let w := start (new_cache 1000 (92 # 100) (Some 3600) true) one_payload in
  cache_key ascii_lower ascii_strip "foo" 5 = "foo|k=5"%string ∧
  cache_key ascii_lower ascii_strip "foo" 3 = "foo|k=3"%string ∧
  ((set ascii_lower ascii_strip id_digest second_clock "foo" 0%nat 5 (Some [1%Q; 0%Q]);;
    get ascii_lower ascii_strip id_digest unit_cosine second_clock "foo" 3 None) w).1
  = Return None.
Proof.
  intros w.
  destruct (fingerprint_depends_on_k ascii_lower ascii_strip id_digest unit_cosine
              second_clock "foo" 0%nat 5 3 (Some [1%Q; 0%Q]) w) as (_ & Hmiss).
  - lia.
  - split; [reflexivity|]. split; [reflexivity|]. apply Hmiss.
    + vm_compute. discriminate.
    + reflexivity.
Defined.

Lemma fingerprint_ignores_case_and_padding_witness :
  _generate_query_hash ascii_lower ascii_strip id_digest
    (ascii_strip (ascii_lower " What IS a Swerve? ")) 5
  = _generate_query_hash ascii_lower ascii_strip id_digest " What IS a Swerve? " 5 ∧
  _generate_query_hash ascii_lower ascii_strip id_digest
    (String " " " What IS a Swerve? ") 5
  = _generate_query_hash ascii_lower ascii_strip id_digest " What IS a Swerve? " 5 ∧
  _generate_query_hash ascii_lower ascii_strip id_digest
    (" What IS a Swerve? " ++ String " " "") 5
  = _generate_query_hash ascii_lower ascii_strip id_digest " What IS a Swerve? " 5.
Proof.
  apply (fingerprint_ignores_case_and_padding ascii_lower ascii_strip id_digest
           " What IS a Swerve? " 5 " ").
  - reflexivity.
  - reflexivity.
  - reflexivity.
  - reflexivity.
Defined.

Lemma chunk_roundtrip_on_prefix_witness :
  let long := repeat (1 # 3)%Q 100 in
  ∃ w',
    Chunk.bind
      (Chunk.set Q plain_bytes id_digest second_clock (long ++ [1%Q]) 5 7%nat)
      (λ _, Chunk.get Q plain_bytes id_digest second_clock (long ++ [2%Q; 3%Q]) 5)
      (chunk_start 2 (Some 1800))
      = (Return (Some 7%nat), w') ∧
    Chunk.hits (Chunk.stats (Chunk.self w'))
      = Chunk.hits (Chunk.stats (Chunk.self (chunk_start 2 (Some 1800)))) + 1 ∧
    Chunk.misses (Chunk.stats (Chunk.self w'))
      = Chunk.misses (Chunk.stats (Chunk.self (chunk_start 2 (Some 1800)))).
Proof.
  intros long.
  apply (chunk_roundtrip_on_prefix Q plain_bytes id_digest second_clock
           (long ++ [1%Q]) (long ++ [2%Q; 3%Q]) 5 7%nat (chunk_start 2 (Some 1800))).
  - reflexivity.
  - lia.
  - simpl. lia.
  - reflexivity.
  - intros ttl [= <-] _. unfold Qle. simpl. lia.
Defined.

Lemma chunk_budget_is_kept_witness :
  let w := chunk_start 1 (Some 1800) in
  let ws := (Chunk.set Q plain_bytes id_digest second_clock [1%Q] 5 7%nat w).2 in
  len (Chunk.cache (Chunk.self ws)) <= Chunk.max_size (Chunk.self ws).
Proof.
  intros w ws.
  apply (chunk_budget_is_kept Q plain_bytes id_digest second_clock [1%Q] 5 7%nat w).
  vm_compute. discriminate.
Defined.

Lemma chunk_zero_ttl_never_expires_witness :
  let w := (Chunk.set Q plain_bytes id_digest late_clock [1%Q] 5 7%nat
              (chunk_start 2 (Some 0))).2 in
  (Chunk.get Q plain_bytes id_digest late_clock [1%Q] 5 w).1 = Return (Some 7%nat) ∧
  Chunk.ticks (Chunk.get Q plain_bytes id_digest late_clock [1%Q] 5 w).2 = Chunk.ticks w.
Proof.
  intros w.
  rewrite (chunk_zero_ttl_never_expires Q plain_bytes id_digest late_clock [1%Q] 5 7%nat
             (late_clock 0) w).
  - split; reflexivity.
  - by right.
  - reflexivity.
Defined.

Lemma chunk_expired_entry_is_dropped_witness :
  let w := (Chunk.set Q plain_bytes id_digest late_clock [1%Q] 5 7%nat
              (chunk_start 2 (Some 1800))).2 in
  let r := Chunk.get Q plain_bytes id_digest late_clock [1%Q] 5 w in
  r.1 = Return None ∧ Chunk.cache (Chunk.self r.2) = [] ∧
  Chunk.expirations (Chunk.stats (Chunk.self r.2)) = 1.
Proof.
  intros w r.
  destruct (chunk_expired_entry_is_dropped Q plain_bytes id_digest late_clock [1%Q] 5
              7%nat (late_clock 0) 1800 w) as (Hr & _ & Hc & He & _).
  - reflexivity.
  - lia.
  - reflexivity.
  - vm_compute. reflexivity.
  - subst r. split; [exact Hr|]. rewrite Hc, He. split; vm_compute; reflexivity.
Defined.

Lemma chunk_set_is_fifo_witness :
  let w := (Chunk.set Q plain_bytes id_digest second_clock [1%Q] 5 7%nat
              (chunk_start 1 None)).2 in
  let c' := Chunk.self (Chunk.set Q plain_bytes id_digest second_clock [2%Q] 5 8%nat w).2 in
  map fst (Chunk.cache c') = ["2/1;5"%string] ∧
  Chunk.evictions (Chunk.stats c') = 1.
Proof.
  intros w c'.
  destruct (chunk_set_is_fifo Q plain_bytes id_digest second_clock [2%Q] 5 8%nat w)
    as (Hfull & _ & _).
  destruct Hfull as (Hc & He).
  - reflexivity.
  - reflexivity.
  - simpl. lia.
  - subst c'. rewrite Hc, He. split; vm_compute; reflexivity.
Defined.

Lemma chunk_hit_rate_report_witness :
  let w := {| Chunk.self :=
                Chunk.with_stats (Chunk.__init__ 500 (Some 1800))
                  {| Chunk.hits := 23; Chunk.misses := 137;
                     Chunk.evictions := 0; Chunk.expirations := 0 |};
              Chunk.ticks := 0; Chunk.arrays := 0 |} in
  ∃ snap, Chunk.get_stats w = (Return snap, w) ∧
          Chunk.hit_rate_percent snap
          = Float (Finite (nearest_binary64 (1437 # 100))).
Proof.
  intros w.
  destruct (chunk_hit_rate_report w) as (_ & Hrate).
  destruct Hrate as (snap & ratio & rate & n & Hs & Hdiv & Hmul & Hn & Hr & _).
  - simpl. lia.
  - simpl. lia.
  - simpl. lia.
  - exists snap. split; [exact Hs|]. rewrite Hr.
    vm_compute in Hdiv. injection Hdiv as <-.
    vm_compute in Hmul. injection Hmul as <-.
    vm_compute in Hn. by rewrite Hn.
Defined.
